(** * html-to-image: the resource-embedding pipeline

    A shallow embedding of [src/getBlobFromURL.ts], [src/embedWebFonts.ts],
    [src/clonePseudoElements.ts] and of the string and URL functions of
    [src/util.ts], with the properties of the specification, and further
    properties read off the code, stated and proved over it.

    JavaScript strings are modelled as lists of characters ([text]); a
    character stands for one code unit in the range 0..255.  The regular
    expressions of the source are kept as syntax trees and run by a
    backtracking matcher that follows the continuation semantics of the
    ECMAScript specification, so that each pattern of the source can be
    compared with its tree.  Promises are modelled by their state, caches
    by finite maps, and the network by the events it eventually delivers. *)

From Stdlib Require Import Ascii String List Lia Arith Bool NArith DecimalString
  DecimalN.
From stdpp Require Import gmap strings list fin_maps.

Set Default Proof Using "Type".

(** ** Text *)

Abbreviation text := (list ascii).

Definition js (s : string) : text := list_ascii_of_string s.

(** ** Regular expressions *)

Module RegExp.

(** One item of a character class (or a class escape used on its own). *)
Inductive citem : Type :=
| IChar (c : ascii)              (* a literal character *)
| IRange (lo hi : ascii)         (* a-z *)
| IDigit                         (* \d *)
| IWord                          (* \w *)
| ISpace                         (* \s *)
| INonSpace.                     (* \S *)

Inductive regex : Type :=
| Eps                                        (* empty pattern *)
| Chr (c : ascii)                            (* pattern character *)
| Dot                                        (* . *)
| Class (negated : bool) (items : list citem)(* [...] and [^...] *)
| Bol                                        (* ^ *)
| Seq (a b : regex)
| Alt (a b : regex)                          (* a|b *)
| Star (greedy : bool) (a : regex)           (* a* and a*? *)
| Group (n : nat) (a : regex).               (* n-th capturing group *)

(** a+, a+?, a?, a?? and (?:a) in terms of the constructors. *)
Definition Plus (greedy : bool) (a : regex) : regex := Seq a (Star greedy a).
Definition Opt (greedy : bool) (a : regex) : regex :=
  if greedy then Alt a Eps else Alt Eps a.
Definition Lit (s : string) : regex :=
  fold_right (fun c r => Seq (Chr c) r) Eps (js s).
Fixpoint Cat (l : list regex) : regex :=
  match l with
  | [] => Eps
  | [a] => a
  | a :: l' => Seq a (Cat l')
  end.

Definition code (c : ascii) : nat := nat_of_ascii c.
Definition in_range (lo hi : nat) (c : ascii) : bool :=
  (lo <=? code c) && (code c <=? hi).
Definition is_upper (c : ascii) : bool := in_range 65 90 c.
Definition is_lower (c : ascii) : bool := in_range 97 122 c.
Definition is_digit (c : ascii) : bool := in_range 48 57 c.
Definition is_letter (c : ascii) : bool := is_upper c || is_lower c.
Definition is_word (c : ascii) : bool :=
  is_letter c || is_digit c || (code c =? 95).
(** WhiteSpace and LineTerminator code units below 256. *)
Definition is_space (c : ascii) : bool :=
  in_range 9 13 c || (code c =? 32) || (code c =? 160).
Definition is_line_terminator (c : ascii) : bool :=
  (code c =? 10) || (code c =? 13).
Definition to_upper (c : ascii) : ascii :=
  if is_lower c then ascii_of_nat (code c - 32) else c.
Definition to_lower (c : ascii) : ascii :=
  if is_upper c then ascii_of_nat (code c + 32) else c.

Definition citem_mem (i : citem) (c : ascii) : bool :=
  match i with
  | IChar d => Ascii.eqb d c
  | IRange lo hi => in_range (code lo) (code hi) c
  | IDigit => is_digit c
  | IWord => is_word c
  | ISpace => is_space c
  | INonSpace => negb (is_space c)
  end.

(** Membership modulo Canonicalize: with the [i] flag a character matches
    when some member of the set has the same canonical form. *)
Definition citem_match (ignoreCase : bool) (i : citem) (c : ascii) : bool :=
  if ignoreCase
  then citem_mem i c || citem_mem i (to_upper c) || citem_mem i (to_lower c)
  else citem_mem i c.

Definition class_match (ignoreCase negated : bool) (items : list citem)
    (c : ascii) : bool :=
  xorb negated (existsb (fun i => citem_match ignoreCase i c) items).

(** The matcher state: the position reached, the text that is left, and
    the captures made so far (most recent first). *)
Record mstate : Type := MState {
  m_pos : nat;
  m_rest : text;
  m_caps : list (nat * (nat * nat))
}.

Definition or_else {A : Type} (x y : option A) : option A :=
  match x with Some _ => x | None => y end.

Definition step_char (ok : ascii -> bool) (x : mstate)
    (k : mstate -> option mstate) : option mstate :=
  match m_rest x with
  | c :: t => if ok c then k (MState (S (m_pos x)) t (m_caps x)) else None
  | [] => None
  end.

(** [rmatch ic r x k]: match [r] at state [x], then continue with [k];
    [None] is failure and makes the caller backtrack.  An iteration of a
    star that consumes nothing is rejected, as in RepeatMatcher, so a star
    over a text of [n] characters iterates at most [n] times. *)
Fixpoint rmatch (ic : bool) (r : regex) (x : mstate)
    (k : mstate -> option mstate) {struct r} : option mstate :=
  match r with
  | Eps => k x
  | Chr c => step_char (citem_match ic (IChar c)) x k
  | Dot => step_char (fun c => negb (is_line_terminator c)) x k
  | Class neg items => step_char (class_match ic neg items) x k
  | Bol => if m_pos x =? 0 then k x else None
  | Seq a b => rmatch ic a x (fun y => rmatch ic b y k)
  | Alt a b => or_else (rmatch ic a x k) (rmatch ic b x k)
  | Star g a =>
      (fix loop (fuel : nat) (x : mstate) {struct fuel} : option mstate :=
         match fuel with
         | 0 => None
         | S f =>
             let again :=
               rmatch ic a x
                 (fun y => if m_pos y =? m_pos x then None else loop f y) in
             if g then or_else again (k x) else or_else (k x) again
         end) (S (length (m_rest x))) x
  | Group n a =>
      rmatch ic a x
        (fun y => k (MState (m_pos y) (m_rest y)
                       ((n, (m_pos x, m_pos y)) :: m_caps y)))
  end.

(** A RegExp object: its pattern and the two flags the source uses. *)
Record regexp : Type := RegExp_ {
  re_source : regex;
  re_global : bool;
  re_ignoreCase : bool
}.

(** The result of one successful match. *)
Record rmatch_result : Type := MatchResult {
  mr_index : nat;
  mr_end : nat;
  mr_caps : list (nat * (nat * nat))
}.

Definition match_here (re : regexp) (pos : nat) (rest : text)
    : option rmatch_result :=
  match rmatch (re_ignoreCase re) (re_source re) (MState pos rest []) Some with
  | Some y => Some (MatchResult pos (m_pos y) (m_caps y))
  | None => None
  end.

(** The leftmost match starting at [pos] or later ([rest] is the text from
    [pos] on). *)
Fixpoint search (re : regexp) (pos : nat) (rest : text)
    : option rmatch_result :=
  match match_here re pos rest with
  | Some m => Some m
  | None =>
      match rest with
      | [] => None
      | _ :: t => search re (S pos) t
      end
  end.

(** RegExpBuiltinExec: returns the match and the new [lastIndex].  A regexp
    without the [g] flag starts at 0 and leaves [lastIndex] alone. *)
Definition exec (re : regexp) (s : text) (lastIndex : nat)
    : option rmatch_result * nat :=
  if re_global re then
    if length s <? lastIndex then (None, 0)
    else match search re lastIndex (drop lastIndex s) with
         | Some m => (Some m, mr_end m)
         | None => (None, 0)
         end
  else (search re 0 s, lastIndex).

(** RegExp.prototype.test on a regexp without the [g] flag. *)
Definition test (re : regexp) (s : text) : bool :=
  match search re 0 s with Some _ => true | None => false end.

(** All the matches of a global regexp from left to right, as the loops of
    [Symbol.match] and [Symbol.replace] find them: after a match the search
    resumes at its end, and one character further after an empty match.
    [skip] counts the characters still covered by the previous match. *)
Fixpoint scan_all (re : regexp) (pos : nat) (rest : text) (skip : nat)
    : list rmatch_result :=
  match skip with
  | S n =>
      match rest with
      | [] => []
      | _ :: t => scan_all re (S pos) t n
      end
  | 0 =>
      match match_here re pos rest with
      | Some m =>
          m :: match rest with
               | [] => []
               | _ :: t => scan_all re (S pos) t (mr_end m - pos - 1)
               end
      | None =>
          match rest with
          | [] => []
          | _ :: t => scan_all re (S pos) t 0
          end
      end
  end.

End RegExp.

Import RegExp.

(** ** String methods *)

Definition slice (s : text) (i e : nat) : text := take (e - i) (drop i s).

Definition matched (s : text) (m : rmatch_result) : text :=
  slice s (mr_index m) (mr_end m).

(** The text of capture [n] of a match ([None] when the group did not
    take part). *)
Definition capture (s : text) (m : rmatch_result) (n : nat) : option text :=
  match List.find (fun p => fst p =? n) (mr_caps m) with
  | Some (_, (i, e)) => Some (slice s i e)
  | None => None
  end.

Fixpoint group_count (r : regex) : nat :=
  match r with
  | Seq a b | Alt a b => Nat.max (group_count a) (group_count b)
  | Star _ a => group_count a
  | Group n a => Nat.max n (group_count a)
  | _ => 0
  end.

Definition captures (re : regexp) (s : text) (m : rmatch_result)
    : list (option text) :=
  map (fun n => capture s m (S n)) (seq 0 (group_count (re_source re))).

Fixpoint prefix_b (p s : text) : bool :=
  match p, s with
  | [], _ => true
  | _ :: _, [] => false
  | a :: p', b :: s' => Ascii.eqb a b && prefix_b p' s'
  end.

(** String.prototype.indexOf from [pos] ([rest] is the text from [pos]). *)
Fixpoint index_from (pat : text) (pos : nat) (rest : text) : option nat :=
  if prefix_b pat rest then Some pos
  else match rest with
       | [] => None
       | _ :: t => index_from pat (S pos) t
       end.

Definition indexOf (s pat : text) : option nat := index_from pat 0 s.

Definition startsWith (s pat : text) : bool := prefix_b pat s.

Definition digit_val (c : ascii) : option nat :=
  if is_digit c then Some (code c - 48) else None.

(** GetSubstitution: expands the [$] patterns of a replacement template. *)
Fixpoint GetSubstitution (matched_ : text) (str : text) (position : nat)
    (caps : list (option text)) (template : text) : text :=
  let cap (n : nat) : option text :=
    if (1 <=? n) && (n <=? length caps)
    then Some (default [] (default None (caps !! (n - 1))))
    else None in
  match template with
  | [] => []
  | c :: t =>
      if negb (Ascii.eqb c "$") then
        c :: GetSubstitution matched_ str position caps t
      else
        match t with
        | [] => [c]
        | d :: t1 =>
            let go := GetSubstitution matched_ str position caps in
            if Ascii.eqb d "$" then "$"%char :: go t1
            else if Ascii.eqb d "&" then matched_ ++ go t1
            else if Ascii.eqb d "`" then take position str ++ go t1
            else if Ascii.eqb d "'" then
              drop (position + length matched_) str ++ go t1
            else
              match digit_val d with
              | None => c :: go t
              | Some n1 =>
                  let two :=
                    match t1 with
                    | d2 :: t2 =>
                        match digit_val d2 with
                        | Some n2 =>
                            match cap (10 * n1 + n2) with
                            | Some x => Some (x ++ go t2)
                            | None => None
                            end
                        | None => None
                        end
                    | [] => None
                    end in
                  match two with
                  | Some r => r
                  | None =>
                      match cap n1 with
                      | Some x => x ++ go t1
                      | None => c :: go t
                      end
                  end
              end
        end
  end.

(** String.prototype.replace with a string pattern: the first occurrence. *)
Definition string_replace (s pat replacement : text) : text :=
  match indexOf s pat with
  | None => s
  | Some pos =>
      take pos s
        ++ GetSubstitution pat s pos [] replacement
        ++ drop (pos + length pat) s
  end.

(** String.prototype.replaceAll with a string pattern. *)
Fixpoint replaceAll_from (whole pat replacement : text) (pos : nat)
    (rest : text) (skip : nat) : text :=
  match skip with
  | S n =>
      match rest with
      | [] => []
      | _ :: t => replaceAll_from whole pat replacement (S pos) t n
      end
  | 0 =>
      if prefix_b pat rest then
        GetSubstitution pat whole pos [] replacement
          ++ match rest with
             | [] => []
             | c :: t =>
                 match pat with
                 | [] => c :: replaceAll_from whole pat replacement (S pos) t 0
                 | _ :: p =>
                     replaceAll_from whole pat replacement (S pos) t (length p)
                 end
             end
      else
        match rest with
        | [] => []
        | c :: t => c :: replaceAll_from whole pat replacement (S pos) t 0
        end
  end.

Definition string_replaceAll (s pat replacement : text) : text :=
  replaceAll_from s pat replacement 0 s 0.

(** The text between the matches, each match replaced by its substitution. *)
Fixpoint splice (re : regexp) (s : text) (replacement : text)
    (from : nat) (ms : list rmatch_result) : text :=
  match ms with
  | [] => drop from s
  | m :: ms' =>
      slice s from (mr_index m)
        ++ GetSubstitution (matched s m) s (mr_index m) (captures re s m)
             replacement
        ++ splice re s replacement (mr_end m) ms'
  end.

(** String.prototype.replace / replaceAll with a regexp: every match when
    the regexp is global, the first one otherwise. *)
Definition regexp_replace (re : regexp) (s replacement : text) : text :=
  if re_global re then splice re s replacement 0 (scan_all re 0 s 0)
  else match search re 0 s with
       | Some m => splice re s replacement 0 [m]
       | None => s
       end.

(** String.prototype.match with a global regexp, followed by [|| []]. *)
Definition regexp_match_all (re : regexp) (s : text) : list text :=
  map (matched s) (scan_all re 0 s 0).

(** [s.split(/,/)]: the pieces between the commas. *)
Fixpoint split_comma_from (cur : text) (s : text) : list text :=
  match s with
  | [] => [rev cur]
  | c :: t =>
      if Ascii.eqb c ","
      then rev cur :: split_comma_from [] t
      else split_comma_from (c :: cur) t
  end.

Definition split_comma (s : text) : list text := split_comma_from [] s.

(** ** The CSS rule extractor: [parseCSS] (src/embedWebFonts.ts) *)

Definition any_char : regex := Class false [ISpace; INonSpace].  (* [\s\S] *)
Definition space : regex := Class false [ISpace].                 (* \s *)
Definition digit : regex := Class false [IDigit].                 (* \d *)

(** /(\/\*[\s\S]*?\*\/)/gi *)
Definition commentsRegex : regexp :=
  RegExp_ (Group 1 (Cat [Lit "/*"; Star false any_char; Lit "*/"])) true true.

(** /[\r\n]/g *)
Definition newlinesRegex : regexp :=
  RegExp_ (Class false [IChar "013"; IChar "010"]) true false.

(** /\s\s+/gi *)
Definition spacesRegex : regexp :=
  RegExp_ (Cat [space; Plus true space]) true true.

(** /@(-moz-|-webkit-|-ms-)*keyframes\s(\S)+(\s?){(\s?\d%\s?{[-\w:\w+();\s]+}\s?\d+%\s?{[\w:\w();-\s]+)+}}/gi *)
Definition keyframesRegex : regexp :=
  RegExp_
    (Cat [Chr "@";
          Star true (Group 1 (Alt (Lit "-moz-")
                               (Alt (Lit "-webkit-") (Lit "-ms-"))));
          Lit "keyframes";
          space;
          Plus true (Group 2 (Class false [INonSpace]));
          Group 3 (Opt true space);
          Chr "{";
          Plus true (Group 4 (Cat [
            Opt true space; digit; Chr "%"; Opt true space; Chr "{";
            Plus true (Class false [IChar "-"; IWord; IChar ":"; IWord;
                                    IChar "+"; IChar "("; IChar ")";
                                    IChar ";"; ISpace]);
            Chr "}"; Opt true space; Plus true digit; Chr "%";
            Opt true space; Chr "{";
            Plus true (Class false [IWord; IChar ":"; IWord; IChar "(";
                                    IChar ")"; IChar ";"; IChar "-";
                                    ISpace])]));
          Lit "}}"])
    true true.

(** /@import[\s\S]*?url\([^)]*\)[\s\S]*?;/gi *)
Definition importRegex : regexp :=
  RegExp_
    (Cat [Lit "@import"; Star false any_char; Lit "url(";
          Star true (Class true [IChar ")"]); Chr ")";
          Star false any_char; Chr ";"])
    true true.

(** /((\s*?(?:\/\*[\s\S]*?\*\/)?\s*?@media[\s\S]*?){([\s\S]*?)}\s*?})|(([\s\S]*?){([\s\S]*?)})/
    made global and case-insensitive by [new RegExp(combinedCSSRegex, 'gi')]. *)
Definition unifiedRegex : regexp :=
  RegExp_
    (Alt
       (Group 1 (Cat [
          Group 2 (Cat [Star false space;
                        Opt true (Cat [Lit "/*"; Star false any_char; Lit "*/"]);
                        Star false space; Lit "@media"; Star false any_char]);
          Chr "{"; Group 3 (Star false any_char); Chr "}";
          Star false space; Chr "}"]))
       (Group 4 (Cat [Group 5 (Star false any_char); Chr "{";
                      Group 6 (Star false any_char); Chr "}"])))
    true true.

(** Lines 182-195: comments, line breaks, tabs and runs of spaces. *)
Definition normalizeCSS (source : text) : text :=
  let cssText := regexp_replace commentsRegex source [] in
  let cssText := regexp_replace newlinesRegex cssText [] in
  let cssText := string_replaceAll cssText ["009"%char] (js " ") in
  regexp_replace spacesRegex cssText (js " ").

(** Lines 204-210: the first [while (true)] loop.  [None] stands for a loop
    that has not ended within [fuel] iterations. *)
Fixpoint keyframesLoop (fuel : nat) (cssText : text) (lastIndex : nat)
    (result : list text) : option (list text) :=
  match fuel with
  | 0 => None
  | S fuel' =>
      match exec keyframesRegex cssText lastIndex with
      | (None, _) => Some result
      | (Some matches, lastIndex') =>
          keyframesLoop fuel' cssText lastIndex' (result ++ [matched cssText matches])
      end
  end.

(** Lines 220-233: the second loop, with the [lastIndex] of both regexps. *)
Fixpoint unifiedLoop (fuel : nat) (cssText : text)
    (importLast unifiedLast : nat) (result : list text)
    : option (list text) :=
  match fuel with
  | 0 => None
  | S fuel' =>
      match exec importRegex cssText importLast with
      | (Some matches, importLast') =>
          unifiedLoop fuel' cssText importLast' importLast'
            (result ++ [matched cssText matches])
      | (None, importLast') =>
          match exec unifiedRegex cssText unifiedLast with
          | (None, _) => Some result
          | (Some matches, unifiedLast') =>
              unifiedLoop fuel' cssText unifiedLast' unifiedLast'
                (result ++ [matched cssText matches])
          end
      end
  end.

(** [parseCSS]: [None] as argument is [null] or [undefined].  Each loop is
    given one iteration for every position of its text at which a match can
    start, and one more for the [exec] that finds nothing. *)
Definition parseCSS (source : option text) : option (list text) :=
  match source with
  | None => Some []
  | Some source =>
      let cssText := normalizeCSS source in
      match keyframesLoop (2 + length cssText) cssText 0 [] with
      | None => None
      | Some result =>
          let cssText := regexp_replace keyframesRegex cssText [] in
          unifiedLoop (2 + length cssText) cssText 0 0 result
      end
  end.

(** ** Promises *)

(** What a promise is rejected with (or what is thrown). *)
Inductive reason : Type :=
| Undefined                                 (* reject() *)
| Error (name message : string)             (* new Error(..), TypeError, AbortError .. *)
| Event (type : string).                    (* the event handed to reader.onerror *)

Inductive pstate (A : Type) : Type :=
| Pending
| Fulfilled (v : A)
| Rejected (r : reason).
Arguments Pending {A}.
Arguments Fulfilled {A} v.
Arguments Rejected {A} r.

(** [p.then(f)] where [f] returns a promise (or a value wrapped in one). *)
Definition promise_then {A B : Type} (p : pstate A) (f : A -> pstate B)
    : pstate B :=
  match p with
  | Pending => Pending
  | Fulfilled v => f v
  | Rejected r => Rejected r
  end.

(** The body of [new Promise((resolve, reject) => ...)]: it transforms the
    state of the promise and may end by throwing. *)
Definition executor (A : Type) : Type := pstate A -> pstate A * option reason.

Definition resolve_with {A : Type} (v : A) : executor A :=
  fun s => (match s with Pending => Fulfilled v | _ => s end, None).
Definition reject_with {A : Type} (r : reason) : executor A :=
  fun s => (match s with Pending => Rejected r | _ => s end, None).
Definition throw {A : Type} (r : reason) : executor A := fun s => (s, Some r).
Definition skip {A : Type} : executor A := fun s => (s, None).
Definition and_then {A : Type} (a b : executor A) : executor A :=
  fun s => match a s with
           | (s', Some e) => (s', Some e)
           | (s', None) => b s'
           end.

(** [new Promise(executor)]: an exception of the executor rejects the
    promise unless it has been settled before. *)
Definition new_Promise {A : Type} (ex : executor A) : pstate A :=
  match ex Pending with
  | (Pending, Some e) => Rejected e
  | (s, _) => s
  end.

(** [Promise.all]: fulfilled with all the values, rejected as soon as one
    promise is (here: the first rejected one of the list). *)
Fixpoint promise_all {A : Type} (ps : list (pstate A)) : pstate (list A) :=
  match ps with
  | [] => Fulfilled []
  | p :: ps' =>
      match p, promise_all ps' with
      | Rejected r, _ => Rejected r
      | _, Rejected r => Rejected r
      | Fulfilled v, Fulfilled vs => Fulfilled (v :: vs)
      | _, _ => Pending
      end
  end.

(** ** The resource cache: [getBlobFromURL] (src/getBlobFromURL.ts) *)

(** The keys of [Options] this file reads; [None] is an absent key. *)
Record Options : Type := {
  includeQueryParams : option bool;
  cacheBust : option bool;
  imagePlaceholder : option text
}.

Definition truthy_bool (b : option bool) : bool := default false b.
Definition truthy_text (s : option text) : bool :=
  match s with Some (_ :: _) => true | _ => false end.

(** [Metadata]; [blob] is [None] when it is [undefined]. *)
Record Metadata : Type := { blob : option text; contentType : text }.

(** /\?.*/ , /ttf|otf|eot|woff2?/i , /.*\// and /\?/ *)
Definition queryRegex : regexp :=
  RegExp_ (Cat [Chr "?"; Star true Dot]) false false.
Definition fontRegex : regexp :=
  RegExp_ (Alt (Lit "ttf") (Alt (Lit "otf") (Alt (Lit "eot")
             (Cat [Lit "woff"; Opt true (Chr "2")])))) false true.
Definition dirRegex : regexp :=
  RegExp_ (Cat [Star true Dot; Chr "/"]) false false.
Definition questionRegex : regexp := RegExp_ (Chr "?") false false.

Definition getCacheKey (url : text) (includeQueryParams : bool) : text :=
  let key :=
    if includeQueryParams then url else regexp_replace queryRegex url [] in
  (* font resourse *)
  if test fontRegex key then regexp_replace dirRegex key [] else key.

(** util.ts: [dataURL.split(/,/)[1]] *)
Definition parseDataUrlContent (dataURL : text) : option text :=
  split_comma dataURL !! 1.

(** The closure [failed]; what it writes to the console is left out. *)
Definition failed (options : Options) (r : reason) : Metadata :=
  let placeholder :=
    if truthy_text (imagePlaceholder options) then
      let parts := split_comma (default [] (imagePlaceholder options)) in
      if truthy_text (parts !! 1) then default [] (parts !! 1) else []
    else [] in
  {| blob := Some placeholder; contentType := [] |}.

(** How the chain behind [fetchWithTimeout] ends. *)
Inductive fetch_outcome : Type :=
| FetchRejected (r : reason)    (* network error, or abort after the timeout *)
| BlobRejected (r : reason)     (* res.blob() rejects *)
| ReaderFailed (r : reason)     (* reader.onerror *)
| ReaderLoaded (header : option text) (result : option text).
                                (* the Content-Type header and reader.result *)

(** The value [deferred] is fulfilled with: the chain of [then]s ending in
    [.catch(failed)]. *)
Definition deferred_value (options : Options) (o : fetch_outcome) : Metadata :=
  match o with
  | FetchRejected r | BlobRejected r | ReaderFailed r => failed options r
  | ReaderLoaded header result =>
      let contentType :=
        if truthy_text header then default [] header else [] in
      match result with
      | None =>
          failed options
            (Error "TypeError" "Cannot read properties of null (reading 'split')")
      | Some dataURL =>
          {| blob := parseDataUrlContent dataURL; contentType := contentType |}
      end
  end.

(** A request handed to [fetchWithTimeout], with the promise [deferred]
    built on it and the options its [failed] closure has captured. *)
Record request : Type := {
  req_url : text;
  req_promise : nat;
  req_options : Options
}.

(** The module state: the [cache] object (keys to promises), the promises
    (by identity), the requests issued so far and the clock. *)
Record world : Type := World {
  cache : gmap text nat;
  promises : gmap nat (pstate Metadata);
  requests : list request;
  now : N
}.

Definition decimal (n : N) : text := js (NilEmpty.string_of_uint (N.to_uint n)).

Definition getBlobFromURL (url : text) (options : Options) (w : world)
    : nat * world :=
  let cacheKey := getCacheKey url (truthy_bool (includeQueryParams options)) in
  match cache w !! cacheKey with
  | Some p => (p, w)
  | None =>
      let url :=
        if truthy_bool (cacheBust options)
        then url ++ (if test questionRegex url then js "&" else js "?")
                 ++ decimal (now w)
        else url in
      let deferred := fresh (dom (promises w)) in
      (deferred,
       {| cache := <[cacheKey := deferred]> (cache w);
          promises := <[deferred := Pending]> (promises w);
          requests := requests w
                        ++ [{| req_url := url; req_promise := deferred;
                               req_options := options |}];
          now := now w |})
  end.

(** What happens to the module after it is loaded: calls of
    [getBlobFromURL], the chain of a request coming to its end, and time
    passing. *)
Inductive cache_event : Type :=
| Call (url : text) (options : Options)
| Settle (p : nat) (o : fetch_outcome)
| Tick (t : N).

Definition request_of (p : nat) (w : world) : option request :=
  List.find (fun r => req_promise r =? p) (requests w).

(** The chain behind promise [p] ends with [o]; a promise settles once. *)
Definition settle (p : nat) (o : fetch_outcome) (w : world) : world :=
  match promises w !! p, request_of p w with
  | Some Pending, Some r =>
      {| cache := cache w;
         promises :=
           <[p := Fulfilled (deferred_value (req_options r) o)]> (promises w);
         requests := requests w;
         now := now w |}
  | _, _ => w
  end.

(** What a caller of [getBlobFromURL] can observe: the key of its URL, the
    promise it got and the number of requests its call has issued. *)
Record call_obs : Type := {
  ob_key : text;
  ob_promise : nat;
  ob_issued : nat
}.

Fixpoint run (evs : list cache_event) (w : world) : world * list call_obs :=
  match evs with
  | [] => (w, [])
  | Call url options :: evs' =>
      let '(p, w1) := getBlobFromURL url options w in
      let ob :=
        {| ob_key := getCacheKey url (truthy_bool (includeQueryParams options));
           ob_promise := p;
           ob_issued := length (requests w1) - length (requests w) |} in
      let '(w2, obs) := run evs' w1 in
      (w2, ob :: obs)
  | Settle p o :: evs' => run evs' (settle p o w)
  | Tick t :: evs' =>
      run evs' {| cache := cache w; promises := promises w;
                  requests := requests w; now := t |}
  end.

(** The outcomes that count as a failed fetch. *)
Definition is_failure (o : fetch_outcome) : bool :=
  match o with
  | ReaderLoaded _ (Some _) => false
  | _ => true
  end.

(** ** The style-sheet fetch cache: [fetchCSS] (src/embedWebFonts.ts) *)

(** [Metadata] of embedWebFonts.ts; [cssText] is the state its promise
    ends in ([Pending]: it never settles). *)
Record CssMetadata : Type := { css_url : text; cssText : pstate text }.

Record css_world : Type := CssWorld {
  cssFetchCache : gmap text nat;
  css_promises : gmap nat (pstate CssMetadata);
  css_requests : list (text * nat)     (* window.fetch(url) and its promise *)
}.

Definition fetchCSS (url : text) (w : css_world) : nat * css_world :=
  match cssFetchCache w !! url with
  | Some cache => (cache, w)
  | None =>
      let deferred := fresh (dom (css_promises w)) in
      (deferred,
       {| cssFetchCache := <[url := deferred]> (cssFetchCache w);
          css_promises := <[deferred := Pending]> (css_promises w);
          css_requests := css_requests w ++ [(url, deferred)] |})
  end.

(** [window.fetch(url)] is fulfilled with a response, whose body is then
    read as text, or is rejected. *)
Inductive css_outcome : Type :=
| CssResponse (body : pstate text)
| CssRejected (r : reason).

Inductive css_event : Type :=
| CssCall (url : text)
| CssSettle (p : nat) (o : css_outcome).

Definition css_settle (p : nat) (o : css_outcome) (w : css_world)
    : css_world :=
  match css_promises w !! p,
        List.find (fun r => snd r =? p) (css_requests w) with
  | Some Pending, Some (url, _) =>
      {| cssFetchCache := cssFetchCache w;
         css_promises :=
           <[p := match o with
                  | CssResponse body =>
                      Fulfilled {| css_url := url; cssText := body |}
                  | CssRejected r => Rejected r
                  end]> (css_promises w);
         css_requests := css_requests w |}
  | _, _ => w
  end.

Fixpoint css_run (evs : list css_event) (w : css_world) : css_world :=
  match evs with
  | [] => w
  | CssCall url :: evs' => css_run evs' (snd (fetchCSS url w))
  | CssSettle p o :: evs' => css_run evs' (css_settle p o w)
  end.

(** ** The URL resolver: [resolveUrl] (src/util.ts) *)

(** /^[a-z]+:\/\//i , /^\/\// and /^[a-z]+:/i *)
Definition absoluteRegex : regexp :=
  RegExp_ (Cat [Bol; Plus true (Class false [IRange "a" "z"]); Lit "://"])
    false true.
Definition protocolRelativeRegex : regexp :=
  RegExp_ (Cat [Bol; Lit "//"]) false false.
Definition schemeRegex : regexp :=
  RegExp_ (Cat [Bol; Plus true (Class false [IRange "a" "z"]); Chr ":"])
    false true.

(** The part of the DOM [resolveUrl] touches: documents with the [base]
    and [a] elements of their head and body, and the [href] attribute of
    each element. *)
Inductive element : Type :=
| BaseElement (href : option text)
| AnchorElement (href : option text).

Record html_document : Type := {
  doc_head : list element;
  doc_body : list element
}.

Record Window : Type := { location_protocol : text }.

Definition set_href (v : text) (e : element) : element :=
  match e with
  | BaseElement _ => BaseElement (Some v)
  | AnchorElement _ => AnchorElement (Some v)
  end.

Definition base_href (d : html_document) : option text :=
  match doc_head d with
  | BaseElement h :: _ => h
  | _ => None
  end.

Section Host.

(** The host's URL machinery: [anchor_href base url] is the [href] an [a]
    element with attribute [url] reports in a blank document whose [base]
    element has attribute [base]; [URL_href url base] is
    [new URL(url, base).href], [None] when the constructor throws. *)
Variable anchor_href : option text -> text -> text.
Variable URL_href : text -> text -> option text.

(** [resolveUrl url baseUrl document window] in the DOM [docs]: the result
    and the DOM afterwards.  [document] is only asked for a new document. *)
Definition resolveUrl (url : text) (baseUrl : option text)
    (document : nat) (window : Window) (docs : gmap nat html_document)
    : text * gmap nat html_document :=
  (* url is absolute already *)
  if test absoluteRegex url then (url, docs)
  (* url is absolute already, without protocol *)
  else if test protocolRelativeRegex url
  then (location_protocol window ++ url, docs)
  (* dataURI, mailto:, tel:, etc. *)
  else if test schemeRegex url then (url, docs)
  else
    let doc := fresh (dom docs) in
    let base := BaseElement None in
    let a := AnchorElement None in
    let d := {| doc_head := [base]; doc_body := [a] |} in
    let d :=
      if truthy_text baseUrl
      then {| doc_head := set_href (default [] baseUrl) <$> doc_head d;
              doc_body := doc_body d |}
      else d in
    let d := {| doc_head := doc_head d;
                doc_body := set_href url <$> doc_body d |} in
    (anchor_href (base_href d) url, <[doc := d]> docs).

(** ** The font embedding orchestrator: [embedFonts] (src/embedWebFonts.ts) *)

(** /url\([Q']?([^Q')]+)[Q']?\)/g, where Q stands for the double quote
    (character 34), and /url\([^)]+\)/g *)
Definition regexUrl : regexp :=
  RegExp_
    (Cat [Lit "url("; Opt true (Class false [IChar "034"; IChar "'"]);
          Group 1 (Plus true (Class true [IChar "034"; IChar "'"; IChar ")"]));
          Opt true (Class false [IChar "034"; IChar "'"]); Chr ")"])
    true false.
Definition fontLocRegex : regexp :=
  RegExp_ (Cat [Lit "url("; Plus true (Class true [IChar ")"]); Chr ")"])
    true false.

(** One element of [loadFonts]: the matched text, its index and the URL
    its fetch is issued for. *)
Record font_task : Type := {
  ft_loc : text;
  ft_index : nat;
  ft_urlToFetch : text
}.

(** Lines 112-125, the synchronous part of the [map] callback, element by
    element; [None] when [new URL] throws. *)
Fixpoint loadFonts (meta_url : text) (document : nat) (window : Window)
    (fontLocs : list text) (index : nat) (docs : gmap nat html_document)
    : option (list font_task * gmap nat html_document) :=
  match fontLocs with
  | [] => Some ([], docs)
  | loc :: fontLocs' =>
      let url := regexp_replace regexUrl loc (js "$1") in
      let '(urlToFetch, docs) :=
        resolveUrl url (Some meta_url) document window docs in
      let urlToFetch :=
        if negb (startsWith urlToFetch (js "https://"))
        then URL_href urlToFetch meta_url
        else Some urlToFetch in
      match urlToFetch with
      | None => None
      | Some urlToFetch =>
          match loadFonts meta_url document window fontLocs' (S index) docs with
          | None => None
          | Some (tasks, docs) =>
              Some ({| ft_loc := loc; ft_index := index;
                       ft_urlToFetch := urlToFetch |} :: tasks, docs)
          end
      end
  end.

(** What the network and the file readers deliver to task [i]. *)
Inductive font_event : Type :=
| FetchFailed (i : nat)          (* fetch or res.blob() rejects; caught *)
| ReaderError (i : nat)          (* reader.onerror: reject(); caught *)
| ReaderLoadEnd (i : nat) (result : option text).
                                 (* reader.onloadend with reader.result *)

(** The variable [cssText] shared by the tasks, the tasks whose promise is
    settled, and the text the race has returned, once it has. *)
Record font_state : Type := {
  fs_cssText : text;
  fs_settled : gset nat;
  fs_returned : option text
}.

(** The delay of [timeoutPromise], in milliseconds. *)
Definition raceTimeout : N := 5000.

(** The race is settled: [cssText] is read and returned, once. *)
Definition race_settled (st : font_state) : font_state :=
  {| fs_cssText := fs_cssText st;
     fs_settled := fs_settled st;
     fs_returned := Some (default (fs_cssText st) (fs_returned st)) |}.

(** The promise of task [i] settles; [Promise.all] wins the race when it
    was the last one. *)
Definition task_settled (n i : nat) (st : font_state) : font_state :=
  let st := {| fs_cssText := fs_cssText st;
               fs_settled := {[i]} ∪ fs_settled st;
               fs_returned := fs_returned st |} in
  if forallb (fun j => bool_decide (j ∈ fs_settled st)) (seq 0 n)
  then race_settled st else st.

(** `url(${reader.result})` *)
Definition url_of_result (result : option text) : text :=
  js "url(" ++ default (js "null") result ++ js ")".

Definition font_step (tasks : list font_task) (st : font_state)
    (ev : font_event) : font_state :=
  match ev with
  | FetchFailed i | ReaderError i => task_settled (length tasks) i st
  | ReaderLoadEnd i result =>
      match tasks !! i with
      | None => st
      | Some t =>
          (* Side Effect *)
          task_settled (length tasks) i
            {| fs_cssText :=
                 string_replace (fs_cssText st) (ft_loc t) (url_of_result result);
               fs_settled := fs_settled st;
               fs_returned := fs_returned st |}
      end
  end.

(** The events in the order they are handled, each with the time (in ms
    after the race has started) at which it is; the timer fires before the
    first event that is not earlier than [raceTimeout], and at the latest
    when nothing else is left to happen. *)
Fixpoint font_run (tasks : list font_task) (evs : list (N * font_event))
    (st : font_state) : font_state :=
  match evs with
  | [] => race_settled st
  | (t, ev) :: evs' =>
      let st := if (raceTimeout <=? t)%N then race_settled st else st in
      font_run tasks evs' (font_step tasks st ev)
  end.

Definition font_init (raw : text) (tasks : list font_task) : font_state :=
  let st := {| fs_cssText := raw; fs_settled := ∅; fs_returned := None |} in
  if forallb (fun j => bool_decide (j ∈ fs_settled st)) (seq 0 (length tasks))
  then race_settled st else st.

(** [embedFonts meta document window], given the DOM and what is delivered
    to the tasks afterwards: the state of the promise it returns. *)
Definition embedFonts (meta : CssMetadata) (document : nat) (window : Window)
    (docs : gmap nat html_document) (evs : list (N * font_event))
    : pstate text :=
  promise_then (cssText meta) (fun raw =>
    let fontLocs := regexp_match_all fontLocRegex raw in
    match loadFonts (css_url meta) document window fontLocs 0 docs with
    | None => Rejected (Error "TypeError" "Invalid URL")
    | Some (loadFonts, _) =>
        match fs_returned (font_run loadFonts evs (font_init raw loadFonts)) with
        | Some cssText => Fulfilled cssText
        | None => Pending
        end
    end).

End Host.

(** ** Harvesting the font rules: [parseWebFontRules], [getWebFontCSS] *)

Record CSSRule : Type := {
  rule_type : nat;
  rule_src : text;                       (* style.getPropertyValue('src') *)
  rule_cssText : text;
  rule_parentStyleSheet : option (option text)   (* its href *)
}.

Definition FONT_FACE_RULE : nat := 5.

Section WebFonts.

Variable CSSStyleSheet : Type.

(** A node and the document that owns it, if any. *)
Record Node : Type := { ownerDocument : option (list CSSStyleSheet) }.

(** [getCSSRules] is a parameter here: the state its promise ends in, for
    each list of style sheets.  [shouldEmbed] and [embedResources] come
    from embedResources.ts. *)
Variable getCSSRules : list CSSStyleSheet -> pstate (list CSSRule).
Variable shouldEmbed : text -> bool.
Variable embedResources : text -> option text -> Options -> pstate text.

Definition getWebFontRules (cssRules : list CSSRule) : list CSSRule :=
  List.filter (fun rule => shouldEmbed (rule_src rule))
    (List.filter (fun rule => rule_type rule =? FONT_FACE_RULE) cssRules).

Definition parseWebFontRules (node : Node) : pstate (list CSSRule) :=
  promise_then
    (promise_then
       (new_Promise
          (and_then
             (if ownerDocument node is None
              then reject_with
                     (Error "Error" "Provided element is not within a Document")
              else skip)
             (match ownerDocument node with
              | None =>
                  throw (Error "TypeError"
                           "Cannot read properties of null (reading 'styleSheets')")
              | Some styleSheets => resolve_with styleSheets
              end)))
       (fun styleSheets => getCSSRules styleSheets))
    (fun rules => Fulfilled (getWebFontRules rules)).

Definition join_lines (l : list text) : text :=
  match l with
  | [] => []
  | x :: l' => x ++ concat (map (fun y => "010"%char :: y) l')
  end.

Definition getWebFontCSS (node : Node) (options : Options) : pstate text :=
  promise_then
    (promise_then (parseWebFontRules node)
       (fun rules =>
          promise_all
            (map (fun rule =>
                    let baseUrl :=
                      match rule_parentStyleSheet rule with
                      | Some href => href
                      | None => None
                      end in
                    embedResources (rule_cssText rule) baseUrl options)
               rules)))
    (fun cssTexts => Fulfilled (join_lines cssTexts)).

End WebFonts.

(** ** Extensions, MIME types and data URLs (src/util.ts) *)

(** [$] without the [m] flag: nothing is left of the text. *)
Definition at_end (y : mstate) : option mstate :=
  match m_rest y with
  | [] => Some y
  | _ :: _ => None
  end.

(** A regexp whose pattern is [re_source re] followed by [$]: the assertion
    is the continuation the pattern is run with. *)
Definition match_here_end (re : regexp) (pos : nat) (rest : text)
    : option rmatch_result :=
  match rmatch (re_ignoreCase re) (re_source re) (MState pos rest []) at_end with
  | Some y => Some (MatchResult pos (m_pos y) (m_caps y))
  | None => None
  end.

Fixpoint search_end (re : regexp) (pos : nat) (rest : text)
    : option rmatch_result :=
  match match_here_end re pos rest with
  | Some m => Some m
  | None =>
      match rest with
      | [] => None
      | _ :: t => search_end re (S pos) t
      end
  end.

(** /\.([^./]*?)$/g, the final [$] left to [search_end] *)
Definition extensionRegex : regexp :=
  RegExp_ (Cat [Chr "."; Group 1 (Star false (Class true [IChar "."; IChar "/"]))])
    true false.

(** The regexp is a fresh object at each call: [exec] starts at 0. *)
Definition getExtension (url : text) : text :=
  match search_end extensionRegex 0 url with
  | Some match_ => default [] (capture url match_ 1)
  | None => []
  end.

(** String.prototype.toLowerCase on code units below 256. *)
Definition toLowerCase_unit (c : ascii) : ascii :=
  if is_upper c || (in_range 192 222 c && negb (code c =? 215))
  then ascii_of_nat (code c + 32) else c.

Definition toLowerCase (s : text) : text := map toLowerCase_unit s.

Definition WOFF : text := js "application/font-woff".
Definition JPEG : text := js "image/jpeg".

(** The own properties of the object [mimes]. *)
Definition mimes : list (text * text) :=
  [ (js "woff", WOFF);
    (js "woff2", WOFF);
    (js "ttf", js "application/font-truetype");
    (js "eot", js "application/vnd.ms-fontobject");
    (js "png", js "image/png");
    (js "jpg", JPEG);
    (js "jpeg", JPEG);
    (js "gif", js "image/gif");
    (js "tiff", js "image/tiff");
    (js "svg", js "image/svg+xml") ].

(** The properties an object literal inherits from [Object.prototype]. *)
Definition Object_prototype : list text :=
  [ js "constructor"; js "__proto__"; js "hasOwnProperty";
    js "isPrototypeOf"; js "propertyIsEnumerable"; js "toLocaleString";
    js "toString"; js "valueOf"; js "__defineGetter__";
    js "__defineSetter__"; js "__lookupGetter__"; js "__lookupSetter__" ].

(** What [object[key]] evaluates to for an object literal with string
    values: an own property, a member of [Object.prototype] (a function, or
    the prototype itself), or [undefined]. *)
Inductive member : Type :=
| OwnString (v : text)
| Inherited (name : text)
| NoMember.

Definition get_member (own : list (text * text)) (key : text) : member :=
  match List.find (fun kv => bool_decide (fst kv = key)) own with
  | Some kv => OwnString (snd kv)
  | None =>
      if bool_decide (key ∈ Object_prototype) then Inherited key else NoMember
  end.

(** [mimes[extension] || '']: an inherited member is truthy and is what is
    returned then. *)
Definition getMimeType (url : text) : member :=
  let extension := toLowerCase (getExtension url) in
  match get_member mimes extension with
  | OwnString [] | NoMember => OwnString []
  | m => m
  end.

(** /^(data:)/ *)
Definition dataRegex : regexp :=
  RegExp_ (Cat [Bol; Group 1 (Lit "data:")]) false false.

(** String.prototype.search: the index of the first match, or -1. *)
Definition string_search (s : text) (re : regexp) : Z :=
  match search re 0 s with
  | Some m => Z.of_nat (mr_index m)
  | None => (-1)%Z
  end.

Definition isDataUrl (url : text) : bool :=
  negb (string_search url dataRegex =? -1)%Z.

Definition makeDataUrl (content mimeType : text) : text :=
  js "data:" ++ mimeType ++ js ";base64," ++ content.

(** ** Class names for pseudo elements: [uuid] (src/util.ts) *)

Definition digit36 (d : N) : ascii :=
  if (d <? 10)%N then ascii_of_N (48 + d) else ascii_of_N (87 + d).

(** The digits of [n] in base 36 in front of [acc]; [fuel] bounds their
    number. *)
Fixpoint digits36 (fuel : nat) (n : N) (acc : text) : text :=
  match fuel with
  | 0 => acc
  | S f =>
      let acc := digit36 (n mod 36) :: acc in
      if (n / 36 =? 0)%N then acc else digits36 f (n / 36) acc
  end.

(** Number.prototype.toString(36) of an integer; a number of [b] bits has
    at most [b] digits. *)
Definition toString36 (n : Z) : text :=
  (if (n <? 0)%Z then js "-" else [])
    ++ digits36 (S (N.to_nat (N.log2 (Z.abs_N n)))) (Z.abs_N n) [].

(** [s.slice(-k)] *)
Definition slice_last (k : nat) (s : text) : text := drop (length s - k) s.

(** The closure [random]; [n] is the 32-bit integer
    [(Math.random() * 36 ** 4) << 0]. *)
Definition random (n : Z) : text := slice_last 4 (js "0000" ++ toString36 n).

(** [counter += 1] on a double: the integers up to 2^53 are exact, and
    2^53 + 1 is rounded back to 2^53. *)
Definition increment (counter : N) : N :=
  if (counter <? 2 ^ 53)%N then (counter + 1)%N else counter.

(** One call of [uuid]: the class name and the counter afterwards. *)
Definition uuid (n : Z) (counter : N) : text * N :=
  let counter := increment counter in
  (js "u" ++ random n ++ decimal counter, counter).

(** ** SVG data URLs: [svgToDataURL] (src/util.ts) *)






Section Serializer.

(** [new XMLSerializer().serializeToString(svg)]: the markup, or what it
    throws. *)
Variable SVGElement : Type.
Variable serializeToString : SVGElement -> text + reason.


End Serializer.

(** ** Pseudo elements (src/clonePseudoElements.ts) *)



(** A style declaration: its [cssText] and its properties in the order of
    their indices, each with its value and its priority. *)
Record CSSStyleDeclaration : Type := {
  style_cssText : text;
  style_properties : list (text * (text * text))
}.

Definition getProperty (style : CSSStyleDeclaration) (name : text)
    : option (text * text) :=
  match List.find (fun p => bool_decide (fst p = name)) (style_properties style) with
  | Some p => Some (snd p)
  | None => None
  end.

(** The empty text for a property that is not set. *)
Definition getPropertyValue (style : CSSStyleDeclaration) (name : text) : text :=
  match getProperty style name with Some p => fst p | None => [] end.


(** /'|Q/g, where Q stands for the double quote *)
Definition quotesRegex : regexp :=
  RegExp_ (Alt (Chr "'") (Chr "034")) true false.

Definition formatCSSText (style : CSSStyleDeclaration) : text :=
  let content := getPropertyValue style (js "content") in
  style_cssText style ++ js " content: '"
    ++ regexp_replace quotesRegex content [] ++ js "';".




(** A child of the cloned node: one it had, or a [style] element with the
    text of its text node. *)
Inductive child : Type :=
| ChildNode (id : nat)
| StyleElement (text_ : text).




(** ** The entry point: [embedWebFonts] (src/embedWebFonts.ts) *)

Section EmbedWebFonts.

Variable CSSStyleSheet : Type.
Variable getCSSRules : list CSSStyleSheet -> pstate (list CSSRule).
Variable shouldEmbed : text -> bool.
Variable embedResources : text -> option text -> Options -> pstate text.

(** [clonedNode] is given by the document that owns it and by its
    children, [fontEmbedCSS] is [options.fontEmbedCSS]; the promise is
    fulfilled with the node, here with its children. *)
Definition embedWebFonts (clonedNode : Node CSSStyleSheet)
    (children : list child) (fontEmbedCSS : option text) (options : Options)
    : pstate (list child) :=
  promise_then
    (match fontEmbedCSS with
     | Some css => Fulfilled css
     | None =>
         getWebFontCSS CSSStyleSheet getCSSRules shouldEmbed embedResources
           clonedNode options
     end)
    (fun cssText =>
       let styleNode := StyleElement cssText in
       Fulfilled
         match children with
         | firstChild :: _ => styleNode :: children   (* insertBefore *)
         | [] => children ++ [styleNode]               (* appendChild *)
         end).

End EmbedWebFonts.

(** * Vocabulary of the statements *)

(** ** Data URLs *)

(** The text before the first comma, and the text after it if there is
    one. *)
Fixpoint upto_comma (s : text) : text :=
  match s with
  | [] => []
  | c :: t => if Ascii.eqb c "," then [] else c :: upto_comma t
  end.

Fixpoint after_first_comma (s : text) : option text :=
  match s with
  | [] => None
  | c :: t => if Ascii.eqb c "," then Some t else after_first_comma t
  end.

(** The payload portion of a data URL as the claim words it: all the text
    after the first comma. *)
Definition payload_after_comma (s : option text) : text :=
  default [] (after_first_comma (default [] s)).

(** The payload portion as the code takes it: the text between the first
    comma and the next one. *)
Definition payload_segment (s : option text) : text :=
  match after_first_comma (default [] s) with
  | Some t => upto_comma t
  | None => []
  end.

(** ** Promises and the harvest of font rules *)

Definition not_in_document : reason :=
  Error "Error" "Provided element is not within a Document".

(** ** The resource cache *)

Definition cache_key (url : text) (options : Options) : text :=
  getCacheKey url (truthy_bool (includeQueryParams options)).

(** The URL the request is issued for. *)
Definition request_url (url : text) (options : Options) (t : N) : text :=
  if truthy_bool (cacheBust options)
  then url ++ (if test questionRegex url then js "&" else js "?") ++ decimal t
  else url.

(** The requests issued by the calls for key [k]. *)
Definition issued_for (k : text) (obs : list call_obs) : nat :=
  foldr (fun ob n => if decide (ob_key ob = k) then ob_issued ob + n else n)
    0 obs.

(** Every request issued so far belongs to a promise of the store; the
    worlds reached from the empty one are of this kind. *)
Definition world_ok (w : world) : Prop :=
  Forall (fun r => req_promise r ∈ dom (promises w)) (requests w).

(** The module as it is loaded, by the own properties of [cache]: nothing
    cached, nothing requested.  What the cache object inherits from
    [Object.prototype] is not part of a [world]. *)
Definition empty_world : world := World ∅ ∅ [] 0.

(** ** The matcher *)

Section StarLoop.

Variables (ic g : bool) (a : regex) (k : mstate -> option mstate).

(** The loop of [Star] under a name. *)
Fixpoint star_loop (fuel : nat) (x : mstate) {struct fuel} : option mstate :=
  match fuel with
  | 0 => None
  | S f =>
      let again :=
        rmatch ic a x
          (fun y => if m_pos y =? m_pos x then None else star_loop f y) in
      if g then or_else again (k x) else or_else (k x) again
  end.

End StarLoop.

(** The least number of characters a pattern consumes. *)
Fixpoint minlen (r : regex) : nat :=
  match r with
  | Eps | Bol => 0
  | Chr _ | Dot | Class _ _ => 1
  | Seq a b => minlen a + minlen b
  | Alt a b => Nat.min (minlen a) (minlen b)
  | Star _ _ => 0
  | Group _ a => minlen a
  end.

(** [z] is reached from [x] by consuming at least [d] characters. *)
Definition reaches (d : nat) (x z : mstate) : Prop :=
  m_pos x + d <= m_pos z
  /\ m_rest z = drop (m_pos z - m_pos x) (m_rest x).

(** ** The CSS rule extractor *)

(** Spans [(start, end)] of a text that follow one another from [from] on,
    none of them empty. *)
Fixpoint ordered_spans (from : nat) (l : list (nat * nat)) : Prop :=
  match l with
  | [] => True
  | sp :: l' => from <= fst sp /\ fst sp < snd sp /\ ordered_spans (snd sp) l'
  end.

Definition span_text (s : text) (sp : nat * nat) : text :=
  slice s (fst sp) (snd sp).

(** The regexp matches the text at [fst sp], up to [snd sp]. *)
Definition matched_by (re : regexp) (s : text) (sp : nat * nat) : Prop :=
  exists caps,
    match_here re (fst sp) (drop (fst sp) s)
    = Some (MatchResult (fst sp) (snd sp) caps).

(** No match of [re] starts at a position from [from] on and before
    [upto]. *)
Definition no_match (re : regexp) (s : text) (from upto : nat) : Prop :=
  forall i, from <= i < upto -> match_here re i (drop i s) = None.

(** No match of [re] starts at [from] or later, the end of the text
    included. *)
Definition no_match_from (re : regexp) (s : text) (from : nat) : Prop :=
  no_match re s from (S (length s)).

(** [sp] is the first match of [re] at or after [from]: it is a match, not
    empty and within the text, and no match starts between [from] and its
    start. *)
Definition first_match (re : regexp) (s : text) (from : nat)
    (sp : nat * nat) : Prop :=
  from <= fst sp /\ fst sp < snd sp /\ snd sp <= length s
  /\ matched_by re s sp /\ no_match re s from (fst sp).

(** All the matches of [re] from [from] on: each is the first match at or
    after the end of the one before, and after the last there is none. *)
Fixpoint successive_matches (re : regexp) (s : text) (from : nat)
    (spans : list (nat * nat)) : Prop :=
  match spans with
  | [] => no_match_from re s from
  | sp :: l => first_match re s from sp /\ successive_matches re s (snd sp) l
  end.

(** The spans of the second loop from [cursor] on: each is the first
    @import statement at or after the end of the one before when there is
    one, whatever stands in front of it, and the first general block
    otherwise; after the last neither pattern matches. *)
Fixpoint imports_first (s : text) (cursor : nat) (spans : list (nat * nat))
    : Prop :=
  match spans with
  | [] => no_match_from importRegex s cursor
          /\ no_match_from unifiedRegex s cursor
  | sp :: l =>
      (first_match importRegex s cursor sp
       \/ (no_match_from importRegex s cursor
           /\ first_match unifiedRegex s cursor sp))
      /\ imports_first s (snd sp) l
  end.

(** The text from [from] on with the spans cut out. *)
Fixpoint cut_spans (s : text) (from : nat) (spans : list (nat * nat)) : text :=
  match spans with
  | [] => drop from s
  | sp :: l => slice s from (fst sp) ++ cut_spans s (snd sp) l
  end.

(** The span of a match. *)
Definition span_of (m : rmatch_result) : nat * nat := (mr_index m, mr_end m).

(** The matcher keeps to the text: position and rest add up to its
    length. *)
Definition within (x z : mstate) : Prop :=
  m_pos z + length (m_rest z) = m_pos x + length (m_rest x).

(** ** Greedy runs over one kind of character *)

(** [Star true a] where [a] matches one character satisfying [ok]: the
    longest run first, then shorter ones. *)
Fixpoint greedy_run (ok : ascii -> bool) (k : mstate -> option mstate)
    (pos : nat) (rest : text) (caps : list (nat * (nat * nat)))
    : option mstate :=
  match rest with
  | c :: t =>
      if ok c
      then or_else (greedy_run ok k (S pos) t caps) (k (MState pos rest caps))
      else k (MState pos rest caps)
  | [] => k (MState pos [] caps)
  end.

(** The length of the longest prefix whose characters satisfy [ok]. *)
Fixpoint run_length (ok : ascii -> bool) (s : text) : nat :=
  match s with
  | c :: t => if ok c then S (run_length ok t) else 0
  | [] => 0
  end.

(** A literal text, matched character by character. *)
Fixpoint lit_prefix (ic : bool) (p s : text) : bool :=
  match p, s with
  | [], _ => true
  | _ :: _, [] => false
  | a :: p', b :: s' => citem_match ic (IChar a) b && lit_prefix ic p' s'
  end.

(** ** Cache keys *)

(** The text before the first [c] (all of it when there is none), and
    the text after the last [c] (all of it when there is none). *)
Fixpoint upto_char (c : ascii) (s : text) : text :=
  match s with
  | [] => []
  | d :: t => if Ascii.eqb c d then [] else d :: upto_char c t
  end.

Fixpoint has_char (c : ascii) (s : text) : bool :=
  match s with
  | [] => false
  | d :: t => Ascii.eqb c d || has_char c t
  end.

Fixpoint after_last (c : ascii) (s : text) : text :=
  match s with
  | [] => []
  | d :: t =>
      if has_char c t then after_last c t
      else if Ascii.eqb c d then t else d :: t
  end.

Definition no_line_terminator (s : text) : Prop :=
  Forall (fun c => is_line_terminator c = false) s.

(** Equality of characters up to the case of ASCII letters. *)
Definition eq_ci (a b : ascii) : bool := Ascii.eqb (to_lower a) (to_lower b).

Fixpoint prefix_ci (p s : text) : bool :=
  match p, s with
  | [], _ => true
  | _ :: _, [] => false
  | a :: p', b :: s' => eq_ci a b && prefix_ci p' s'
  end.

(** [p] occurs somewhere in [s], and [s] ends with [p], in any case. *)
Fixpoint contains_ci (p s : text) : bool :=
  prefix_ci p s
  || match s with
     | [] => false
     | _ :: t => contains_ci p t
     end.

Fixpoint ends_with_ci (p s : text) : bool :=
  (length p =? length s) && prefix_ci p s
  || match s with
     | [] => false
     | _ :: t => ends_with_ci p t
     end.

(** What the font test of [getCacheKey] looks for, and a font-like
    extension as the specification lists them. *)
Definition has_font_token (s : text) : bool :=
  contains_ci (js "ttf") s || contains_ci (js "otf") s
  || contains_ci (js "eot") s || contains_ci (js "woff") s.

Definition has_font_extension (s : text) : bool :=
  existsb (fun ext => ends_with_ci (js "." ++ ext) s)
    [js "ttf"; js "otf"; js "eot"; js "woff"; js "woff2"].

Definition dot_ok (c : ascii) : bool := negb (is_line_terminator c).

Definition some_b {A : Type} (o : option A) : bool :=
  match o with Some _ => true | None => false end.

(** Under the [i] flag a lower-case letter of the pattern matches the
    characters equal to it up to case. *)
Definition ci_regular (a : ascii) : Prop :=
  forall b, citem_match true (IChar a) b = eq_ci a b.

(** One of the four font tokens starts here. *)
Definition font_here (s : text) : bool :=
  prefix_ci (js "ttf") s || prefix_ci (js "otf") s
  || prefix_ci (js "eot") s || prefix_ci (js "woff") s.

(** [f] holds of the text or of one of its suffixes. *)
Fixpoint anywhere (f : text -> bool) (s : text) : bool :=
  f s
  || match s with
     | [] => false
     | _ :: t => anywhere f t
     end.

Definition slash_next (y : mstate) : option mstate :=
  rmatch false (Chr "/") y Some.

(** ** The URL resolver *)

(** What follows the letters a URL starts with, when it starts with one. *)
Definition after_scheme (s : text) : option text :=
  if run_length is_letter s =? 0 then None
  else Some (drop (run_length is_letter s) s).

(** [scheme://...], [//host/path] and [scheme:...], a scheme being one or
    more ASCII letters. *)
Definition is_scheme_absolute (s : text) : bool :=
  match after_scheme s with
  | Some r => prefix_b (js "://") r
  | None => false
  end.

Definition is_protocol_relative (s : text) : bool := prefix_b (js "//") s.

Definition has_scheme (s : text) : bool :=
  match after_scheme s with
  | Some r => prefix_b (js ":") r
  | None => false
  end.

Definition letter_class (c : ascii) : bool :=
  class_match true false [IRange "a" "z"] c.

(** Under the [i] flag a character that is no letter matches itself
    alone. *)
Definition ci_exact (a : ascii) : Prop :=
  forall b, citem_match true (IChar a) b = Ascii.eqb a b.

(** ** Style-sheet text as gaps and references *)

(** [url(x)] *)
Definition url_token (x : text) : text := js "url(" ++ x ++ js ")".

(** A style-sheet text cut at its references: each segment is the text
    in front of a reference and what the reference has between its
    brackets; [tail] is the text after the last reference. *)
Definition render (segs : list (text * text)) (tail : text) : text :=
  foldr (fun seg acc => fst seg ++ url_token (snd seg) ++ acc) tail segs.

(** No [url(] starts inside [g]. *)
Definition gap_ok (g : text) : bool :=
  negb (anywhere (prefix_b (js "url(")) g).

(** What stands between the brackets of a reference: not empty, without
    closing bracket, and with no [url(] of its own. *)
Definition ref_ok (x : text) : bool :=
  match x with [] => false | _ :: _ => true end
  && negb (has_char ")" x) && gap_ok x.

(** What a reader delivers: as above, and without [$]. *)
Definition payload_ok (p : text) : bool := ref_ok p && negb (has_char "$" p).

Definition segs_ok (segs : list (text * text)) (tail : text) : bool :=
  forallb (fun seg => gap_ok (fst seg) && ref_ok (snd seg)) segs && gap_ok tail.

Definition text_eqb (a b : text) : bool := bool_decide (a = b).

(** The first segment that still holds reference [x] gets [p] instead. *)
Fixpoint fill_first (x p : text) (segs : list (text * text))
    : list (text * text) :=
  match segs with
  | [] => []
  | seg :: rest =>
      if text_eqb (snd seg) x then (fst seg, p) :: rest
      else seg :: fill_first x p rest
  end.

(** The first occurrence of [pat] replaced by [rep], taken literally. *)
Fixpoint replace_first (pat rep s : text) : text :=
  if prefix_b pat s then rep ++ drop (length pat) s
  else match s with
       | [] => []
       | c :: t => c :: replace_first pat rep t
       end.

(** No [url(] starts inside [a] when [a] is followed by [z]. *)
Fixpoint clear_of (a z : text) : bool :=
  match a with
  | [] => true
  | c :: a' => negb (prefix_b (js "url(") (a ++ z)) && clear_of a' z
  end.

Definition not_close (c : ascii) : bool := class_match false true [IChar ")"] c.

(** ** The rewriting tasks *)

(** The text a reader result stands for in the template literal. *)
Definition payload_of (result : option text) : text :=
  default (js "null") result.

(** The pairs (reference, payload) of the load-end events of [evs], in
    their order; [refs] are the references of the tasks. *)
Definition loads (refs : list text) (evs : list (N * font_event))
    : list (text * text) :=
  omap (fun tev =>
          match snd tev with
          | ReaderLoadEnd i result =>
              match refs !! i with
              | Some x => Some (x, payload_of result)
              | None => None
              end
          | _ => None
          end) evs.

(** Every payload a load-end event delivers is well formed. *)
Definition loads_ok (evs : list (N * font_event)) : bool :=
  forallb (fun tev =>
             match snd tev with
             | ReaderLoadEnd _ result => payload_ok (payload_of result)
             | _ => true
             end) evs.

(** The segments after the loads: each pair fills the first segment that
    still holds its reference. *)
Definition slots_after (pairs : list (text * text))
    (segs : list (text * text)) : list (text * text) :=
  fold_left (fun s xp => fill_first (fst xp) (snd xp) s) pairs segs.

(** The events handled one after the other, the timer left aside. *)
Definition font_steps (tasks : list font_task) (evs : list (N * font_event))
    (st : font_state) : font_state :=
  fold_left (fun s tev => font_step tasks s (snd tev)) evs st.

Definition all_early (evs : list (N * font_event)) : Prop :=
  Forall (fun tev => (fst tev < raceTimeout)%N) evs.


(** The task an event belongs to. *)
Definition event_task (ev : font_event) : nat :=
  match ev with
  | FetchFailed i | ReaderError i | ReaderLoadEnd i _ => i
  end.

(** ** The race *)

Definition all_settled (n : nat) (s : gset nat) : bool :=
  forallb (fun j => bool_decide (j ∈ s)) (seq 0 n).

(** ** Segments and loads *)

(** The payload of the first load of reference [x], and the other loads. *)
Fixpoint take_load (x : text) (pairs : list (text * text))
    : option (text * list (text * text)) :=
  match pairs with
  | [] => None
  | yq :: ps =>
      if text_eqb (fst yq) x then Some (snd yq, ps)
      else match take_load x ps with
           | Some (p, ps') => Some (p, yq :: ps')
           | None => None
           end
  end.

(** The loads are loads of references of [refs], and no payload is one
    of these references. *)
Definition pairs_in (refs : list text) (pairs : list (text * text)) : Prop :=
  Forall (fun yq => fst yq ∈ refs /\ snd yq ∉ refs) pairs.

(** The events in which the tasks of [order] load, task [i] at time
    [times i] and with the payload [pay] gives for its reference. *)
Definition load_events (refs : list text) (pay : text -> text)
    (times : nat -> N) (order : list nat) : list (N * font_event) :=
  map (fun i => (times i, ReaderLoadEnd i (Some (pay (nth i refs []))))) order.

(** ** The font embedding orchestrator *)

(** A stand-in for the host in the examples: a relative reference is put
    behind its base, and every URL can be built. *)
Definition example_anchor_href (base : option text) (url : text) : text :=
  default [] base ++ url.

Definition example_URL_href (url base : text) : option text := Some url.

(** A style sheet with two references, for the examples. *)
Definition example_window : Window := {| location_protocol := js "https:" |}.

Definition example_segs : list (text * text) :=
  [ (js "@font-face{src:", js "a.woff");
    (js " format('woff'),", js "b.ttf") ].

Definition example_tail : text := js " format('truetype')}".

Definition example_meta : CssMetadata :=
  {| css_url := js "https://fonts.test/s.css";
     cssText := Fulfilled (render example_segs example_tail) |}.

(** ** Extensions and MIME types *)

(** Neither a dot nor a slash. *)
Definition ext_char (c : ascii) : bool :=
  negb (Ascii.eqb "." c) && negb (Ascii.eqb "/" c).

(** What follows the first dot that has neither dot nor slash behind it. *)
Fixpoint ext_of (s : text) : option text :=
  match s with
  | [] => None
  | c :: t =>
      if Ascii.eqb "." c && forallb ext_char t then Some t else ext_of t
  end.

(** ** Class names *)

(** The names of successive calls of [uuid], [draws] being what
    [Math.random] gives to each. *)
Fixpoint uuids (draws : list Z) (counter : N) : list text :=
  match draws with
  | [] => []
  | n :: draws' =>
      let '(name, counter) := uuid n counter in
      name :: uuids draws' counter
  end.

(** A digit or a lower-case letter. *)
Definition is_digit36 (c : ascii) : bool := is_digit c || is_lower c.

(** The number a text of base-36 digits stands for. *)
Definition digit36_value (c : ascii) : N :=
  if is_digit c then (N_of_ascii c - 48)%N else (N_of_ascii c - 87)%N.

Definition value36 (s : text) : N :=
  fold_left (fun v c => (36 * v + digit36_value c)%N) s 0%N.

(** ** SVG data URLs *)


(** ** Failed fetches *)


(** ** The style-sheet fetch cache *)

(** The module as it is loaded, by the own properties of
    [cssFetchCache]: nothing cached, nothing fetched.  What the cache
    object inherits from [Object.prototype] is not part of a
    [css_world]. *)
Definition empty_css_world : css_world := CssWorld ∅ ∅ [].

(** No call is for a URL that names a member of [Object.prototype]: for
    such a key [cssFetchCache[url]] is the inherited member, which
    [fetchCSS] returns at once, and a [css_world] does not tell. *)
Definition own_keys_only (evs : list css_event) : bool :=
  forallb (fun ev =>
             match ev with
             | CssCall url => negb (bool_decide (url ∈ Object_prototype))
             | CssSettle _ _ => true
             end) evs.

(** The URLs [window.fetch] has been called with. *)
Definition fetched_urls (w : css_world) : list text := map fst (css_requests w).

(** No URL has been fetched twice, and the URLs fetched are those with an
    entry in the cache. *)
Definition css_world_ok (w : css_world) : Prop :=
  NoDup (fetched_urls w)
  /\ forall url, url ∈ fetched_urls w <-> is_Some (cssFetchCache w !! url).

(** ** Rules on one line *)

(** Neither a line feed, a carriage return nor a tab. *)
Definition line_char (c : ascii) : bool :=
  negb (Ascii.eqb c "010" || Ascii.eqb c "013" || Ascii.eqb c "009").

Definition one_line (s : text) : Prop := Forall (fun c => line_char c = true) s.

(** ** References and their URLs *)

(** A single or a double quote. *)
Definition is_quote (c : ascii) : bool :=
  Ascii.eqb "034" c || Ascii.eqb "'" c.

(** No quote, or one. *)
Definition opt_quote (q : text) : bool :=
  match q with
  | [] => true
  | [c] => is_quote c
  | _ => false
  end.

(** Neither a quote nor a closing bracket. *)
Definition url_char (c : ascii) : bool :=
  negb (is_quote c) && negb (Ascii.eqb ")" c).

(** A reference as it is written: [url(], an optional quote, the URL, an
    optional quote and the closing bracket. *)
Definition quoted_ref (q1 x q2 : text) : text :=
  js "url(" ++ q1 ++ x ++ q2 ++ js ")".

(** ** Pseudo elements *)


(** * Properties *)

(** ** Promises and the harvest of font rules *)

(** C9: [parseCSS] of an absent source ([null] or [undefined]) is the
    empty list; no loop is entered and nothing is thrown. *)
Theorem parseCSS_absent : parseCSS None = Some [].
Proof. reflexivity. Qed.

Section WebFontsFacts.

Context {CSSStyleSheet : Type}.
Variable getCSSRules : list CSSStyleSheet -> pstate (list CSSRule).
Variable shouldEmbed : text -> bool.
Variable embedResources : text -> option text -> Options -> pstate text.

(** C8: for a node without owner document [parseWebFontRules] is rejected
    with the error 'Provided element is not within a Document', and so is
    [getWebFontCSS]: neither callback of the chain runs and no fallback
    value is produced. *)
Theorem parseWebFontRules_no_document (node : Node CSSStyleSheet)
    (options : Options) :
  ownerDocument _ node = None ->
  parseWebFontRules _ getCSSRules shouldEmbed node = Rejected not_in_document
  /\ getWebFontCSS _ getCSSRules shouldEmbed embedResources node options
     = Rejected not_in_document.
Proof.
  intros Hnone. unfold getWebFontCSS, parseWebFontRules.
  rewrite Hnone. split; reflexivity.
Qed.

End WebFontsFacts.

Lemma parseWebFontRules_no_document_witness :
  parseWebFontRules unit (fun _ => Fulfilled []) (fun _ => true)
    {| ownerDocument := None |} = Rejected not_in_document
  /\ getWebFontCSS unit (fun _ => Fulfilled []) (fun _ => true)
       (fun t _ _ => Fulfilled t) {| ownerDocument := None |}
       {| includeQueryParams := None; cacheBust := None;
          imagePlaceholder := None |} = Rejected not_in_document.
Proof.
  apply (parseWebFontRules_no_document (fun _ => Fulfilled []) (fun _ => true)
           (fun t _ _ => Fulfilled t) {| ownerDocument := None |}).
  reflexivity.
Defined.

(** ** The style-sheet fetch cache *)

Lemma fetchCSS_hit (url : text) (w : css_world) (p : nat) :
  cssFetchCache w !! url = Some p -> fetchCSS url w = (p, w).
Proof. intros H. unfold fetchCSS. by rewrite H. Qed.

Lemma fetchCSS_keeps_cache (url url' : text) (w : css_world) (p : nat) :
  cssFetchCache w !! url = Some p ->
  cssFetchCache (snd (fetchCSS url' w)) !! url = Some p.
Proof.
  intros H. unfold fetchCSS.
  destruct (cssFetchCache w !! url') as [q|] eqn:E; simpl; [done|].
  rewrite lookup_insert_ne; [done|]. intros ->. congruence.
Qed.

Lemma fetchCSS_keeps_promise (url : text) (w : css_world) (p : nat)
    (s : pstate CssMetadata) :
  css_promises w !! p = Some s ->
  css_promises (snd (fetchCSS url w)) !! p = Some s.
Proof.
  intros H. unfold fetchCSS.
  destruct (cssFetchCache w !! url) as [q|] eqn:E; simpl; [done|].
  rewrite lookup_insert_ne; [done|]. intros Heq.
  pose proof (is_fresh (dom (css_promises w))) as Hfresh.
  rewrite Heq in Hfresh. apply Hfresh, elem_of_dom. eauto.
Qed.

Lemma css_settle_keeps_cache (p : nat) (o : css_outcome) (w : css_world) :
  cssFetchCache (css_settle p o w) = cssFetchCache w.
Proof.
  unfold css_settle. destruct (css_promises w !! p) as [[| |]|]; try done.
  by destruct (List.find _ _) as [[]|].
Qed.

Lemma css_settle_keeps_requests (p : nat) (o : css_outcome) (w : css_world) :
  css_requests (css_settle p o w) = css_requests w.
Proof.
  unfold css_settle. destruct (css_promises w !! p) as [[| |]|]; try done.
  by destruct (List.find _ _) as [[]|].
Qed.

(** A promise that is settled keeps its state. *)
Lemma css_settle_keeps_settled (p q : nat) (o : css_outcome) (w : css_world)
    (s : pstate CssMetadata) :
  css_promises w !! q = Some s -> s <> Pending ->
  css_promises (css_settle p o w) !! q = Some s.
Proof.
  intros H Hs. unfold css_settle.
  destruct (css_promises w !! p) as [[| |]|] eqn:E; try done.
  destruct (List.find _ _) as [[u n]|]; [|done]. simpl.
  rewrite lookup_insert_ne; [done|]. intros ->. congruence.
Qed.

Lemma css_settle_other (p q : nat) (o : css_outcome) (w : css_world) :
  p <> q -> css_promises (css_settle p o w) !! q = css_promises w !! q.
Proof.
  intros Hne. unfold css_settle.
  destruct (css_promises w !! p) as [[| |]|] eqn:E; try done.
  destruct (List.find _ _) as [[u n]|]; [|done]. simpl.
  by rewrite lookup_insert_ne.
Qed.

Lemma css_run_keeps_cache (evs : list css_event) (w : css_world)
    (url : text) (p : nat) :
  cssFetchCache w !! url = Some p ->
  cssFetchCache (css_run evs w) !! url = Some p.
Proof.
  revert w. induction evs as [|[u|q o] evs IH]; intros w H; simpl; [done| |].
  - apply IH. by apply fetchCSS_keeps_cache.
  - apply IH. by rewrite css_settle_keeps_cache.
Qed.

Lemma css_run_keeps_settled (evs : list css_event) (w : css_world)
    (p : nat) (s : pstate CssMetadata) :
  css_promises w !! p = Some s -> s <> Pending ->
  css_promises (css_run evs w) !! p = Some s.
Proof.
  revert w. induction evs as [|[u|q o] evs IH]; intros w H Hs; simpl; [done| |].
  - apply IH; [|done]. by apply fetchCSS_keeps_promise.
  - apply IH; [|done]. by apply css_settle_keeps_settled.
Qed.

(** While nothing settles [p], it stays as it is. *)
Lemma css_run_keeps_unsettled (evs : list css_event) (w : css_world)
    (p : nat) (s : pstate CssMetadata) :
  css_promises w !! p = Some s ->
  (forall o, CssSettle p o ∉ evs) ->
  css_promises (css_run evs w) !! p = Some s.
Proof.
  revert w. induction evs as [|[u|q o] evs IH]; intros w H Hno; simpl; [done| |].
  - apply IH; [by apply fetchCSS_keeps_promise|].
    intros o Ho. apply (Hno o). by right.
  - apply IH.
    + rewrite css_settle_other; [done|]. intros ->. apply (Hno o). by left.
    + intros o' Ho. apply (Hno o'). by right.
Qed.

Lemma css_run_app (evs1 evs2 : list css_event) (w : css_world) :
  css_run (evs1 ++ evs2) w = css_run evs2 (css_run evs1 w).
Proof.
  revert w. induction evs1 as [|[u|q o] evs1 IH]; intros w; simpl; done.
Qed.

Lemma css_run_keeps_request (evs : list css_event) (w : css_world)
    (url : text) (p : nat) :
  (url, p) ∈ css_requests w -> (url, p) ∈ css_requests (css_run evs w).
Proof.
  revert w. induction evs as [|[u|q o] evs IH]; intros w H; simpl; [done| |].
  - apply IH. unfold fetchCSS.
    destruct (cssFetchCache w !! u); simpl; [done|].
    apply elem_of_app. by left.
  - apply IH. by rewrite css_settle_keeps_requests.
Qed.

Lemma find_request_some (l : list (text * nat)) (url : text) (p : nat) :
  (url, p) ∈ l -> is_Some (List.find (fun r => snd r =? p) l).
Proof.
  induction l as [|x l IH]; intros H; [by apply elem_of_nil in H|].
  apply elem_of_cons in H as [<-|H]; cbn.
  - rewrite Nat.eqb_refl. eauto.
  - destruct (snd x =? p); eauto.
Qed.

(** C10: the future of a first [fetchCSS] call is stored in the cache
    whatever becomes of it.  When it is rejected later on, every further
    call for the same URL returns that same rejected future and leaves the
    cache and the list of issued requests as they are: the fetch is not
    tried again. *)
Theorem fetchCSS_caches_rejection (url : text) (w : css_world) (r : reason)
    (evs1 evs2 : list css_event) :
  cssFetchCache w !! url = None ->
  (forall o, CssSettle (fst (fetchCSS url w)) o ∉ evs1) ->
  let p := fst (fetchCSS url w) in
  let w1 := snd (fetchCSS url w) in
  let w2 := css_run (evs1 ++ CssSettle p (CssRejected r) :: evs2) w1 in
  css_requests w1 = css_requests w ++ [(url, p)]
  /\ cssFetchCache w1 !! url = Some p
  /\ css_promises w2 !! p = Some (Rejected r)
  /\ fetchCSS url w2 = (p, w2).
Proof.
  intros Hmiss Hno p w1 w2.
  assert (Hw1 : w1 = {| cssFetchCache := <[url := p]> (cssFetchCache w);
                        css_promises := <[p := Pending]> (css_promises w);
                        css_requests := css_requests w ++ [(url, p)] |}).
  { subst w1 p. unfold fetchCSS. by rewrite Hmiss. }
  assert (Hc1 : cssFetchCache w1 !! url = Some p).
  { rewrite Hw1. simpl. by rewrite lookup_insert_eq. }
  split; [by rewrite Hw1|]. split; [done|].
  subst w2. rewrite css_run_app. simpl.
  set (wa := css_run evs1 w1).
  assert (Hpend : css_promises wa !! p = Some Pending).
  { apply css_run_keeps_unsettled; [|done].
    rewrite Hw1. simpl. by rewrite lookup_insert_eq. }
  assert (Hreq : (url, p) ∈ css_requests wa).
  { apply css_run_keeps_request. rewrite Hw1. simpl.
    apply elem_of_app. right. by left. }
  assert (Hrej : css_promises (css_settle p (CssRejected r) wa) !! p
                 = Some (Rejected r)).
  { unfold css_settle. rewrite Hpend.
    destruct (find_request_some _ _ _ Hreq) as [[u n] ->]. simpl.
    by rewrite lookup_insert_eq. }
  split.
  - by apply css_run_keeps_settled.
  - apply fetchCSS_hit, css_run_keeps_cache.
    rewrite css_settle_keeps_cache. by apply css_run_keeps_cache.
Qed.

Lemma fetchCSS_caches_rejection_witness :
  let w := CssWorld ∅ ∅ [] in
  let url := js "https://x.test/style.css" in
  let p := fst (fetchCSS url w) in
  let w1 := snd (fetchCSS url w) in
  let w2 := css_run ([CssCall (js "https://x.test/other.css")]
                       ++ CssSettle p (CssRejected (Error "TypeError" "Failed to fetch"))
                       :: [CssCall url]) w1 in
  css_requests w1 = css_requests w ++ [(url, p)]
  /\ cssFetchCache w1 !! url = Some p
  /\ css_promises w2 !! p = Some (Rejected (Error "TypeError" "Failed to fetch"))
  /\ fetchCSS url w2 = (p, w2).
Proof.
  apply (fetchCSS_caches_rejection (js "https://x.test/style.css")
           (CssWorld ∅ ∅ []) (Error "TypeError" "Failed to fetch")
           [CssCall (js "https://x.test/other.css")]
           [CssCall (js "https://x.test/style.css")]).
  - reflexivity.
  - intros o Ho. apply list_elem_of_singleton in Ho. discriminate Ho.
Defined.

(** ** The resource cache *)

Lemma getBlobFromURL_hit (url : text) (options : Options) (w : world)
    (p : nat) :
  cache w !! cache_key url options = Some p ->
  getBlobFromURL url options w = (p, w).
Proof. intros H. unfold getBlobFromURL. unfold cache_key in H. by rewrite H. Qed.

Lemma getBlobFromURL_miss (url : text) (options : Options) (w : world) :
  cache w !! cache_key url options = None ->
  let p := fresh (dom (promises w)) in
  getBlobFromURL url options w
  = (p, {| cache := <[cache_key url options := p]> (cache w);
           promises := <[p := Pending]> (promises w);
           requests := requests w
                         ++ [{| req_url := request_url url options (now w);
                                req_promise := p; req_options := options |}];
           now := now w |}).
Proof. intros H. unfold getBlobFromURL. unfold cache_key in H. by rewrite H. Qed.

Lemma getBlobFromURL_keeps_cache (url : text) (options : Options) (w : world)
    (k : text) (p : nat) :
  cache w !! k = Some p ->
  cache (snd (getBlobFromURL url options w)) !! k = Some p.
Proof.
  intros H. destruct (cache w !! cache_key url options) as [q|] eqn:E.
  - by rewrite (getBlobFromURL_hit _ _ _ _ E).
  - rewrite (getBlobFromURL_miss _ _ _ E). simpl.
    rewrite lookup_insert_ne; [done|]. intros Heq. congruence.
Qed.

Lemma getBlobFromURL_keeps_promise (url : text) (options : Options)
    (w : world) (p : nat) (s : pstate Metadata) :
  promises w !! p = Some s ->
  promises (snd (getBlobFromURL url options w)) !! p = Some s.
Proof.
  intros H. destruct (cache w !! cache_key url options) as [q|] eqn:E.
  - by rewrite (getBlobFromURL_hit _ _ _ _ E).
  - rewrite (getBlobFromURL_miss _ _ _ E). simpl.
    rewrite lookup_insert_ne; [done|]. intros Heq.
    pose proof (is_fresh (dom (promises w))) as Hfresh.
    rewrite Heq in Hfresh. apply Hfresh, elem_of_dom. eauto.
Qed.

Lemma getBlobFromURL_caches (url : text) (options : Options) (w : world) :
  cache (snd (getBlobFromURL url options w)) !! cache_key url options
  = Some (fst (getBlobFromURL url options w)).
Proof.
  destruct (cache w !! cache_key url options) as [q|] eqn:E.
  - by rewrite (getBlobFromURL_hit _ _ _ _ E).
  - rewrite (getBlobFromURL_miss _ _ _ E). simpl. by rewrite lookup_insert_eq.
Qed.

Lemma getBlobFromURL_issued (url : text) (options : Options) (w : world) :
  length (requests (snd (getBlobFromURL url options w)))
    - length (requests w) <= 1.
Proof.
  destruct (cache w !! cache_key url options) as [q|] eqn:E.
  - rewrite (getBlobFromURL_hit _ _ _ _ E). simpl. lia.
  - rewrite (getBlobFromURL_miss _ _ _ E). simpl. rewrite length_app. simpl. lia.
Qed.

Lemma settle_keeps_cache (p : nat) (o : fetch_outcome) (w : world) :
  cache (settle p o w) = cache w.
Proof.
  unfold settle. destruct (promises w !! p) as [[| |]|]; try done.
  by destruct (request_of p w).
Qed.

Lemma settle_keeps_requests (p : nat) (o : fetch_outcome) (w : world) :
  requests (settle p o w) = requests w.
Proof.
  unfold settle. destruct (promises w !! p) as [[| |]|]; try done.
  by destruct (request_of p w).
Qed.

Lemma settle_keeps_settled (p q : nat) (o : fetch_outcome) (w : world)
    (s : pstate Metadata) :
  promises w !! q = Some s -> s <> Pending ->
  promises (settle p o w) !! q = Some s.
Proof.
  intros H Hs. unfold settle.
  destruct (promises w !! p) as [[| |]|] eqn:E; try done.
  destruct (request_of p w); [|done]. simpl.
  rewrite lookup_insert_ne; [done|]. intros ->. congruence.
Qed.

(** Once a key is in the cache, every call for it returns the cached
    promise and issues nothing. *)
Lemma run_cached (evs : list cache_event) (w : world) (k : text) (p : nat) :
  cache w !! k = Some p ->
  cache (fst (run evs w)) !! k = Some p
  /\ Forall (fun ob => ob_key ob = k -> ob_promise ob = p /\ ob_issued ob = 0)
       (snd (run evs w)).
Proof.
  revert w. induction evs as [|[url options|q o|t] evs IH]; intros w H; simpl.
  - by split.
  - destruct (getBlobFromURL url options w) as [p' w1] eqn:E.
    assert (H1 : cache w1 !! k = Some p).
    { replace w1 with (snd (getBlobFromURL url options w)) by by rewrite E.
      by apply getBlobFromURL_keeps_cache. }
    destruct (IH w1 H1) as [IHc IHo].
    destruct (run evs w1) as [w2 obs]. simpl in *. split; [done|].
    constructor; [|done]. simpl. intros Hk.
    fold (cache_key url options) in Hk. subst k.
    rewrite (getBlobFromURL_hit _ _ _ _ H) in E. inversion E; subst.
    split; [done|lia].
  - apply IH. by rewrite settle_keeps_cache.
  - by apply IH.
Qed.

Lemma run_keeps_settled (evs : list cache_event) (w : world) (p : nat)
    (s : pstate Metadata) :
  promises w !! p = Some s -> s <> Pending ->
  promises (fst (run evs w)) !! p = Some s.
Proof.
  revert w. induction evs as [|[url options|q o|t] evs IH]; intros w H Hs; simpl.
  - done.
  - destruct (getBlobFromURL url options w) as [p' w1] eqn:E.
    assert (H1 : promises w1 !! p = Some s).
    { replace w1 with (snd (getBlobFromURL url options w)) by by rewrite E.
      by apply getBlobFromURL_keeps_promise. }
    specialize (IH w1 H1 Hs). by destruct (run evs w1).
  - apply IH; [|done]. by apply settle_keeps_settled.
  - by apply IH.
Qed.

Lemma issued_for_cached (k : text) (p : nat) (obs : list call_obs) :
  Forall (fun ob => ob_key ob = k -> ob_promise ob = p /\ ob_issued ob = 0) obs ->
  issued_for k obs = 0.
Proof.
  induction 1 as [|ob obs H _ IH]; simpl; [done|].
  case_decide; [|done]. destruct (H ltac:(done)) as [_ ->]. by rewrite IH.
Qed.

(** C2: in any sequence of calls of [getBlobFromURL], settlements and clock
    ticks, the calls whose URL has cache key [k] issue at most one request
    between them and all return the same promise; each call leaves its
    promise in the cache under its key before it returns; and [cacheBust]
    changes the URL of the request (a separator and the time are appended)
    but neither the key nor the cache. *)
Theorem getBlobFromURL_dedup (evs : list cache_event) (w : world) (k : text) :
  issued_for k (snd (run evs w)) <= 1
  /\ (forall ob1 ob2, ob1 ∈ snd (run evs w) -> ob2 ∈ snd (run evs w) ->
        ob_key ob1 = k -> ob_key ob2 = k -> ob_promise ob1 = ob_promise ob2)
  /\ (forall url options w0,
        cache (snd (getBlobFromURL url options w0)) !! cache_key url options
        = Some (fst (getBlobFromURL url options w0)))
  /\ (forall url inc ph bust w0,
        let options := {| includeQueryParams := inc; cacheBust := bust;
                          imagePlaceholder := ph |} in
        let plain := {| includeQueryParams := inc; cacheBust := None;
                        imagePlaceholder := ph |} in
        cache_key url options = cache_key url plain
        /\ fst (getBlobFromURL url options w0) = fst (getBlobFromURL url plain w0)
        /\ cache (snd (getBlobFromURL url options w0))
           = cache (snd (getBlobFromURL url plain w0))
        /\ (cache w0 !! cache_key url options = None ->
            req_url <$> requests (snd (getBlobFromURL url options w0))
            = (req_url <$> requests w0) ++ [request_url url options (now w0)])).
Proof.
  split; [|split; [|split]].
  - revert w. induction evs as [|[url options|q o|t] evs IH]; intros w; simpl.
    + lia.
    + destruct (getBlobFromURL url options w) as [p w1] eqn:E.
      destruct (run evs w1) as [w2 obs] eqn:R. simpl.
      fold (cache_key url options). case_decide as Hk.
      * assert (Hc : cache w1 !! k = Some p).
        { subst k. pose proof (getBlobFromURL_caches url options w) as Hc.
          by rewrite E in Hc. }
        destruct (run_cached evs w1 k p Hc) as [_ Hobs].
        rewrite R in Hobs. simpl in Hobs.
        rewrite (issued_for_cached _ _ _ Hobs).
        pose proof (getBlobFromURL_issued url options w) as Hi.
        rewrite E in Hi. simpl in Hi. lia.
      * specialize (IH w1). by rewrite R in IH.
    + apply IH.
    + apply IH.
  - revert w. induction evs as [|[url options|q o|t] evs IH]; intros w; simpl.
    + intros ob1 ob2 H. by apply elem_of_nil in H.
    + destruct (getBlobFromURL url options w) as [p w1] eqn:E.
      destruct (run evs w1) as [w2 obs] eqn:R. simpl.
      assert (Hc : cache w1 !! cache_key url options = Some p).
      { pose proof (getBlobFromURL_caches url options w) as Hc.
        by rewrite E in Hc. }
      destruct (run_cached evs w1 _ p Hc) as [_ Hobs].
      rewrite R in Hobs. simpl in Hobs. rewrite Forall_forall in Hobs.
      specialize (IH w1). rewrite R in IH. simpl in IH.
      fold (cache_key url options).
      intros ob1 ob2 H1 H2 K1 K2.
      apply elem_of_cons in H1 as [->|H1]; apply elem_of_cons in H2 as [->|H2];
        simpl in *.
      * done.
      * symmetry. apply Hobs; [done|congruence].
      * apply Hobs; [done|congruence].
      * by apply IH.
    + apply IH.
    + apply IH.
  - intros. apply getBlobFromURL_caches.
  - intros url inc ph bust w0 options plain.
    assert (Hk : cache_key url options = cache_key url plain) by done.
    split; [done|].
    destruct (cache w0 !! cache_key url options) as [q|] eqn:E.
    + rewrite (getBlobFromURL_hit url options w0 q E).
      rewrite Hk in E. rewrite (getBlobFromURL_hit url plain w0 q E).
      by repeat split.
    + rewrite (getBlobFromURL_miss url options w0 E).
      rewrite Hk in E. rewrite (getBlobFromURL_miss url plain w0 E). simpl.
      split; [done|]. split; [by rewrite Hk|]. intros _.
      by rewrite fmap_app.
Qed.

Lemma split_comma_from_spec (cur s : text) :
  split_comma_from cur s
  = (rev cur ++ upto_comma s)
      :: match after_first_comma s with
         | Some t => split_comma t
         | None => []
         end.
Proof.
  revert cur. induction s as [|c s IH]; intros cur; simpl.
  - by rewrite app_nil_r.
  - destruct (Ascii.eqb c ","); [by rewrite app_nil_r|].
    rewrite IH. simpl. by rewrite <- app_assoc.
Qed.

Lemma split_comma_second (s : text) :
  split_comma s !! 1 = upto_comma <$> after_first_comma s.
Proof.
  unfold split_comma. rewrite split_comma_from_spec. simpl.
  destruct (after_first_comma s) as [t|]; simpl; [|done].
  unfold split_comma. by rewrite split_comma_from_spec.
Qed.

Lemma failed_placeholder (options : Options) (r : reason) :
  failed options r
  = {| blob := Some (payload_segment (imagePlaceholder options));
       contentType := [] |}.
Proof.
  unfold failed, payload_segment. f_equal. f_equal.
  destruct (imagePlaceholder options) as [s|]; [|reflexivity].
  destruct s as [|c s]; [reflexivity|].
  remember (c :: s) as s' eqn:Hs.
  assert (Ht : truthy_text (Some s') = true) by by rewrite Hs.
  rewrite Ht. change (default [] (Some s')) with s'.
  rewrite split_comma_second.
  destruct (after_first_comma s') as [t|]; [|reflexivity].
  simpl. by destruct (upto_comma t).
Qed.

Lemma deferred_value_failure (options : Options) (o : fetch_outcome) :
  is_failure o = true ->
  deferred_value options o
  = {| blob := Some (payload_segment (imagePlaceholder options));
       contentType := [] |}.
Proof.
  destruct o as [r|r|r|h [res|]]; simpl; intros H; try done;
    apply failed_placeholder.
Qed.

Lemma find_app_some {A : Type} (f : A -> bool) (l l' : list A) (x : A) :
  List.find f l = Some x -> List.find f (l ++ l') = Some x.
Proof.
  induction l as [|y l IH]; simpl; [done|]. by destruct (f y).
Qed.

Lemma find_none_fresh (l : list request) (p : nat) :
  Forall (fun r => req_promise r <> p) l ->
  List.find (fun r => req_promise r =? p) l = None.
Proof.
  induction 1 as [|r l H _ IH]; simpl; [done|].
  destruct (Nat.eqb_spec (req_promise r) p); [done|]. exact IH.
Qed.

Lemma find_app_none {A : Type} (f : A -> bool) (l l' : list A) :
  List.find f l = None -> List.find f (l ++ l') = List.find f l'.
Proof.
  induction l as [|y l IH]; simpl; [done|]. by destruct (f y).
Qed.

Lemma request_of_getBlobFromURL (url : text) (options : Options) (w : world)
    (p : nat) (r : request) :
  request_of p w = Some r ->
  request_of p (snd (getBlobFromURL url options w)) = Some r.
Proof.
  intros H. destruct (cache w !! cache_key url options) as [q|] eqn:E.
  - by rewrite (getBlobFromURL_hit _ _ _ _ E).
  - rewrite (getBlobFromURL_miss _ _ _ E). unfold request_of. simpl.
    by apply find_app_some.
Qed.

Lemma settle_other (p q : nat) (o : fetch_outcome) (w : world) :
  p <> q -> promises (settle p o w) !! q = promises w !! q.
Proof.
  intros Hne. unfold settle.
  destruct (promises w !! p) as [[| |]|] eqn:E; try done.
  destruct (request_of p w); [|done]. simpl. by rewrite lookup_insert_ne.
Qed.

(** While nothing settles [p], its state and its request stay. *)
Lemma run_keeps_unsettled (evs : list cache_event) (w : world) (p : nat)
    (s : pstate Metadata) (r : request) :
  promises w !! p = Some s -> request_of p w = Some r ->
  (forall o, Settle p o ∉ evs) ->
  promises (fst (run evs w)) !! p = Some s
  /\ request_of p (fst (run evs w)) = Some r.
Proof.
  revert w. induction evs as [|[url options|q o|t] evs IH];
    intros w H Hr Hno; simpl.
  - done.
  - destruct (getBlobFromURL url options w) as [p' w1] eqn:E.
    assert (Hw1 : w1 = snd (getBlobFromURL url options w)) by by rewrite E.
    destruct (IH w1) as [IH1 IH2].
    + rewrite Hw1. by apply getBlobFromURL_keeps_promise.
    + rewrite Hw1. by apply request_of_getBlobFromURL.
    + intros o Ho. apply (Hno o). by right.
    + by destruct (run evs w1).
  - apply IH.
    + rewrite settle_other; [done|]. intros ->. apply (Hno o). by left.
    + unfold request_of. by rewrite settle_keeps_requests.
    + intros o' Ho. apply (Hno o'). by right.
  - apply IH; [done|done|]. intros o Ho. apply (Hno o). by right.
Qed.

Lemma run_app (evs1 evs2 : list cache_event) (w : world) :
  fst (run (evs1 ++ evs2) w) = fst (run evs2 (fst (run evs1 w))).
Proof.
  revert w. induction evs1 as [|[url options|q o|t] evs1 IH]; intros w; simpl.
  - done.
  - destruct (getBlobFromURL url options w) as [p' w1].
    specialize (IH w1). destruct (run (evs1 ++ evs2) w1), (run evs1 w1).
    simpl in *. exact IH.
  - apply IH.
  - apply IH.
Qed.

(** C3: a first call for a key issues its request; when the fetch behind it
    fails (in any of the ways [is_failure] lists, after any other events),
    the promise is fulfilled, not rejected, with an empty content type and
    with the text between the first comma of [imagePlaceholder] and the
    next one as content (empty without a placeholder or without a comma);
    from then on every call whose URL has the same key returns this very
    promise, still so fulfilled, and changes nothing: no request is
    issued. *)
Theorem getBlobFromURL_failure_cached (url : text) (options : Options)
    (w : world) (o : fetch_outcome) (evs1 evs2 : list cache_event)
    (url' : text) (options' : Options) :
  world_ok w ->
  cache w !! cache_key url options = None ->
  is_failure o = true ->
  (forall o', Settle (fst (getBlobFromURL url options w)) o' ∉ evs1) ->
  cache_key url' options' = cache_key url options ->
  let p := fst (getBlobFromURL url options w) in
  let w1 := snd (getBlobFromURL url options w) in
  let placeholder :=
    {| blob := Some (payload_segment (imagePlaceholder options));
       contentType := [] |} in
  let w2 := fst (run (evs1 ++ [Settle p o]) w1) in
  let w3 := fst (run evs2 w2) in
  promises w2 !! p = Some (Fulfilled placeholder)
  /\ promises w3 !! p = Some (Fulfilled placeholder)
  /\ getBlobFromURL url' options' w3 = (p, w3).
Proof.
  intros Hok Hmiss Hfail Hno Hkey p w1 placeholder w2 w3.
  pose proof (getBlobFromURL_miss url options w Hmiss) as Hcall.
  simpl in Hcall.
  assert (Hp : p = fresh (dom (promises w))) by (subst p; by rewrite Hcall).
  assert (Hw1 : w1 = snd (getBlobFromURL url options w)) by done.
  rewrite Hcall in Hw1. simpl in Hw1. rewrite <- Hp in Hw1.
  assert (Hpend : promises w1 !! p = Some Pending).
  { rewrite Hw1. simpl. by rewrite lookup_insert_eq. }
  assert (Hreq : request_of p w1
                 = Some {| req_url := request_url url options (now w);
                           req_promise := p; req_options := options |}).
  { rewrite Hw1. unfold request_of. simpl. rewrite find_app_none.
    - simpl. by rewrite Nat.eqb_refl.
    - apply find_none_fresh. eapply Forall_impl; [exact Hok|].
      intros r Hr Heq. simpl in Hr. rewrite Heq, Hp in Hr.
      by apply is_fresh in Hr. }
  destruct (run_keeps_unsettled evs1 w1 p _ _ Hpend Hreq Hno) as [Ha Hb].
  assert (H2 : promises w2 !! p = Some (Fulfilled placeholder)).
  { subst w2. rewrite run_app. simpl. unfold settle. rewrite Ha, Hb. simpl.
    rewrite lookup_insert_eq. by rewrite (deferred_value_failure _ _ Hfail). }
  assert (Hc1 : cache w1 !! cache_key url options = Some p).
  { rewrite Hw1. simpl. by rewrite lookup_insert_eq. }
  split; [done|]. split.
  - by apply run_keeps_settled.
  - apply getBlobFromURL_hit. rewrite Hkey.
    apply run_cached. by apply run_cached.
Qed.

Lemma getBlobFromURL_failure_cached_witness :
  let url := js "https://x.test/font.ttf" in
  let options := {| includeQueryParams := None; cacheBust := Some true;
                    imagePlaceholder := Some (js "data:image/png;base64,iVBORw0KGgo=") |} in
  let url' := js "https://cdn.test/fonts/font.ttf?v=2" in
  let options' := {| includeQueryParams := None; cacheBust := None;
                     imagePlaceholder := None |} in
  let p := fst (getBlobFromURL url options empty_world) in
  let w1 := snd (getBlobFromURL url options empty_world) in
  let placeholder := {| blob := Some (js "iVBORw0KGgo="); contentType := [] |} in
  let abort := FetchRejected (Error "AbortError" "The user aborted a request.") in
  let w2 := fst (run ([Tick 3000] ++ [Settle p abort]) w1) in
  let w3 := fst (run [Call url options'; Tick 4000] w2) in
  promises w2 !! p = Some (Fulfilled placeholder)
  /\ promises w3 !! p = Some (Fulfilled placeholder)
  /\ getBlobFromURL url' options' w3 = (p, w3).
Proof.
  apply (getBlobFromURL_failure_cached (js "https://x.test/font.ttf")
           {| includeQueryParams := None; cacheBust := Some true;
              imagePlaceholder := Some (js "data:image/png;base64,iVBORw0KGgo=") |}
           empty_world
           (FetchRejected (Error "AbortError" "The user aborted a request."))
           [Tick 3000]
           [Call (js "https://x.test/font.ttf")
              {| includeQueryParams := None; cacheBust := None;
                 imagePlaceholder := None |}; Tick 4000]
           (js "https://cdn.test/fonts/font.ttf?v=2")
           {| includeQueryParams := None; cacheBust := None;
              imagePlaceholder := None |}).
  - constructor.
  - reflexivity.
  - reflexivity.
  - intros o' Ho. apply list_elem_of_singleton in Ho. discriminate Ho.
  - vm_compute. reflexivity.
Defined.

(** C3, as worded, fails: with a placeholder that has a second comma the
    content is not all the text after the first comma. *)
Lemma placeholder_is_not_all_after_comma :
  let url := js "https://x.test/logo.png" in
  let options := {| includeQueryParams := None; cacheBust := None;
                    imagePlaceholder := Some (js "data:text/plain,a,b") |} in
  let p := fst (getBlobFromURL url options empty_world) in
  let w1 := snd (getBlobFromURL url options empty_world) in
  let w2 := settle p (FetchRejected (Error "TypeError" "Failed to fetch")) w1 in
  payload_after_comma (imagePlaceholder options) = js "a,b"
  /\ promises w2 !! p
     = Some (Fulfilled {| blob := Some (js "a"); contentType := [] |})
  /\ promises w2 !! p
     <> Some (Fulfilled
                {| blob := Some (payload_after_comma (imagePlaceholder options));
                   contentType := [] |}).
Proof.
  vm_compute. split; [reflexivity|]. split; [reflexivity|]. discriminate.
Qed.

(** ** The matcher *)

Lemma rmatch_Star (ic g : bool) (a : regex) (x : mstate)
    (k : mstate -> option mstate) :
  rmatch ic (Star g a) x k = star_loop ic g a k (S (length (m_rest x))) x.
Proof. reflexivity. Qed.

Lemma reaches_refl (x : mstate) : reaches 0 x x.
Proof. split; [lia|]. by rewrite Nat.sub_diag. Qed.

Lemma reaches_trans (d1 d2 : nat) (x y z : mstate) :
  reaches d1 x y -> reaches d2 y z -> reaches (d1 + d2) x z.
Proof.
  intros [H1 R1] [H2 R2]. split; [lia|].
  rewrite R2, R1, drop_drop. f_equal. lia.
Qed.

Lemma reaches_weaken (d d' : nat) (x z : mstate) :
  d' <= d -> reaches d x z -> reaches d' x z.
Proof. intros Hle [H R]. split; [lia|done]. Qed.

Lemma step_char_reaches (ok : ascii -> bool) (x z : mstate)
    (k : mstate -> option mstate) (d : nat) :
  (forall y z, k y = Some z -> reaches d y z) ->
  step_char ok x k = Some z -> reaches (1 + d) x z.
Proof.
  intros Hk. unfold step_char. destruct (m_rest x) as [|c t] eqn:E; [done|].
  destruct (ok c); [|done]. intros H. apply Hk in H.
  apply (reaches_trans 1 d x (MState (S (m_pos x)) t (m_caps x)) z); [|exact H].
  split; simpl; [lia|]. rewrite E.
  replace (S (m_pos x) - m_pos x) with 1 by lia. done.
Qed.

(** Whatever a pattern matches lies ahead in the text, and is at least
    [minlen] characters long. *)
Lemma rmatch_reaches (ic : bool) (r : regex) :
  forall (x z : mstate) (k : mstate -> option mstate) (d : nat),
    (forall y z, k y = Some z -> reaches d y z) ->
    rmatch ic r x k = Some z -> reaches (minlen r + d) x z.
Proof.
  induction r as [|c| |neg items| |a IHa b IHb|a IHa b IHb|g a IHa|n a IHa];
    intros x z k d Hk H; simpl in H |- *.
  - by apply Hk.
  - by eapply step_char_reaches.
  - by eapply step_char_reaches.
  - by eapply step_char_reaches.
  - destruct (m_pos x =? 0); [by apply Hk|done].
  - rewrite <- Nat.add_assoc. eapply IHa; [|exact H].
    intros y z' Hy. by eapply IHb.
  - unfold or_else in H. destruct (rmatch ic a x k) eqn:E.
    + inversion H; subst.
      apply (reaches_weaken (minlen a + d)); [lia|]. by eapply IHa.
    + apply (reaches_weaken (minlen b + d)); [lia|]. by eapply IHb.
  - change (star_loop ic g a k (S (length (m_rest x))) x = Some z) in H.
    revert H. generalize (S (length (m_rest x))) as fuel. intros fuel.
    revert x z. induction fuel as [|f IHf]; intros x z H; [done|]. simpl in H.
    assert (Hagain : forall z',
      rmatch ic a x
        (fun y => if m_pos y =? m_pos x then None else star_loop ic g a k f y)
      = Some z' -> reaches d x z').
    { intros z' Hz. apply (reaches_weaken (minlen a + d)); [lia|].
      eapply IHa; [|exact Hz].
      intros y z'' Hy. cbv beta in Hy.
      destruct (m_pos y =? m_pos x); [discriminate Hy|].
      by apply IHf. }
    unfold or_else in H. destruct g.
    + destruct (rmatch ic a x _) eqn:E.
      * inversion H; subst. by apply Hagain.
      * by apply Hk.
    + destruct (k x) eqn:E.
      * inversion H; subst. by apply Hk.
      * by apply Hagain.
  - eapply IHa; [|exact H]. intros y z' Hy.
    apply Hk in Hy. exact Hy.
Qed.

Lemma match_here_spec (re : regexp) (pos : nat) (rest : text)
    (m : rmatch_result) :
  match_here re pos rest = Some m ->
  mr_index m = pos
  /\ pos + minlen (re_source re) <= mr_end m
  /\ exists z, rmatch (re_ignoreCase re) (re_source re) (MState pos rest []) Some
               = Some z
               /\ mr_end m = m_pos z /\ mr_caps m = m_caps z
               /\ m_rest z = drop (mr_end m - pos) rest.
Proof.
  unfold match_here.
  destruct (rmatch _ _ _ _) as [z|] eqn:E; [|done].
  intros H. inversion H; subst. simpl.
  apply (rmatch_reaches _ _ _ _ _ 0) in E as [H1 H2].
  - simpl in *. split; [done|]. split; [lia|]. exists z. done.
  - intros y z' Hy. inversion Hy; subst. apply reaches_refl.
Qed.

Lemma search_spec (re : regexp) (rest : text) :
  forall (pos : nat) (m : rmatch_result),
    search re pos rest = Some m ->
    pos <= mr_index m
    /\ match_here re (mr_index m) (drop (mr_index m - pos) rest) = Some m.
Proof.
  induction rest as [|c t IH]; intros pos m H; simpl in H.
  - destruct (match_here re pos []) as [m'|] eqn:E; [|done].
    inversion H; subst. destruct (match_here_spec _ _ _ _ E) as [-> _].
    split; [lia|]. by rewrite Nat.sub_diag.
  - destruct (match_here re pos (c :: t)) as [m'|] eqn:E.
    + inversion H; subst. destruct (match_here_spec _ _ _ _ E) as [-> _].
      split; [lia|]. by rewrite Nat.sub_diag.
    + apply IH in H as [H1 H2]. split; [lia|].
      replace (mr_index m - pos) with (S (mr_index m - S pos)) by lia.
      done.
Qed.

(** What [exec] returns for a global regexp. *)
Lemma exec_global_spec (re : regexp) (s : text) (lastIndex : nat)
    (m : rmatch_result) (lastIndex' : nat) :
  re_global re = true ->
  exec re s lastIndex = (Some m, lastIndex') ->
  lastIndex <= length s
  /\ lastIndex <= mr_index m
  /\ mr_index m + minlen (re_source re) <= mr_end m
  /\ lastIndex' = mr_end m
  /\ match_here re (mr_index m) (drop (mr_index m) s) = Some m.
Proof.
  intros Hg. unfold exec. rewrite Hg.
  destruct (Nat.ltb_spec (length s) lastIndex) as [|Hle]; [done|].
  destruct (search re lastIndex (drop lastIndex s)) as [m'|] eqn:E; [|done].
  intros H. inversion H; subst. split; [done|].
  apply search_spec in E as [H1 H2]. rewrite drop_drop in H2.
  replace (lastIndex + (mr_index m - lastIndex)) with (mr_index m) in H2 by lia.
  destruct (match_here_spec _ _ _ _ H2) as (_ & H3 & _). done.
Qed.

Lemma scan_all_skip (re : regexp) (a z : text) :
  forall pos,
    scan_all re pos (a ++ z) (length a) = scan_all re (pos + length a) z 0.
Proof.
  induction a as [|c a IH]; intros pos.
  - by rewrite Nat.add_0_r.
  - cbn [app length scan_all]. rewrite IH. f_equal. lia.
Qed.

Lemma scan_all_here (re : regexp) (pos : nat) (c : ascii) (t : text) :
  scan_all re pos (c :: t) 0
  = match match_here re pos (c :: t) with
    | Some m => m :: scan_all re (S pos) t (mr_end m - pos - 1)
    | None => scan_all re (S pos) t 0
    end.
Proof. reflexivity. Qed.

Lemma GetSubstitution_nil (m s : text) (pos : nat) (caps : list (option text)) :
  GetSubstitution m s pos caps [] = [].
Proof. by destruct caps. Qed.

(** ** The CSS rule extractor *)

Lemma exec_span (re : regexp) (s : text) (lastIndex lastIndex' : nat)
    (m : rmatch_result) :
  re_global re = true -> 1 <= minlen (re_source re) ->
  exec re s lastIndex = (Some m, lastIndex') ->
  lastIndex <= length s /\ lastIndex <= mr_index m /\ mr_index m < mr_end m
  /\ lastIndex' = mr_end m
  /\ matched s m = span_text s (mr_index m, mr_end m)
  /\ matched_by re s (mr_index m, mr_end m).
Proof.
  intros Hg Hmin H.
  destruct (exec_global_spec _ _ _ _ _ Hg H) as (H0 & H1 & H2 & H3 & H4).
  repeat split; try done; try lia.
  exists (mr_caps m). simpl. by destruct m.
Qed.

Lemma keyframesLoop_spec (cssText : text) :
  forall (fuel lastIndex : nat) (result : list text),
    1 <= fuel -> length cssText + 2 <= fuel + lastIndex ->
    exists spans,
      keyframesLoop fuel cssText lastIndex result
      = Some (result ++ map (span_text cssText) spans)
      /\ ordered_spans lastIndex spans
      /\ Forall (matched_by keyframesRegex cssText) spans.
Proof.
  induction fuel as [|f IH]; intros lastIndex result H1 H2; [lia|]. simpl.
  destruct (exec keyframesRegex cssText lastIndex) as [[m|] last'] eqn:E.
  - apply exec_span in E as (E0 & E1 & E2 & -> & E4 & E5);
      [|done|vm_compute; lia].
    destruct (IH (mr_end m) (result ++ [matched cssText m])) as (sp & R & O & F);
      [lia|lia|].
    exists ((mr_index m, mr_end m) :: sp). split; [|split].
    + rewrite R, E4, <- app_assoc. done.
    + simpl. done.
    + by constructor.
  - exists []. simpl. by rewrite app_nil_r.
Qed.

Lemma unifiedLoop_spec (cssText : text) :
  forall (fuel cursor : nat) (result : list text),
    1 <= fuel -> length cssText + 2 <= fuel + cursor ->
    exists spans,
      unifiedLoop fuel cssText cursor cursor result
      = Some (result ++ map (span_text cssText) spans)
      /\ ordered_spans cursor spans
      /\ Forall (fun sp => matched_by importRegex cssText sp
                          \/ matched_by unifiedRegex cssText sp) spans.
Proof.
  induction fuel as [|f IH]; intros cursor result H1 H2; [lia|]. simpl.
  destruct (exec importRegex cssText cursor) as [[m|] last'] eqn:E.
  - apply exec_span in E as (E0 & E1 & E2 & -> & E4 & E5);
      [|done|vm_compute; lia].
    destruct (IH (mr_end m) (result ++ [matched cssText m])) as (sp & R & O & F);
      [lia|lia|].
    exists ((mr_index m, mr_end m) :: sp). split; [|split].
    + rewrite R, E4, <- app_assoc. done.
    + simpl. done.
    + constructor; [by left|done].
  - destruct (exec unifiedRegex cssText cursor) as [[m|] last2] eqn:E2.
    + apply exec_span in E2 as (E0 & E1 & E3 & -> & E4 & E5);
        [|done|vm_compute; lia].
      destruct (IH (mr_end m) (result ++ [matched cssText m]))
        as (sp & R & O & F); [lia|lia|].
      exists ((mr_index m, mr_end m) :: sp). split; [|split].
      * rewrite R, E4, <- app_assoc. done.
      * simpl. done.
      * constructor; [by right|done].
    + exists []. simpl. by rewrite app_nil_r.
Qed.

Lemma step_char_within (ok : ascii -> bool) (x z : mstate)
    (k : mstate -> option mstate) :
  (forall y z, k y = Some z -> within y z) ->
  step_char ok x k = Some z -> within x z.
Proof.
  intros Hk. unfold step_char. destruct (m_rest x) as [|c t] eqn:E; [done|].
  destruct (ok c); [|done]. intros H. apply Hk in H.
  unfold within in *. cbn [m_pos m_rest] in H. rewrite H, E. cbn [length]. lia.
Qed.

Lemma rmatch_within (ic : bool) (r : regex) :
  forall (x z : mstate) (k : mstate -> option mstate),
    (forall y z, k y = Some z -> within y z) ->
    rmatch ic r x k = Some z -> within x z.
Proof.
  induction r as [|c| |neg items| |a IHa b IHb|a IHa b IHb|g a IHa|n a IHa];
    intros x z k Hk H; simpl in H.
  - by apply Hk.
  - by eapply step_char_within.
  - by eapply step_char_within.
  - by eapply step_char_within.
  - destruct (m_pos x =? 0); [by apply Hk|done].
  - eapply IHa; [|exact H]. intros y z' Hy. by eapply IHb.
  - unfold or_else in H. destruct (rmatch ic a x k) eqn:E.
    + inversion H; subst. by eapply IHa.
    + by eapply IHb.
  - change (star_loop ic g a k (S (length (m_rest x))) x = Some z) in H.
    revert H. generalize (S (length (m_rest x))) as fuel. intros fuel.
    revert x z. induction fuel as [|f IHf]; intros x z H; [done|]. simpl in H.
    assert (Hagain : forall z',
      rmatch ic a x
        (fun y => if m_pos y =? m_pos x then None else star_loop ic g a k f y)
      = Some z' -> within x z').
    { intros z' Hz. eapply IHa; [|exact Hz].
      intros y z'' Hy. cbv beta in Hy.
      destruct (m_pos y =? m_pos x); [discriminate Hy|].
      by apply IHf. }
    unfold or_else in H. destruct g.
    + destruct (rmatch ic a x _) eqn:E.
      * inversion H; subst. by apply Hagain.
      * by apply Hk.
    + destruct (k x) eqn:E.
      * inversion H; subst. by apply Hk.
      * by apply Hagain.
  - eapply IHa; [|exact H]. intros y z' Hy.
    apply Hk in Hy. unfold within in *. exact Hy.
Qed.

(** A match ends within the text. *)
Lemma match_here_within (re : regexp) (pos : nat) (rest : text)
    (m : rmatch_result) :
  match_here re pos rest = Some m -> mr_end m <= pos + length rest.
Proof.
  unfold match_here.
  destruct (rmatch _ _ _ _) as [z|] eqn:E; [|done].
  intros H. inversion H; subst. cbn [mr_end].
  apply rmatch_within in E.
  - unfold within in E. cbn [m_pos m_rest] in E. lia.
  - intros y z' Hy. by inversion Hy.
Qed.

Lemma search_none (re : regexp) (rest : text) :
  forall pos,
    search re pos rest = None ->
    forall i, i <= length rest -> match_here re (pos + i) (drop i rest) = None.
Proof.
  induction rest as [|c t IH]; intros pos H i Hi; cbn [search] in H.
  - destruct (match_here re pos []) eqn:E; [done|].
    assert (i = 0) as -> by (simpl in Hi; lia). by rewrite Nat.add_0_r.
  - destruct (match_here re pos (c :: t)) eqn:E; [done|].
    destruct i as [|i]; [by rewrite Nat.add_0_r|].
    cbn [drop]. replace (pos + S i) with (S pos + i) by lia.
    apply IH; [done|]. simpl in Hi. lia.
Qed.

Lemma search_first (re : regexp) (rest : text) :
  forall pos m,
    search re pos rest = Some m ->
    forall i, pos + i < mr_index m ->
      match_here re (pos + i) (drop i rest) = None.
Proof.
  induction rest as [|c t IH]; intros pos m H i Hi; cbn [search] in H.
  - destruct (match_here re pos []) as [m'|] eqn:E; [|done].
    inversion H; subst. apply match_here_spec in E as [E _]. lia.
  - destruct (match_here re pos (c :: t)) as [m'|] eqn:E.
    + inversion H; subst. apply match_here_spec in E as [E _]. lia.
    + destruct i as [|i]; [by rewrite Nat.add_0_r|].
      cbn [drop]. replace (pos + S i) with (S pos + i) by lia.
      apply (IH _ _ H). lia.
Qed.

(** What [exec] finds is the first match from [lastIndex] on. *)
Lemma exec_first (re : regexp) (s : text) (lastIndex lastIndex' : nat)
    (m : rmatch_result) :
  re_global re = true -> 1 <= minlen (re_source re) ->
  exec re s lastIndex = (Some m, lastIndex') ->
  lastIndex' = mr_end m
  /\ matched s m = span_text s (span_of m)
  /\ first_match re s lastIndex (span_of m).
Proof.
  intros Hg Hmin H.
  destruct (exec_global_spec _ _ _ _ _ Hg H) as (H0 & H1 & H2 & H3 & H4).
  split; [done|]. split; [done|].
  pose proof (match_here_within _ _ _ _ H4) as Hin.
  rewrite length_drop in Hin.
  unfold first_match, span_of. cbn [fst snd].
  split; [done|]. split; [lia|]. split; [lia|]. split.
  - exists (mr_caps m). cbn [fst snd]. by destruct m.
  - unfold exec in H. rewrite Hg in H.
    destruct (Nat.ltb_spec (length s) lastIndex) as [|Hle]; [done|].
    destruct (search re lastIndex (drop lastIndex s)) as [m'|] eqn:E; [|done].
    inversion H; subst m'. intros i [Hi1 Hi2].
    pose proof (search_first _ _ _ _ E (i - lastIndex)) as Hf.
    rewrite drop_drop in Hf.
    replace (lastIndex + (i - lastIndex)) with i in Hf by lia.
    apply Hf. lia.
Qed.

(** When [exec] finds nothing, nothing is left to find. *)
Lemma exec_none (re : regexp) (s : text) (lastIndex lastIndex' : nat) :
  re_global re = true ->
  exec re s lastIndex = (None, lastIndex') ->
  no_match_from re s lastIndex.
Proof.
  intros Hg H i [Hi1 Hi2]. unfold exec in H. rewrite Hg in H.
  destruct (Nat.ltb_spec (length s) lastIndex) as [|Hle]; [lia|].
  destruct (search re lastIndex (drop lastIndex s)) as [m'|] eqn:E; [done|].
  pose proof (search_none _ _ _ E (i - lastIndex)) as Hn.
  rewrite drop_drop, length_drop in Hn.
  replace (lastIndex + (i - lastIndex)) with i in Hn by lia.
  apply Hn. lia.
Qed.

Lemma keyframesLoop_exact (cssText : text) :
  forall (fuel lastIndex : nat) (result : list text),
    1 <= fuel -> length cssText + 2 <= fuel + lastIndex ->
    exists spans,
      keyframesLoop fuel cssText lastIndex result
      = Some (result ++ map (span_text cssText) spans)
      /\ successive_matches keyframesRegex cssText lastIndex spans.
Proof.
  induction fuel as [|f IH]; intros lastIndex result H1 H2; [lia|].
  cbn [keyframesLoop].
  destruct (exec keyframesRegex cssText lastIndex) as [[m|] last'] eqn:E.
  - apply exec_first in E as (-> & E1 & E2); [|done|vm_compute; lia].
    pose proof E2 as (F1 & F2 & F3 & _).
    unfold span_of in F1, F2, F3. cbn [fst snd] in F1, F2, F3.
    destruct (IH (mr_end m) (result ++ [matched cssText m])) as (sp & R & S);
      [lia|lia|].
    exists (span_of m :: sp). split.
    + rewrite R, E1, <- app_assoc. done.
    + cbn [successive_matches]. done.
  - exists []. split; [by rewrite app_nil_r|].
    by apply exec_none in E.
Qed.

Lemma unifiedLoop_exact (cssText : text) :
  forall (fuel cursor : nat) (result : list text),
    1 <= fuel -> length cssText + 2 <= fuel + cursor ->
    exists spans,
      unifiedLoop fuel cssText cursor cursor result
      = Some (result ++ map (span_text cssText) spans)
      /\ imports_first cssText cursor spans.
Proof.
  induction fuel as [|f IH]; intros cursor result H1 H2; [lia|].
  cbn [unifiedLoop].
  destruct (exec importRegex cssText cursor) as [[m|] last'] eqn:E.
  - apply exec_first in E as (-> & E1 & E2); [|done|vm_compute; lia].
    pose proof E2 as (F1 & F2 & F3 & _).
    unfold span_of in F1, F2, F3. cbn [fst snd] in F1, F2, F3.
    destruct (IH (mr_end m) (result ++ [matched cssText m])) as (sp & R & S);
      [lia|lia|].
    exists (span_of m :: sp). split.
    + rewrite R, E1, <- app_assoc. done.
    + cbn [imports_first]. split; [by left|done].
  - apply exec_none in E; [|done].
    destruct (exec unifiedRegex cssText cursor) as [[m|] last2] eqn:E2.
    + apply exec_first in E2 as (-> & E1 & E3); [|done|vm_compute; lia].
      pose proof E3 as (F1 & F2 & F3 & _).
      unfold span_of in F1, F2, F3. cbn [fst snd] in F1, F2, F3.
      destruct (IH (mr_end m) (result ++ [matched cssText m]))
        as (sp & R & S); [lia|lia|].
      exists (span_of m :: sp). split.
      * rewrite R, E1, <- app_assoc. done.
      * cbn [imports_first]. split; [by right|done].
    + apply exec_none in E2; [|done].
      exists []. split; [by rewrite app_nil_r|done].
Qed.

Lemma first_match_unique (re : regexp) (s : text) (from : nat)
    (sp sp' : nat * nat) :
  first_match re s from sp -> first_match re s from sp' -> sp = sp'.
Proof.
  intros (H1 & H2 & H3 & [caps H4] & H5) (H1' & H2' & H3' & [caps' H4'] & H5').
  assert (Hfst : fst sp = fst sp').
  { destruct (Nat.lt_trichotomy (fst sp) (fst sp')) as [Hlt|[Heq|Hgt]];
      [|done|].
    - rewrite (H5' (fst sp)) in H4 by lia. done.
    - rewrite (H5 (fst sp')) in H4' by lia. done. }
  rewrite Hfst in H4. rewrite H4 in H4'. injection H4' as Hsnd _.
  destruct sp, sp'. cbn [fst snd] in *. by subst.
Qed.

(** The matches from a position on are determined by the text. *)
Lemma successive_matches_unique (re : regexp) (s : text) :
  forall spans spans' from,
    successive_matches re s from spans ->
    successive_matches re s from spans' ->
    spans = spans'.
Proof.
  assert (Hno : forall from sp,
            no_match_from re s from -> first_match re s from sp -> False).
  { intros from sp Hn (H1 & H2 & H3 & [caps H4] & _).
    rewrite (Hn (fst sp)) in H4 by lia. done. }
  induction spans as [|sp l IH]; intros [|sp' l'] from H H';
    cbn [successive_matches] in H, H'.
  - done.
  - destruct H' as [H' _]. by destruct (Hno _ _ H H').
  - destruct H as [H _]. by destruct (Hno _ _ H' H).
  - destruct H as [H Hl], H' as [H' Hl'].
    pose proof (first_match_unique _ _ _ _ _ H H') as <-.
    f_equal. by apply (IH _ _ Hl Hl').
Qed.

Lemma successive_matches_shift (re : regexp) (s : text) (pos : nat)
    (spans : list (nat * nat)) :
  match_here re pos (drop pos s) = None ->
  successive_matches re s (S pos) spans ->
  successive_matches re s pos spans.
Proof.
  intros Hnone H.
  assert (Hext : forall upto, no_match re s (S pos) upto -> no_match re s pos upto).
  { intros upto Hn i Hi. destruct (decide (i = pos)) as [->|Hne]; [done|].
    apply Hn. lia. }
  destruct spans as [|sp l]; cbn [successive_matches] in *.
  - by apply Hext.
  - destruct H as [(H1 & H2 & H3 & H4 & H5) Hl]. split; [|done].
    split; [lia|]. split; [done|]. split; [done|]. split; [done|].
    by apply Hext.
Qed.

(** So are the spans of the second loop. *)
Lemma imports_first_unique (s : text) :
  forall spans spans' cursor,
    imports_first s cursor spans ->
    imports_first s cursor spans' ->
    spans = spans'.
Proof.
  assert (Hno : forall re from sp,
            no_match_from re s from -> first_match re s from sp -> False).
  { intros re from sp Hn (H1 & H2 & H3 & [caps H4] & _).
    rewrite (Hn (fst sp)) in H4 by lia. done. }
  induction spans as [|sp l IH]; intros [|sp' l'] cursor H H';
    cbn [imports_first] in H, H'.
  - done.
  - destruct H as [Hi Hu], H' as [[H'|[_ H']] _];
      [by destruct (Hno _ _ _ Hi H')|by destruct (Hno _ _ _ Hu H')].
  - destruct H' as [Hi Hu], H as [[H|[_ H]] _];
      [by destruct (Hno _ _ _ Hi H)|by destruct (Hno _ _ _ Hu H)].
  - destruct H as [H Hl], H' as [H' Hl'].
    assert (sp = sp') as <-.
    { destruct H as [H|[Hn H]], H' as [H'|[Hn' H']].
      - by apply (first_match_unique _ _ _ _ _ H H').
      - by destruct (Hno _ _ _ Hn' H).
      - by destruct (Hno _ _ _ Hn H').
      - by apply (first_match_unique _ _ _ _ _ H H'). }
    f_equal. by apply (IH _ _ Hl Hl').
Qed.

(** The matches a global replacement or [match] goes through are all
    the matches, in the same sense. *)
Lemma scan_all_successive (re : regexp) (s : text) :
  1 <= minlen (re_source re) ->
  forall n pos,
    length s - pos < n -> pos <= length s ->
    successive_matches re s pos
      (map span_of (scan_all re pos (drop pos s) 0)).
Proof.
  intros Hmin. induction n as [|n IH]; intros pos Hn Hpos; [lia|].
  destruct (drop pos s) as [|c t] eqn:Ed.
  - assert (Hlen : pos = length s).
    { apply (f_equal length) in Ed. rewrite length_drop in Ed. simpl in Ed. lia. }
    cbn [scan_all].
    destruct (match_here re pos []) as [m|] eqn:E.
    + pose proof (match_here_within _ _ _ _ E) as Hw.
      apply match_here_spec in E as (_ & E & _). simpl in Hw. lia.
    + cbn [map successive_matches]. intros i Hi.
      assert (i = pos) as -> by lia. by rewrite Ed.
  - assert (Hlt : pos < length s).
    { apply (f_equal length) in Ed. rewrite length_drop in Ed. simpl in Ed. lia. }
    assert (Ht : drop (S pos) s = t).
    { replace (S pos) with (pos + 1) by lia.
      by rewrite <- drop_drop, Ed. }
    rewrite scan_all_here.
    destruct (match_here re pos (c :: t)) as [m|] eqn:E.
    + pose proof (match_here_within _ _ _ _ E) as Hw.
      pose proof (match_here_spec _ _ _ _ E) as (Hi & He & _).
      assert (Hlen : length (c :: t) = length s - pos).
      { by rewrite <- Ed, length_drop. }
      rewrite Hlen in Hw.
      assert (Hskip : scan_all re (S pos) t (mr_end m - pos - 1)
                      = scan_all re (mr_end m) (drop (mr_end m) s) 0).
      { pose proof (scan_all_skip re (take (mr_end m - pos - 1) t)
                      (drop (mr_end m - pos - 1) t) (S pos)) as Hs.
        rewrite take_drop, length_take in Hs.
        replace ((mr_end m - pos - 1) `min` length t)
          with (mr_end m - pos - 1) in Hs by (cbn [length] in Hlen; lia).
        rewrite Hs. rewrite <- Ht, drop_drop.
        by replace (S pos + (mr_end m - pos - 1)) with (mr_end m) by lia. }
      rewrite Hskip.
      cbn [map successive_matches]. split.
      * unfold first_match, span_of. cbn [fst snd]. rewrite Hi.
        split; [done|]. split; [lia|]. split; [lia|]. split.
        -- exists (mr_caps m). cbn [fst snd]. rewrite Ed, E.
           destruct m. cbn in *. by subst.
        -- intros i ?. lia.
      * unfold span_of at 1. cbn [snd]. apply IH; lia.
    + apply successive_matches_shift; [by rewrite Ed|].
      rewrite <- Ht. apply IH; lia.
Qed.

(** Replacing matches by nothing is cutting out their spans. *)
Lemma splice_cut_spans (re : regexp) (s : text) (ms : list rmatch_result) :
  forall from,
    splice re s [] from ms = cut_spans s from (map span_of ms).
Proof.
  induction ms as [|m ms IH]; intros from; cbn [splice map cut_spans]; [done|].
  rewrite GetSubstitution_nil, IH. done.
Qed.

Lemma regexp_replace_cut_spans (re : regexp) (s : text)
    (spans : list (nat * nat)) :
  re_global re = true -> 1 <= minlen (re_source re) ->
  successive_matches re s 0 spans ->
  regexp_replace re s [] = cut_spans s 0 spans.
Proof.
  intros Hg Hmin Hspans. unfold regexp_replace. rewrite Hg, splice_cut_spans.
  f_equal.
  apply (successive_matches_unique re s _ _ 0); [|done].
  apply (scan_all_successive re s Hmin (S (length s)) 0); lia.
Qed.

(** C5, as the code has it: [parseCSS] always returns; its result is first
    every @keyframes block of the normalised text, that is, the first match
    of the keyframes pattern, then the first one after its end, and so on
    until none is left; and then, from what is left of the text once these
    blocks are cut out, the @import statements and general blocks the
    second loop finds: at each step the first @import statement at or after
    the end of the block before, whatever stands in front of it, and when no
    @import statement is left the first general block, until neither pattern
    matches.  The blocks of each group follow one another without overlap,
    and the text determines both groups. *)
Theorem parseCSS_keyframes_first (source : text) :
  let cssText := normalizeCSS source in
  exists keyframes blocks : list (nat * nat),
    let rest := cut_spans cssText 0 keyframes in
    parseCSS (Some source)
    = Some (map (span_text cssText) keyframes ++ map (span_text rest) blocks)
    /\ successive_matches keyframesRegex cssText 0 keyframes
    /\ rest = regexp_replace keyframesRegex cssText []
    /\ imports_first rest 0 blocks
    /\ (forall keyframes',
          successive_matches keyframesRegex cssText 0 keyframes' ->
          keyframes' = keyframes)
    /\ (forall blocks', imports_first rest 0 blocks' -> blocks' = blocks).
Proof.
  intros cssText. unfold parseCSS. fold cssText.
  destruct (keyframesLoop_exact cssText (2 + length cssText) 0 [])
    as (kf & R1 & S1); [lia|lia|].
  rewrite R1.
  assert (Hrest : regexp_replace keyframesRegex cssText []
                  = cut_spans cssText 0 kf).
  { apply regexp_replace_cut_spans; [done|vm_compute; lia|done]. }
  rewrite Hrest.
  destruct (unifiedLoop_exact (cut_spans cssText 0 kf)
              (2 + length (cut_spans cssText 0 kf)) 0
              ([] ++ map (span_text cssText) kf))
    as (bl & R2 & S2); [lia|lia|].
  exists kf, bl. cbv zeta. rewrite R2.
  split; [done|]. split; [done|]. split; [done|]. split; [done|]. split.
  - intros kf' Hkf'. by apply (successive_matches_unique _ _ _ _ 0 Hkf').
  - intros bl' Hbl'. by apply (imports_first_unique _ _ _ 0 Hbl').
Qed.

(** C5, as worded, fails: a @keyframes block that comes last in the source
    comes first in the result. *)
Lemma parseCSS_not_in_source_order :
  let import := js "@import url('theme.css');" in
  let box := js ".box { color: red; }" in
  let keyframes := js "@keyframes spin {0% {top: 0;}100% {top: 9px;}}" in
  let source := import ++ ["010"%char] ++ box ++ ["010"%char] ++ keyframes in
  indexOf source import = Some 0
  /\ indexOf source box = Some 26
  /\ indexOf source keyframes = Some 47
  /\ parseCSS (Some source) = Some [keyframes; import; box]
  /\ parseCSS (Some source) <> Some [import; box; keyframes].
Proof.
  vm_compute. repeat split; discriminate.
Qed.

(** ** Greedy runs over one kind of character *)

Lemma star_greedy_run (ic : bool) (a : regex) (ok : ascii -> bool)
    (k : mstate -> option mstate) :
  (forall x k', rmatch ic a x k' = step_char ok x k') ->
  forall fuel x, length (m_rest x) < fuel ->
    star_loop ic true a k fuel x
    = greedy_run ok k (m_pos x) (m_rest x) (m_caps x).
Proof.
  intros Ha. induction fuel as [|f IH]; intros [pos rest caps] Hlt;
    [simpl in Hlt; lia|].
  cbn [star_loop m_pos m_rest m_caps]. rewrite Ha. unfold step_char.
  destruct rest as [|c t]; cbn [m_pos m_rest m_caps greedy_run]; [done|].
  destruct (ok c); [|done].
  rewrite (proj2 (Nat.eqb_neq (S pos) pos)) by lia.
  rewrite IH; [done|]. simpl in *. lia.
Qed.

Lemma rmatch_star_greedy (ic : bool) (a : regex) (ok : ascii -> bool)
    (k : mstate -> option mstate) (x : mstate) :
  (forall x k', rmatch ic a x k' = step_char ok x k') ->
  rmatch ic (Star true a) x k
  = greedy_run ok k (m_pos x) (m_rest x) (m_caps x).
Proof.
  intros Ha. rewrite rmatch_Star. apply star_greedy_run; [done|lia].
Qed.

Lemma greedy_run_Some (ok : ascii -> bool) (rest : text) :
  forall pos caps,
    greedy_run ok Some pos rest caps
    = Some (MState (pos + run_length ok rest)
              (drop (run_length ok rest) rest) caps).
Proof.
  induction rest as [|c t IH]; intros pos caps; simpl.
  - by rewrite Nat.add_0_r.
  - destruct (ok c); simpl.
    + rewrite IH. simpl. do 2 f_equal. lia.
    + by rewrite Nat.add_0_r.
Qed.

(** When the continuation fails in front of every character of the run,
    only the longest run counts. *)
Lemma greedy_run_longest (ok : ascii -> bool) (k : mstate -> option mstate)
    (rest : text) :
  (forall pos c t caps, ok c = true -> k (MState pos (c :: t) caps) = None) ->
  forall pos caps,
    greedy_run ok k pos rest caps
    = k (MState (pos + run_length ok rest)
           (drop (run_length ok rest) rest) caps).
Proof.
  intros Hk. induction rest as [|c t IH]; intros pos caps; simpl.
  - by rewrite Nat.add_0_r.
  - destruct (ok c) eqn:E; simpl.
    + rewrite IH, (Hk _ _ _ _ E). unfold or_else.
      replace (S pos + run_length ok t) with (pos + S (run_length ok t)) by lia.
      by destruct (k _).
    + by rewrite Nat.add_0_r.
Qed.

Lemma rmatch_lit (ic : bool) (p : text) (r : regex) :
  forall (x : mstate) (k : mstate -> option mstate),
    rmatch ic (fold_right (fun c r' => Seq (Chr c) r') r p) x k
    = if lit_prefix ic p (m_rest x)
      then rmatch ic r (MState (m_pos x + length p) (drop (length p) (m_rest x))
                          (m_caps x)) k
      else None.
Proof.
  induction p as [|a p IH]; intros [pos rest caps] k; simpl.
  - by rewrite Nat.add_0_r, drop_0.
  - unfold step_char. simpl. destruct rest as [|b s]; [done|].
    destruct (citem_match ic (IChar a) b); [|done]. simpl.
    rewrite IH. cbn [m_pos m_rest m_caps].
    change (drop (S (length p)) (b :: s)) with (drop (length p) s).
    by replace (S pos + length p) with (pos + S (length p)) by lia.
Qed.

Lemma rmatch_Lit (ic : bool) (p : string) (x : mstate)
    (k : mstate -> option mstate) :
  rmatch ic (Lit p) x k
  = if lit_prefix ic (js p) (m_rest x)
    then k (MState (m_pos x + length (js p)) (drop (length (js p)) (m_rest x))
              (m_caps x))
    else None.
Proof. unfold Lit. by rewrite rmatch_lit. Qed.

Lemma lit_prefix_exact (p s : text) : lit_prefix false p s = prefix_b p s.
Proof.
  revert s. induction p as [|a p IH]; intros [|b s]; simpl; try done.
  by rewrite IH.
Qed.

(** ** Cache keys *)

Lemma run_length_all (ok : ascii -> bool) (s : text) :
  Forall (fun c => ok c = true) s -> run_length ok s = length s.
Proof. induction 1 as [|c s H _ IH]; simpl; [done|]. by rewrite H, IH. Qed.

Lemma no_line_terminator_dot_ok (s : text) :
  no_line_terminator s -> Forall (fun c => dot_ok c = true) s.
Proof.
  intros Hs. eapply Forall_impl; [exact Hs|].
  intros c H. unfold dot_ok. simpl in H. by rewrite H.
Qed.

Lemma rmatch_Seq (ic : bool) (a b : regex) (x : mstate)
    (k : mstate -> option mstate) :
  rmatch ic (Seq a b) x k = rmatch ic a x (fun y => rmatch ic b y k).
Proof. reflexivity. Qed.

Lemma rmatch_Alt (ic : bool) (a b : regex) (x : mstate)
    (k : mstate -> option mstate) :
  rmatch ic (Alt a b) x k = or_else (rmatch ic a x k) (rmatch ic b x k).
Proof. reflexivity. Qed.

Lemma rmatch_Chr (ic : bool) (c : ascii) (x : mstate)
    (k : mstate -> option mstate) :
  rmatch ic (Chr c) x k = step_char (citem_match ic (IChar c)) x k.
Proof. reflexivity. Qed.

Lemma rmatch_Bol (ic : bool) (x : mstate) (k : mstate -> option mstate) :
  rmatch ic Bol x k = if m_pos x =? 0 then k x else None.
Proof. reflexivity. Qed.

Lemma match_here_query (pos : nat) (rest : text) :
  match_here queryRegex pos rest
  = match rest with
    | c :: t =>
        if Ascii.eqb "?" c
        then Some (MatchResult pos (S pos + run_length dot_ok t) [])
        else None
    | [] => None
    end.
Proof.
  unfold match_here, queryRegex. cbn [re_source re_ignoreCase Cat].
  rewrite rmatch_Seq, rmatch_Chr.
  unfold step_char. cbn [m_rest m_pos m_caps]. destruct rest as [|c t]; [done|].
  change (citem_match false (IChar "?") c) with (Ascii.eqb "?" c).
  destruct (Ascii.eqb "?" c); [|done].
  rewrite (rmatch_star_greedy false Dot dot_ok) by done.
  cbn [m_rest m_pos m_caps]. by rewrite greedy_run_Some.
Qed.

Lemma search_query (s : text) :
  no_line_terminator s ->
  forall pos,
    search queryRegex pos s
    = if has_char "?" s
      then Some (MatchResult (pos + length (upto_char "?" s))
                   (pos + length s) [])
      else None.
Proof.
  induction 1 as [|c t Hc Ht IH]; intros pos.
  - cbn [search]. by rewrite match_here_query.
  - cbn [search]. rewrite match_here_query. cbn [has_char upto_char].
    destruct (Ascii.eqb "?" c).
    + rewrite run_length_all by by apply no_line_terminator_dot_ok.
      simpl. do 2 f_equal; lia.
    + rewrite IH. simpl. destruct (has_char "?" t); [|done].
      do 2 f_equal; lia.
Qed.

Lemma upto_char_no_char (c : ascii) (s : text) :
  has_char c s = false -> upto_char c s = s.
Proof.
  induction s as [|d t IH]; simpl; [done|].
  destruct (Ascii.eqb c d); [done|]. simpl. intros H. by rewrite IH.
Qed.

Lemma upto_char_take (c : ascii) (s : text) :
  take (length (upto_char c s)) s = upto_char c s.
Proof.
  induction s as [|d t IH]; simpl; [done|].
  destruct (Ascii.eqb c d); [done|]. simpl. by rewrite IH.
Qed.

(** [url.replace(/\?.*/, '')] cuts the URL at its first question mark. *)
Lemma replace_query (url : text) :
  no_line_terminator url ->
  regexp_replace queryRegex url [] = upto_char "?" url.
Proof.
  intros H. unfold regexp_replace. cbn [re_global queryRegex].
  rewrite (search_query _ H). destruct (has_char "?" url) eqn:E.
  - cbn [splice mr_index mr_end]. rewrite GetSubstitution_nil.
    unfold slice. rewrite drop_0, Nat.sub_0_r. simpl.
    rewrite drop_all, app_nil_r. apply upto_char_take.
  - by rewrite upto_char_no_char.
Qed.

Lemma ci_regular_t : ci_regular "t".
Proof. intros [[] [] [] [] [] [] [] []]; reflexivity. Qed.
Lemma ci_regular_f : ci_regular "f".
Proof. intros [[] [] [] [] [] [] [] []]; reflexivity. Qed.
Lemma ci_regular_o : ci_regular "o".
Proof. intros [[] [] [] [] [] [] [] []]; reflexivity. Qed.
Lemma ci_regular_e : ci_regular "e".
Proof. intros [[] [] [] [] [] [] [] []]; reflexivity. Qed.
Lemma ci_regular_w : ci_regular "w".
Proof. intros [[] [] [] [] [] [] [] []]; reflexivity. Qed.

Lemma lit_prefix_ci (p s : text) :
  Forall ci_regular p -> lit_prefix true p s = prefix_ci p s.
Proof.
  intros Hp. revert s. induction Hp as [|a p Ha _ IH]; intros [|b s];
    cbn [lit_prefix prefix_ci]; try done.
  by rewrite Ha, IH.
Qed.

Lemma match_here_font (pos : nat) (rest : text) :
  some_b (match_here fontRegex pos rest) = font_here rest.
Proof.
  unfold match_here, fontRegex, font_here.
  cbn [re_source re_ignoreCase Cat].
  rewrite !rmatch_Alt, rmatch_Seq, !rmatch_Lit. cbn [m_rest m_pos m_caps].
  rewrite !lit_prefix_ci
    by (repeat constructor; auto using ci_regular_t, ci_regular_f,
          ci_regular_o, ci_regular_e, ci_regular_w).
  destruct (prefix_ci (js "ttf") rest); [done|].
  destruct (prefix_ci (js "otf") rest); [done|].
  destruct (prefix_ci (js "eot") rest); [done|].
  destruct (prefix_ci (js "woff") rest); [|done].
  cbn [or_else rmatch orb]. unfold Opt. rewrite rmatch_Alt.
  by destruct (rmatch true (Chr "2") _ Some).
Qed.

Lemma search_anywhere (re : regexp) (f : text -> bool) :
  (forall pos rest, some_b (match_here re pos rest) = f rest) ->
  forall s pos, some_b (search re pos s) = anywhere f s.
Proof.
  intros H. induction s as [|c t IH]; intros pos; cbn [search anywhere];
    rewrite <- (H pos); destruct (match_here re pos _); cbn [some_b orb];
    done.
Qed.

Lemma anywhere_font (s : text) : anywhere font_here s = has_font_token s.
Proof.
  unfold has_font_token. induction s as [|c t IH]; cbn [anywhere contains_ci].
  - unfold font_here. by rewrite !orb_false_r.
  - rewrite IH. unfold font_here.
    generalize (prefix_ci (js "ttf") (c :: t)), (prefix_ci (js "otf") (c :: t)),
      (prefix_ci (js "eot") (c :: t)), (prefix_ci (js "woff") (c :: t)),
      (contains_ci (js "ttf") t), (contains_ci (js "otf") t),
      (contains_ci (js "eot") t), (contains_ci (js "woff") t).
    intros [] [] [] [] [] [] [] []; reflexivity.
Qed.

Lemma search_font (s : text) (pos : nat) :
  some_b (search fontRegex pos s) = has_font_token s.
Proof.
  rewrite (search_anywhere fontRegex font_here match_here_font).
  apply anywhere_font.
Qed.

(** The font test of [getCacheKey] looks for a token anywhere in the key. *)
Lemma test_font (key : text) : test fontRegex key = has_font_token key.
Proof.
  unfold test. rewrite <- (search_font key 0).
  by destruct (search fontRegex 0 key).
Qed.

Lemma after_last_length (c : ascii) (s : text) :
  length (after_last c s) <= length s.
Proof.
  induction s as [|d t IH]; simpl; [done|].
  destruct (has_char c t); [lia|]. destruct (Ascii.eqb c d); simpl; lia.
Qed.

Lemma after_last_no_char (c : ascii) (s : text) :
  has_char c s = false -> after_last c s = s.
Proof.
  destruct s as [|d t]; simpl; [done|].
  destruct (Ascii.eqb c d); [done|]. simpl. by intros ->.
Qed.

Lemma after_last_suffix (c : ascii) (s : text) :
  drop (length s - length (after_last c s)) s = after_last c s.
Proof.
  induction s as [|d t IH]; [done|]. cbn [after_last].
  pose proof (after_last_length c t) as Hle.
  destruct (has_char c t).
  - replace (length (d :: t) - length (after_last c t))
      with (S (length t - length (after_last c t))) by (simpl; lia).
    exact IH.
  - destruct (Ascii.eqb c d).
    + replace (length (d :: t) - length t) with 1 by (simpl; lia). done.
    + by rewrite Nat.sub_diag.
Qed.

Lemma greedy_run_dir (rest : text) :
  Forall (fun c => dot_ok c = true) rest ->
  forall pos caps,
    greedy_run dot_ok slash_next pos rest caps
    = if has_char "/" rest
      then Some (MState (pos + (length rest - length (after_last "/" rest)))
                   (after_last "/" rest) caps)
      else None.
Proof.
  induction 1 as [|c t Hc Ht IH]; intros pos caps; [done|].
  cbn [greedy_run has_char after_last]. rewrite Hc, IH.
  pose proof (after_last_length "/" t) as Hle.
  destruct (has_char "/" t).
  - rewrite orb_true_r. cbn [or_else]. do 2 f_equal. simpl. lia.
  - rewrite orb_false_r. cbn [or_else]. unfold slash_next.
    rewrite rmatch_Chr. unfold step_char. cbn [m_rest m_pos m_caps].
    change (citem_match false (IChar "/") c) with (Ascii.eqb "/" c).
    destruct (Ascii.eqb "/" c); [|done].
    do 2 f_equal. simpl. lia.
Qed.

Lemma match_here_dir (pos : nat) (rest : text) :
  no_line_terminator rest ->
  match_here dirRegex pos rest
  = if has_char "/" rest
    then Some (MatchResult pos
                 (pos + (length rest - length (after_last "/" rest))) [])
    else None.
Proof.
  intros H. unfold match_here, dirRegex. cbn [re_source re_ignoreCase Cat].
  rewrite rmatch_Seq.
  rewrite (rmatch_star_greedy false Dot dot_ok) by done.
  cbn [m_rest m_pos m_caps].
  change (fun y => rmatch false (Chr "/") y Some) with slash_next.
  rewrite greedy_run_dir by by apply no_line_terminator_dot_ok.
  by destruct (has_char "/" rest).
Qed.

Lemma search_dir (s : text) :
  no_line_terminator s ->
  forall pos,
    search dirRegex pos s
    = if has_char "/" s
      then Some (MatchResult pos
                   (pos + (length s - length (after_last "/" s))) [])
      else None.
Proof.
  induction 1 as [|c t Hc Ht IH]; intros pos; cbn [search].
  - by rewrite match_here_dir by constructor.
  - rewrite match_here_dir by by constructor.
    destruct (has_char "/" (c :: t)) eqn:E; [done|].
    rewrite IH. simpl in E. apply orb_false_elim in E as [_ ->]. done.
Qed.

(** [key.replace(/.*\//, '')] keeps what follows the last slash. *)
Lemma replace_dir (key : text) :
  no_line_terminator key ->
  regexp_replace dirRegex key [] = after_last "/" key.
Proof.
  intros H. unfold regexp_replace. cbn [re_global dirRegex].
  rewrite (search_dir _ H). destruct (has_char "/" key) eqn:E.
  - cbn [splice mr_index mr_end]. rewrite GetSubstitution_nil.
    unfold slice. rewrite Nat.sub_diag. simpl. apply after_last_suffix.
  - by rewrite after_last_no_char.
Qed.

Lemma upto_char_no_line_terminator (c : ascii) (s : text) :
  no_line_terminator s -> no_line_terminator (upto_char c s).
Proof.
  induction 1 as [|d t Hd Ht IH]; simpl; [constructor|].
  destruct (Ascii.eqb c d); by constructor.
Qed.

Lemma upto_char_prefix (c : ascii) (s : text) :
  exists r, s = upto_char c s ++ r.
Proof.
  induction s as [|d t [r IH]]; simpl; [by exists []|].
  destruct (Ascii.eqb c d); [by exists (d :: t)|].
  exists r. simpl. by rewrite <- IH.
Qed.

Lemma prefix_ci_app (p s r : text) :
  prefix_ci p s = true -> prefix_ci p (s ++ r) = true.
Proof.
  revert s. induction p as [|a p IH]; intros [|b s]; simpl; try done.
  intros [-> H]%andb_true_iff. simpl. by apply IH.
Qed.

Lemma contains_ci_app (p s r : text) :
  contains_ci p s = true -> contains_ci p (s ++ r) = true.
Proof.
  induction s as [|b s IH]; cbn [contains_ci].
  - rewrite orb_false_r. intros H.
    apply (prefix_ci_app p [] r) in H. change ([] ++ r) with r in *.
    destruct r; cbn [contains_ci]; by rewrite H.
  - intros [H|H]%orb_true_iff.
    + apply (prefix_ci_app p (b :: s) r) in H.
      change ((b :: s) ++ r) with (b :: (s ++ r)) in *.
      cbn [contains_ci]. by rewrite H.
    + change ((b :: s) ++ r) with (b :: (s ++ r)).
      cbn [contains_ci]. rewrite (IH H). apply orb_true_r.
Qed.

Lemma prefix_ci_shorter (p q s : text) :
  prefix_ci (p ++ q) s = true -> prefix_ci p s = true.
Proof.
  revert s. induction p as [|a p IH]; intros [|b s]; simpl; try done.
  intros [-> H]%andb_true_iff. simpl. by apply IH.
Qed.

Lemma contains_ci_shorter (p q s : text) :
  contains_ci (p ++ q) s = true -> contains_ci p s = true.
Proof.
  induction s as [|b s IH]; cbn [contains_ci].
  - rewrite !orb_false_r. apply prefix_ci_shorter.
  - intros [H|H]%orb_true_iff.
    + by rewrite (prefix_ci_shorter _ _ _ H).
    + rewrite (IH H). apply orb_true_r.
Qed.

Lemma ends_with_contains (ext s : text) :
  ends_with_ci (js "." ++ ext) s = true -> contains_ci ext s = true.
Proof.
  induction s as [|d t IH]; cbn [ends_with_ci contains_ci].
  - rewrite orb_false_r. intros [_ H]%andb_true_iff. done.
  - intros [[_ H]%andb_true_iff|H]%orb_true_iff.
    + change (js "." ++ ext) with ("."%char :: ext) in H. simpl in H.
      apply andb_true_iff in H as [_ H].
      assert (contains_ci ext t = true) as ->; [|apply orb_true_r].
      destruct t; cbn [contains_ci]; by rewrite H.
    + rewrite (IH H). apply orb_true_r.
Qed.

(** A font-like extension brings a font token with it. *)
Lemma font_extension_token (s : text) :
  has_font_extension s = true -> has_font_token s = true.
Proof.
  unfold has_font_extension, has_font_token. cbn [existsb].
  rewrite !orb_true_iff.
  intros [H|[H|[H|[H|[H|H]]]]]; try done;
    apply ends_with_contains in H.
  - auto.
  - auto.
  - auto.
  - auto.
  - right. by apply (contains_ci_shorter (js "woff") (js "2")).
Qed.

Lemma has_font_token_upto (c : ascii) (s : text) :
  has_font_token (upto_char c s) = true -> has_font_token s = true.
Proof.
  destruct (upto_char_prefix c s) as [r Hr].
  unfold has_font_token. rewrite !orb_true_iff. intros H.
  rewrite Hr.
  destruct H as [[[H|H]|H]|H]; apply (contains_ci_app _ _ r) in H; auto.
Qed.

(** C4, as the code has it: the query string (all from the first question
    mark) is cut off unless [includeQueryParams] is set; when what is left
    holds one of the tokens ttf, otf, eot, woff, in any case, the key is
    what follows its last slash, and it is the whole of it otherwise.  A
    URL whose path ends in a font-like extension holds such a token, so its
    key is reduced in this way, with the flag set too: the key is then the
    last segment of the URL together with the query string. *)
Theorem getCacheKey_spec (url : text) (includeQueryParams : bool) :
  no_line_terminator url ->
  let key := if includeQueryParams then url else upto_char "?" url in
  getCacheKey url includeQueryParams
  = (if has_font_token key then after_last "/" key else key)
  /\ (has_font_extension (upto_char "?" url) = true ->
      getCacheKey url includeQueryParams = after_last "/" key).
Proof.
  intros Hurl key.
  assert (Hkey : no_line_terminator key).
  { subst key. destruct includeQueryParams; [done|].
    by apply upto_char_no_line_terminator. }
  assert (Hget : getCacheKey url includeQueryParams
                 = (if has_font_token key then after_last "/" key else key)).
  { unfold getCacheKey.
    replace (if includeQueryParams then url
             else regexp_replace queryRegex url []) with key
      by (subst key; destruct includeQueryParams; by rewrite ?replace_query).
    rewrite test_font. destruct (has_font_token key); [|done].
    by apply replace_dir. }
  split; [done|]. intros Hext. rewrite Hget.
  apply font_extension_token in Hext.
  assert (has_font_token key = true) as ->; [|done].
  subst key. destruct includeQueryParams; [|done].
  by apply (has_font_token_upto "?").
Qed.

Lemma getCacheKey_spec_witness :
  let url := js "https://cdn.example.com/fonts/a.woff2?v=1" in
  let key := url in
  getCacheKey url true
  = (if has_font_token key then after_last "/" key else key)
  /\ (has_font_extension (upto_char "?" url) = true ->
      getCacheKey url true = after_last "/" key).
Proof.
  apply (getCacheKey_spec (js "https://cdn.example.com/fonts/a.woff2?v=1") true).
  repeat constructor.
Defined.

(** C4, as worded, fails: with [includeQueryParams] set, the key of a font
    URL is not the full URL. *)
Lemma getCacheKey_font_not_full_url :
  let url := js "https://cdn.example.com/a.woff2?v=1" in
  has_font_extension (upto_char "?" url) = true
  /\ getCacheKey url true = js "a.woff2?v=1"
  /\ getCacheKey url true <> url.
Proof.
  vm_compute. repeat split; discriminate.
Qed.

(** ** The URL resolver *)

Lemma letter_class_spec (c : ascii) : letter_class c = is_letter c.
Proof. destruct c as [[] [] [] [] [] [] [] []]; reflexivity. Qed.

Lemma letter_not_colon (c : ascii) :
  letter_class c = true -> citem_match true (IChar ":") c = false.
Proof. destruct c as [[] [] [] [] [] [] [] []]; intros H; done. Qed.

Lemma ci_exact_colon : ci_exact ":".
Proof. intros [[] [] [] [] [] [] [] []]; reflexivity. Qed.
Lemma ci_exact_slash : ci_exact "/".
Proof. intros [[] [] [] [] [] [] [] []]; reflexivity. Qed.

Lemma lit_prefix_ci_exact (p s : text) :
  Forall ci_exact p -> lit_prefix true p s = prefix_b p s.
Proof.
  intros Hp. revert s. induction Hp as [|a p Ha _ IH]; intros [|b s];
    cbn [lit_prefix prefix_b]; try done.
  by rewrite Ha, IH.
Qed.

Lemma run_length_ext (f g : ascii -> bool) (s : text) :
  (forall c, f c = g c) -> run_length f s = run_length g s.
Proof.
  intros H. induction s as [|c t IH]; simpl; [done|]. by rewrite H, IH.
Qed.

(** A pattern that begins with [^] can only match at position 0. *)
Lemma search_anchored (re : regexp) (r : regex) (s : text) :
  re_source re = Seq Bol r ->
  search re 0 s = match_here re 0 s.
Proof.
  intros Hre.
  assert (Hfail : forall t pos, search re (S pos) t = None).
  { induction t as [|c t IH]; intros pos; cbn [search];
      unfold match_here; rewrite Hre, rmatch_Seq, rmatch_Bol; simpl; done. }
  destruct s as [|c t]; cbn [search]; destruct (match_here re 0 _); try done.
Qed.

(** One or more letters, then [k]: when [k] cannot start with a letter,
    the letters are taken to the last one. *)
Lemma rmatch_letters (k : mstate -> option mstate) (s : text) :
  (forall pos c t caps,
     letter_class c = true -> k (MState pos (c :: t) caps) = None) ->
  rmatch true (Plus true (Class false [IRange "a" "z"])) (MState 0 s []) k
  = if run_length is_letter s =? 0 then None
    else k (MState (run_length is_letter s)
              (drop (run_length is_letter s) s) []).
Proof.
  intros Hk. unfold Plus. rewrite rmatch_Seq.
  change (rmatch true (Class false [IRange "a" "z"]) (MState 0 s []))
    with (step_char letter_class (MState 0 s [])).
  unfold step_char. cbn [m_rest m_pos m_caps run_length].
  destruct s as [|c t]; [done|]. cbn [run_length].
  rewrite <- letter_class_spec. destruct (letter_class c); [|done].
  rewrite (rmatch_star_greedy true _ letter_class) by done.
  cbn [m_rest m_pos m_caps]. rewrite greedy_run_longest by done.
  rewrite (run_length_ext letter_class is_letter) by apply letter_class_spec.
  done.
Qed.

Lemma test_absolute (url : text) :
  test absoluteRegex url = is_scheme_absolute url.
Proof.
  unfold test. rewrite (search_anchored absoluteRegex _ url eq_refl).
  unfold match_here, absoluteRegex, is_scheme_absolute, after_scheme.
  cbn [re_source re_ignoreCase Cat]. rewrite rmatch_Seq, rmatch_Bol.
  cbn [m_pos Nat.eqb]. rewrite rmatch_Seq, rmatch_letters.
  - destruct (run_length is_letter url =? 0); [done|].
    rewrite rmatch_Lit. cbn [m_rest].
    rewrite lit_prefix_ci_exact
      by (repeat constructor; auto using ci_exact_colon, ci_exact_slash).
    by destruct (prefix_b (js "://") _).
  - intros pos c t caps Hc. rewrite rmatch_Lit. cbn [m_rest].
    change (lit_prefix true (js "://") (c :: t))
      with (citem_match true (IChar ":") c && lit_prefix true (js "//") t).
    by rewrite (letter_not_colon c Hc).
Qed.

Lemma test_scheme (url : text) : test schemeRegex url = has_scheme url.
Proof.
  unfold test. rewrite (search_anchored schemeRegex _ url eq_refl).
  unfold match_here, schemeRegex, has_scheme, after_scheme.
  cbn [re_source re_ignoreCase Cat]. rewrite rmatch_Seq, rmatch_Bol.
  cbn [m_pos Nat.eqb]. rewrite rmatch_Seq, rmatch_letters.
  - destruct (run_length is_letter url =? 0); [done|].
    rewrite rmatch_Chr. unfold step_char. cbn [m_rest].
    destruct (drop _ url) as [|c t]; [done|].
    rewrite ci_exact_colon.
    change (prefix_b (js ":") (c :: t)) with (Ascii.eqb ":" c && true).
    rewrite andb_true_r. by destruct (Ascii.eqb ":" c).
  - intros pos c t caps Hc. rewrite rmatch_Chr. unfold step_char.
    cbn [m_rest]. by rewrite (letter_not_colon c Hc).
Qed.

Lemma test_protocol_relative (url : text) :
  test protocolRelativeRegex url = is_protocol_relative url.
Proof.
  unfold test. rewrite (search_anchored protocolRelativeRegex _ url eq_refl).
  unfold match_here, protocolRelativeRegex, is_protocol_relative.
  cbn [re_source re_ignoreCase Cat]. rewrite rmatch_Seq, rmatch_Bol.
  cbn [m_pos Nat.eqb]. rewrite rmatch_Lit. cbn [m_rest].
  rewrite lit_prefix_exact. by destruct (prefix_b (js "//") url).
Qed.




(** ** Style-sheet text as gaps and references *)

Lemma prefix_b_app (p q s : text) :
  prefix_b (p ++ q) s = prefix_b p s && prefix_b q (drop (length p) s).
Proof.
  revert s. induction p as [|a p IH]; intros s; simpl; [by rewrite drop_0|].
  destruct s as [|b s]; [done|]. simpl. rewrite IH. by rewrite andb_assoc.
Qed.

Lemma prefix_b_refl_app (p s : text) : prefix_b p (p ++ s) = true.
Proof.
  induction p as [|a p IH]; simpl; [done|]. by rewrite Ascii.eqb_refl, IH.
Qed.

Lemma GetSubstitution_plain (m s : text) (pos : nat) (caps : list (option text))
    (rep : text) :
  has_char "$" rep = false -> GetSubstitution m s pos caps rep = rep.
Proof.
  induction rep as [|c t IH]; [by destruct caps|]. cbn [has_char].
  intros [Hc Ht]%orb_false_elim. cbn [GetSubstitution].
  rewrite Ascii.eqb_sym, Hc. cbn [negb]. by rewrite IH.
Qed.

Lemma index_from_replace (pat rep s : text) :
  forall pos,
    match index_from pat pos s with
    | Some i =>
        pos <= i
        /\ take (i - pos) s ++ rep ++ drop (i - pos + length pat) s
           = replace_first pat rep s
    | None => replace_first pat rep s = s
    end.
Proof.
  induction s as [|c t IH]; intros pos; cbn [index_from replace_first].
  - destruct (prefix_b pat []); [|done]. split; [lia|].
    by rewrite Nat.sub_diag.
  - destruct (prefix_b pat (c :: t)).
    + split; [lia|]. by rewrite Nat.sub_diag.
    + specialize (IH (S pos)). destruct (index_from pat (S pos) t) as [i|].
      * destruct IH as [Hle IH]. split; [lia|].
        replace (i - pos) with (S (i - S pos)) by lia. simpl. by rewrite IH.
      * by rewrite IH.
Qed.

(** [String.prototype.replace] with a replacement that has no [$]. *)
Lemma string_replace_plain (s pat rep : text) :
  has_char "$" rep = false ->
  string_replace s pat rep = replace_first pat rep s.
Proof.
  intros Hrep. unfold string_replace, indexOf.
  pose proof (index_from_replace pat rep s 0) as H.
  destruct (index_from pat 0 s) as [i|]; [|done].
  destruct H as [_ H]. rewrite Nat.sub_0_r in H.
  by rewrite (GetSubstitution_plain _ _ _ _ _ Hrep).
Qed.

Lemma replace_first_skip (pat' rep a z : text) :
  clear_of a z = true ->
  replace_first (js "url(" ++ pat') rep (a ++ z)
  = a ++ replace_first (js "url(" ++ pat') rep z.
Proof.
  induction a as [|c a IH]; [done|]. cbn [clear_of].
  intros [Hc Ha]%andb_true_iff. apply negb_true_iff in Hc.
  change ((c :: a) ++ z) with (c :: (a ++ z)) in *.
  cbn [replace_first]. rewrite prefix_b_app, Hc. cbn [andb].
  by rewrite IH.
Qed.

(** The four characters of [url(] are looked for in [a] alone when [a],
    not empty, is followed by [url(] or by a closing bracket. *)
Lemma window_before_url (a w : text) :
  a <> [] ->
  prefix_b (js "url(") (a ++ js "url(" ++ w) = prefix_b (js "url(") a.
Proof.
  intros Ha. by destruct a as [|c0 [|c1 [|c2 [|c3 a]]]].
Qed.

Lemma window_before_close (a w : text) :
  prefix_b (js "url(") (a ++ ")"%char :: w) = prefix_b (js "url(") a.
Proof.
  by destruct a as [|c0 [|c1 [|c2 [|c3 a]]]].
Qed.

Lemma gap_ok_cons (c : ascii) (g : text) :
  gap_ok (c :: g) = negb (prefix_b (js "url(") (c :: g)) && gap_ok g.
Proof. unfold gap_ok. cbn [anywhere]. by rewrite negb_orb. Qed.

Lemma clear_of_gap (g w : text) :
  gap_ok g = true -> clear_of g (js "url(" ++ w) = true.
Proof.
  induction g as [|c g IH]; [done|]. rewrite gap_ok_cons.
  intros [Hc Hg]%andb_true_iff. cbn [clear_of].
  rewrite window_before_url by done. by rewrite Hc, IH.
Qed.

Lemma clear_of_close (g w : text) :
  gap_ok g = true -> clear_of g (")"%char :: w) = true.
Proof.
  induction g as [|c g IH]; [done|]. rewrite gap_ok_cons.
  intros [Hc Hg]%andb_true_iff. cbn [clear_of].
  rewrite window_before_close. by rewrite Hc, IH.
Qed.

Lemma clear_of_end (g : text) : gap_ok g = true -> clear_of g [] = true.
Proof.
  induction g as [|c g IH]; [done|]. rewrite gap_ok_cons.
  intros [Hc Hg]%andb_true_iff. cbn [clear_of].
  rewrite app_nil_r. by rewrite Hc, IH.
Qed.

Lemma clear_of_app (a b z : text) :
  clear_of (a ++ b) z = clear_of a (b ++ z) && clear_of b z.
Proof.
  induction a as [|c a IH]; [done|].
  cbn [clear_of app]. rewrite IH, <- app_assoc. by rewrite andb_assoc.
Qed.

Lemma url_token_unfold (x : text) :
  url_token x = ("u" :: "r" :: "l" :: "(" :: x ++ [")"])%char.
Proof. reflexivity. Qed.

Lemma text_eqb_cons (c d : ascii) (x y : text) :
  text_eqb (c :: x) (d :: y) = Ascii.eqb c d && text_eqb x y.
Proof.
  unfold text_eqb. destruct (Ascii.eqb_spec c d) as [->|Hne]; simpl.
  - apply bool_decide_ext. split; [by intros [= ->]|by intros ->].
  - apply bool_decide_eq_false. by intros [= ? ?].
Qed.

(** Two references are told apart where the first of them closes. *)
Lemma token_prefix (x y r : text) :
  has_char ")" x = false -> has_char ")" y = false ->
  prefix_b (x ++ [")"%char]) (y ++ ")"%char :: r) = text_eqb y x.
Proof.
  revert y. induction x as [|c x IH]; intros [|d y]; cbn [has_char app prefix_b].
  - done.
  - intros _ [Hd _]%orb_false_elim. rewrite Hd. done.
  - intros [Hc _]%orb_false_elim _. rewrite Ascii.eqb_sym, Hc. done.
  - intros [_ Hx]%orb_false_elim [_ Hy]%orb_false_elim.
    rewrite (IH y Hx Hy), text_eqb_cons. by rewrite Ascii.eqb_sym.
Qed.

Lemma ref_ok_parts (x : text) :
  ref_ok x = true ->
  x <> [] /\ has_char ")" x = false /\ gap_ok x = true.
Proof.
  unfold ref_ok. intros [[H1 H2]%andb_true_iff H3]%andb_true_iff.
  apply negb_true_iff in H2. by destruct x.
Qed.

Lemma clear_of_token (y r : text) :
  ref_ok y = true ->
  clear_of (("r" :: "l" :: "(" :: y ++ [")"])%char) r = true.
Proof.
  intros (_ & _ & Hy)%ref_ok_parts.
  change (("r" :: "l" :: "(" :: y ++ [")"])%char)
    with (["r"; "l"; "("]%char ++ (y ++ [")"%char])).
  rewrite clear_of_app, (clear_of_app y). rewrite andb_true_iff. split; [done|].
  change ([")"%char] ++ r) with (")"%char :: r).
  by rewrite clear_of_close.
Qed.

Lemma segs_ok_cons (g y : text) (rest : list (text * text)) (tail : text) :
  segs_ok ((g, y) :: rest) tail = true ->
  gap_ok g = true /\ ref_ok y = true /\ segs_ok rest tail = true.
Proof.
  unfold segs_ok. cbn [forallb fst snd].
  intros [[[H1 H2]%andb_true_iff H3]%andb_true_iff H4]%andb_true_iff.
  by rewrite H3, H4.
Qed.

Lemma replace_first_cons (pat rep : text) (c : ascii) (t : text) :
  replace_first pat rep (c :: t)
  = if prefix_b pat (c :: t) then rep ++ drop (length pat) (c :: t)
    else c :: replace_first pat rep t.
Proof. reflexivity. Qed.

Lemma prefix_token (x y r : text) :
  has_char ")" x = false -> has_char ")" y = false ->
  prefix_b (url_token x) (url_token y ++ r) = text_eqb y x.
Proof.
  intros Hx Hy. rewrite !url_token_unfold. cbn [app prefix_b].
  rewrite !Ascii.eqb_refl. cbn [andb]. rewrite <- app_assoc.
  by apply token_prefix.
Qed.

Lemma replace_first_at_token (x y rep r : text) :
  ref_ok x = true -> ref_ok y = true ->
  replace_first (url_token x) rep (url_token y ++ r)
  = if text_eqb y x then rep ++ r
    else url_token y ++ replace_first (url_token x) rep r.
Proof.
  intros (_ & Hxc & _)%ref_ok_parts Hy.
  destruct (ref_ok_parts y Hy) as (_ & Hyc & _).
  pose proof (prefix_token x y r Hxc Hyc) as Hpre.
  change (url_token y ++ r)
    with ("u"%char :: (("r" :: "l" :: "(" :: y ++ [")"])%char ++ r)) in *.
  rewrite replace_first_cons, Hpre.
  destruct (text_eqb y x) eqn:E.
  - apply bool_decide_eq_true in E. subst y. f_equal.
    change ("u"%char :: (("r" :: "l" :: "(" :: x ++ [")"])%char ++ r))
      with (url_token x ++ r).
    by rewrite drop_app_length.
  - pose proof (replace_first_skip (x ++ [")"%char]) rep
                  ("r" :: "l" :: "(" :: y ++ [")"])%char r
                  (clear_of_token y _ Hy)) as Hskip.
    change (js "url(" ++ x ++ [")"%char]) with (url_token x) in Hskip.
    by rewrite Hskip.
Qed.

(** Replacing the first occurrence of a reference in the text is filling
    the first segment that holds it. *)
Lemma replace_in_render (x p : text) (segs : list (text * text))
    (tail : text) :
  segs_ok segs tail = true -> ref_ok x = true ->
  replace_first (url_token x) (url_token p) (render segs tail)
  = render (fill_first x p segs) tail.
Proof.
  intros Hsegs Hx.
  induction segs as [|[g y] rest IH]; cbn [render foldr fill_first fst snd].
  - unfold segs_ok in Hsegs. cbn [forallb andb] in Hsegs.
    rewrite <- (app_nil_r tail) at 1.
    unfold url_token at 1. rewrite replace_first_skip by by apply clear_of_end.
    by rewrite app_nil_r.
  - apply segs_ok_cons in Hsegs as (Hg & Hy & Hrest).
    fold (render rest tail).
    unfold url_token at 1.
    rewrite replace_first_skip
      by (rewrite url_token_unfold; apply (clear_of_gap g _ Hg)).
    fold (url_token x). rewrite replace_first_at_token by done.
    destruct (text_eqb y x); cbn [render foldr fst snd]; [done|].
    fold (render rest tail). by rewrite (IH Hrest).
Qed.

(** One or more characters of a kind, then [k]: when [k] cannot start
    with a character of that kind, the whole run is taken. *)
Lemma rmatch_plus_run (ic : bool) (a : regex) (ok : ascii -> bool)
    (k : mstate -> option mstate) (pos : nat) (s : text)
    (caps : list (nat * (nat * nat))) :
  (forall x k', rmatch ic a x k' = step_char ok x k') ->
  (forall pos c t caps, ok c = true -> k (MState pos (c :: t) caps) = None) ->
  rmatch ic (Plus true a) (MState pos s caps) k
  = if run_length ok s =? 0 then None
    else k (MState (pos + run_length ok s) (drop (run_length ok s) s) caps).
Proof.
  intros Ha Hk. unfold Plus. rewrite rmatch_Seq, Ha.
  unfold step_char. cbn [m_rest m_pos m_caps].
  destruct s as [|c t]; [done|]. cbn [run_length].
  destruct (ok c); [|done].
  rewrite (rmatch_star_greedy ic a ok) by done.
  cbn [m_rest m_pos m_caps]. rewrite greedy_run_longest by done.
  cbn [Nat.eqb drop]. do 2 f_equal. lia.
Qed.

Lemma not_close_spec (c : ascii) : not_close c = negb (Ascii.eqb ")" c).
Proof.
  unfold not_close, class_match. cbn [existsb citem_match citem_mem].
  by rewrite orb_false_r.
Qed.

(** What the pattern of [fontLocs] finds at a position. *)
Lemma match_here_fontLoc (pos : nat) (rest : text) :
  match_here fontLocRegex pos rest
  = if prefix_b (js "url(") rest then
      let inner := drop 4 rest in
      let n := run_length not_close inner in
      if n =? 0 then None
      else match drop n inner with
           | c :: _ =>
               if Ascii.eqb ")" c
               then Some (MatchResult pos (S (pos + 4 + n)) [])
               else None
           | [] => None
           end
    else None.
Proof.
  unfold match_here, fontLocRegex. cbn [re_source re_ignoreCase Cat].
  rewrite rmatch_Seq, rmatch_Lit. cbn [m_rest m_pos m_caps].
  rewrite lit_prefix_exact. destruct (prefix_b (js "url(") rest); [|done].
  change (length (js "url(")) with 4. cbv zeta.
  rewrite rmatch_Seq, (rmatch_plus_run false _ not_close); [|done|].
  - destruct (run_length not_close (drop 4 rest) =? 0); [done|].
    rewrite rmatch_Chr. unfold step_char. cbn [m_rest m_pos m_caps].
    destruct (drop (run_length not_close (drop 4 rest)) (drop 4 rest))
      as [|c t]; [done|].
    change (citem_match false (IChar ")") c) with (Ascii.eqb ")" c).
    by destruct (Ascii.eqb ")" c).
  - intros p c t caps Hc. rewrite rmatch_Chr. unfold step_char.
    cbn [m_rest]. rewrite not_close_spec in Hc.
    apply negb_true_iff in Hc.
    change (citem_match false (IChar ")") c) with (Ascii.eqb ")" c).
    by rewrite Hc.
Qed.

Lemma run_length_ref (y r : text) :
  has_char ")" y = false ->
  run_length not_close (y ++ ")"%char :: r) = length y.
Proof.
  induction y as [|c y IH]; cbn [has_char app run_length length].
  - intros _. rewrite not_close_spec. by rewrite Ascii.eqb_refl.
  - intros [Hc Hy]%orb_false_elim. rewrite not_close_spec, Hc. cbn [negb].
    by rewrite IH.
Qed.

Lemma match_here_token (pos : nat) (y r : text) :
  ref_ok y = true ->
  match_here fontLocRegex pos (url_token y ++ r)
  = Some (MatchResult pos (pos + length (url_token y)) []).
Proof.
  intros (Hne & Hc & _)%ref_ok_parts. rewrite match_here_fontLoc.
  unfold url_token. rewrite <- !app_assoc, prefix_b_refl_app.
  change (drop 4 (js "url(" ++ y ++ js ")" ++ r)) with (y ++ ")"%char :: r).
  cbv zeta. rewrite (run_length_ref _ _ Hc).
  assert (Hlen : (length y =? 0) = false) by by destruct y.
  rewrite Hlen, drop_app_length, Ascii.eqb_refl.
  do 2 f_equal. rewrite !length_app. simpl. lia.
Qed.

Lemma scan_all_clear (a z : text) :
  clear_of a z = true ->
  forall pos,
    scan_all fontLocRegex pos (a ++ z) 0
    = scan_all fontLocRegex (pos + length a) z 0.
Proof.
  induction a as [|c a IH]; intros Hclear pos.
  - by rewrite Nat.add_0_r.
  - cbn [clear_of] in Hclear.
    apply andb_true_iff in Hclear as [Hc Ha]. apply negb_true_iff in Hc.
    change ((c :: a) ++ z) with (c :: (a ++ z)) in *.
    cbn [scan_all]. rewrite match_here_fontLoc, Hc.
    rewrite (IH Ha). f_equal. simpl. lia.
Qed.

Lemma scan_all_token (pos : nat) (y r : text) :
  ref_ok y = true ->
  scan_all fontLocRegex pos (url_token y ++ r) 0
  = MatchResult pos (pos + length (url_token y)) []
      :: scan_all fontLocRegex (pos + length (url_token y)) r 0.
Proof.
  intros Hy. pose proof (match_here_token pos y r Hy) as Hm.
  rewrite url_token_unfold in *.
  change (("u" :: "r" :: "l" :: "(" :: y ++ [")"])%char ++ r)
    with ("u"%char :: (("r" :: "l" :: "(" :: y ++ [")"])%char ++ r)) in *.
  rewrite scan_all_here, Hm. f_equal. cbn [mr_end].
  replace (pos + length ("u" :: "r" :: "l" :: "(" :: y ++ [")"])%char - pos - 1)
    with (length ("r" :: "l" :: "(" :: y ++ [")"])%char)
    by (cbn [length]; lia).
  rewrite (scan_all_skip fontLocRegex ("r" :: "l" :: "(" :: y ++ [")"])%char r).
  f_equal. cbn [length]. lia.
Qed.

(** The references the pattern finds in a text of gaps and references are
    the references of its segments. *)
Lemma scan_render (segs : list (text * text)) (tail : text) :
  segs_ok segs tail = true ->
  forall pre,
    map (matched (pre ++ render segs tail))
      (scan_all fontLocRegex (length pre) (render segs tail) 0)
    = map (fun seg => url_token (snd seg)) segs.
Proof.
  induction segs as [|[g y] rest IH]; intros Hsegs pre;
    cbn [render foldr map fst snd].
  - unfold segs_ok in Hsegs. cbn [forallb andb] in Hsegs.
    rewrite <- (app_nil_r tail) at 2.
    rewrite scan_all_clear by by apply clear_of_end.
    cbn [scan_all]. by rewrite match_here_fontLoc.
  - apply segs_ok_cons in Hsegs as (Hg & Hy & Hrest).
    fold (render rest tail).
    rewrite scan_all_clear
      by (rewrite url_token_unfold; apply (clear_of_gap g _ Hg)).
    rewrite scan_all_token by done. cbn [map]. f_equal.
    + unfold matched, slice. cbn [mr_index mr_end].
      rewrite app_assoc, <- length_app, drop_app_length.
      replace (length (pre ++ g) + length (url_token y) - length (pre ++ g))
        with (length (url_token y)) by lia.
      by rewrite take_app_length.
    + specialize (IH Hrest (pre ++ g ++ url_token y)).
      rewrite <- !app_assoc in IH. rewrite <- IH.
      rewrite !length_app. by rewrite !Nat.add_assoc.
Qed.

Lemma fontLocs_render (segs : list (text * text)) (tail : text) :
  segs_ok segs tail = true ->
  regexp_match_all fontLocRegex (render segs tail)
  = map (fun seg => url_token (snd seg)) segs.
Proof.
  intros H. unfold regexp_match_all. exact (scan_render segs tail H []).
Qed.

(** ** The rewriting tasks *)

Section Tasks.

Variable anchor_href : option text -> text -> text.
Variable URL_href : text -> text -> option text.

Lemma loadFonts_locs (meta_url : text) (document : nat) (window : Window)
    (fontLocs : list text) :
  forall index docs tasks docs',
    loadFonts anchor_href URL_href meta_url document window fontLocs index docs
    = Some (tasks, docs') ->
    map ft_loc tasks = fontLocs.
Proof.
  induction fontLocs as [|loc locs IH]; intros index docs tasks docs' H;
    cbn [loadFonts] in H.
  - by inversion H.
  - destruct (resolveUrl _ _ _ _ _ _) as [u docs1].
    destruct (if negb (startsWith u (js "https://")) then _ else _); [|done].
    destruct (loadFonts _ _ _ _ _ _ _ _) as [[ts docs2]|] eqn:E; [|done].
    inversion H; subst. cbn [map ft_loc]. f_equal. by eapply IH.
Qed.

End Tasks.

Lemma race_settled_cssText (st : font_state) :
  fs_cssText (race_settled st) = fs_cssText st.
Proof. reflexivity. Qed.

Lemma task_settled_cssText (n i : nat) (st : font_state) :
  fs_cssText (task_settled n i st) = fs_cssText st.
Proof. unfold task_settled. by destruct (forallb _ _). Qed.

Lemma has_char_app (c : ascii) (a b : text) :
  has_char c (a ++ b) = has_char c a || has_char c b.
Proof.
  induction a as [|d a IH]; [done|]. cbn [app has_char].
  by rewrite IH, orb_assoc.
Qed.

Lemma payload_ok_parts (p : text) :
  payload_ok p = true ->
  ref_ok p = true /\ has_char "$" (url_token p) = false.
Proof.
  unfold payload_ok. intros [H1 H2]%andb_true_iff. split; [done|].
  apply negb_true_iff in H2. unfold url_token.
  rewrite !has_char_app, H2. done.
Qed.

Lemma segs_ok_unfold (g y : text) (rest : list (text * text)) (tail : text) :
  segs_ok ((g, y) :: rest) tail
  = gap_ok g && ref_ok y && segs_ok rest tail.
Proof. unfold segs_ok. cbn [forallb fst snd]. by rewrite andb_assoc. Qed.

Lemma fill_first_ok (x p : text) (segs : list (text * text)) (tail : text) :
  ref_ok p = true -> segs_ok segs tail = true ->
  segs_ok (fill_first x p segs) tail = true.
Proof.
  intros Hp. induction segs as [|[g y] rest IH]; [done|].
  intros (Hg & Hy & Hrest)%segs_ok_cons. cbn [fill_first fst snd].
  destruct (text_eqb y x); rewrite segs_ok_unfold.
  - by rewrite Hg, Hp, Hrest.
  - rewrite Hg, Hy. cbn [andb]. by apply IH.
Qed.

Lemma loads_cons (refs : list text) (t : N) (ev : font_event)
    (evs : list (N * font_event)) :
  loads refs ((t, ev) :: evs)
  = match ev with
    | ReaderLoadEnd i result =>
        match refs !! i with
        | Some x => (x, payload_of result) :: loads refs evs
        | None => loads refs evs
        end
    | _ => loads refs evs
    end.
Proof.
  unfold loads. cbn [omap list_omap snd]. destruct ev as [i|i|i result];
    try done. by destruct (refs !! i).
Qed.

Lemma font_steps_cons (tasks : list font_task) (t : N) (ev : font_event)
    (evs : list (N * font_event)) (st : font_state) :
  font_steps tasks ((t, ev) :: evs) st
  = font_steps tasks evs (font_step tasks st ev).
Proof. reflexivity. Qed.

Lemma slots_after_cons (x p : text) (pairs segs : list (text * text)) :
  slots_after ((x, p) :: pairs) segs = slots_after pairs (fill_first x p segs).
Proof. reflexivity. Qed.

(** The shared text after the events is the text of the segments after
    the loads among them. *)
Lemma font_steps_render (tasks : list font_task) (refs : list text)
    (tail : text) :
  map ft_loc tasks = map url_token refs ->
  Forall (fun x => ref_ok x = true) refs ->
  forall evs cur st,
    loads_ok evs = true -> segs_ok cur tail = true ->
    fs_cssText st = render cur tail ->
    fs_cssText (font_steps tasks evs st)
    = render (slots_after (loads refs evs) cur) tail.
Proof.
  intros Hlocs Hrefs.
  induction evs as [|[t ev] evs IH]; intros cur st Hev Hcur Hst; [done|].
  unfold loads_ok in Hev. cbn [forallb fst snd] in Hev.
  apply andb_true_iff in Hev as [Hp Hev].
  rewrite font_steps_cons, loads_cons.
  destruct ev as [i|i|i result]; cbn [font_step].
  - apply IH; [done|done|]. by rewrite task_settled_cssText.
  - apply IH; [done|done|]. by rewrite task_settled_cssText.
  - assert (Hi : ft_loc <$> tasks !! i = url_token <$> refs !! i).
    { change (ft_loc <$> tasks = url_token <$> refs) in Hlocs.
      rewrite <- !list_lookup_fmap. by rewrite Hlocs. }
    destruct (tasks !! i) as [task|] eqn:Et, (refs !! i) as [x|] eqn:Ex;
      try done; cbn [fmap option_fmap option_map] in Hi.
    + injection Hi as Hloc.
      destruct (payload_ok_parts _ Hp) as [Hrp Hdollar].
      assert (Hx : ref_ok x = true).
      { rewrite Forall_forall in Hrefs. apply Hrefs.
        by eapply list_elem_of_lookup_2. }
      rewrite slots_after_cons.
      apply IH; [done|by apply fill_first_ok|].
      rewrite task_settled_cssText. cbn [fs_cssText].
      rewrite Hloc, Hst.
      change (url_of_result result) with (url_token (payload_of result)).
      rewrite string_replace_plain by done.
      by apply replace_in_render.
    + by apply IH.
Qed.

(** ** The race *)

Lemma all_settled_size (n : nat) (s : gset nat) :
  all_settled n s = true -> n <= size s.
Proof.
  unfold all_settled. rewrite forallb_forall. intros H.
  rewrite <- (size_set_seq (C := gset nat) 0 n).
  apply subseteq_size. intros j Hj. apply elem_of_set_seq in Hj.
  specialize (H j). apply bool_decide_eq_true_1 in H; [done|].
  apply in_seq. lia.
Qed.


Lemma task_settled_spec (n i : nat) (st : font_state) :
  task_settled n i st
  = {| fs_cssText := fs_cssText st;
       fs_settled := {[i]} ∪ fs_settled st;
       fs_returned :=
         if all_settled n ({[i]} ∪ fs_settled st)
         then Some (default (fs_cssText st) (fs_returned st))
         else fs_returned st |}.
Proof.
  unfold task_settled, all_settled. cbn [fs_settled].
  by destruct (forallb _ _).
Qed.

Lemma font_step_settled (tasks : list font_task) (st : font_state)
    (ev : font_event) :
  fs_settled (font_step tasks st ev) ⊆ {[event_task ev]} ∪ fs_settled st.
Proof.
  destruct ev as [i|i|i result]; cbn [font_step event_task];
    rewrite ?task_settled_spec; cbn [fs_settled]; try done.
  destruct (tasks !! i); rewrite ?task_settled_spec; cbn [fs_settled];
    set_solver.
Qed.

(** A step settles the race only by settling the last task, and then
    with the text as it is after the step. *)
Lemma font_step_returned (tasks : list font_task) (st : font_state)
    (ev : font_event) :
  fs_returned st = None ->
  fs_returned (font_step tasks st ev) = None
  \/ (fs_returned (font_step tasks st ev)
      = Some (fs_cssText (font_step tasks st ev))
      /\ all_settled (length tasks) (fs_settled (font_step tasks st ev)) = true).
Proof.
  intros Hnone.
  destruct ev as [i|i|i result]; cbn [font_step].
  - rewrite task_settled_spec. cbn [fs_returned fs_settled fs_cssText].
    rewrite Hnone. destruct (all_settled _ _); [right|left]; done.
  - rewrite task_settled_spec. cbn [fs_returned fs_settled fs_cssText].
    rewrite Hnone. destruct (all_settled _ _); [right|left]; done.
  - destruct (tasks !! i) as [t|]; [|by left].
    rewrite task_settled_spec. cbn [fs_returned fs_settled fs_cssText].
    rewrite Hnone. destruct (all_settled _ _); [right|left]; done.
Qed.

Lemma font_step_sticky (tasks : list font_task) (st : font_state)
    (ev : font_event) (b : text) :
  fs_returned st = Some b -> fs_returned (font_step tasks st ev) = Some b.
Proof.
  intros Hsome.
  destruct ev as [i|i|i result]; cbn [font_step];
    try destruct (tasks !! i) as [t|]; rewrite ?task_settled_spec;
    cbn [fs_returned]; rewrite ?Hsome; try done;
    by destruct (all_settled _ _).
Qed.

Lemma font_run_sticky (tasks : list font_task) (evs : list (N * font_event)) :
  forall st b,
    fs_returned st = Some b -> fs_returned (font_run tasks evs st) = Some b.
Proof.
  induction evs as [|[t ev] evs IH]; intros st b Hsome; cbn [font_run].
  - cbn [race_settled fs_returned]. by rewrite Hsome.
  - apply IH, font_step_sticky.
    destruct (raceTimeout <=? t)%N; [|done].
    cbn [race_settled fs_returned]. by rewrite Hsome.
Qed.

(** The promise [embedFonts] returns is settled whatever happens. *)
Lemma font_run_returns (tasks : list font_task) (evs : list (N * font_event)) :
  forall st, is_Some (fs_returned (font_run tasks evs st)).
Proof.
  induction evs as [|[t ev] evs IH]; intros st; cbn [font_run]; [|done].
  cbn [race_settled fs_returned]. eauto.
Qed.



(** When no more events are left than tasks are unsettled, all of them
    early, the text returned is the text after the last of them. *)
Lemma font_run_all_early (tasks : list font_task)
    (evs : list (N * font_event)) :
  all_early evs ->
  forall st,
    fs_returned st = None ->
    size (fs_settled st) + length evs <= length tasks ->
    fs_returned (font_run tasks evs st)
    = Some (fs_cssText (font_steps tasks evs st)).
Proof.
  induction 1 as [|[t ev] evs Ht Hevs IH]; intros st Hnone Hsize.
  - cbn [font_run race_settled fs_returned]. by rewrite Hnone.
  - cbn [font_run]. rewrite font_steps_cons. cbn [fst] in Ht.
    apply N.leb_gt in Ht. rewrite Ht.
    pose proof (font_step_settled tasks st ev) as Hsub.
    apply subseteq_size in Hsub.
    rewrite size_union_alt, size_singleton in Hsub.
    assert (Hle : size (fs_settled (font_step tasks st ev))
                  <= S (size (fs_settled st))).
    { assert (Hd : size (fs_settled st ∖ {[event_task ev]})
                   <= size (fs_settled st))
        by (apply subseteq_size; set_solver).
      lia. }
    cbn [length] in Hsize.
    destruct (font_step_returned tasks st ev Hnone) as [H1|[H1 H2]].
    + apply IH; [done|lia].
    + apply all_settled_size in H2.
      assert (evs = []) as -> by (destruct evs; [done|simpl in Hsize; lia]).
      cbn [font_run font_steps fold_left race_settled fs_returned].
      by rewrite H1.
Qed.


Lemma font_init_spec (raw : text) (tasks : list font_task) :
  fs_cssText (font_init raw tasks) = raw
  /\ fs_settled (font_init raw tasks) = ∅
  /\ (tasks <> [] -> fs_returned (font_init raw tasks) = None)
  /\ (tasks = [] -> fs_returned (font_init raw tasks) = Some raw).
Proof.
  unfold font_init. cbn [fs_settled].
  destruct tasks as [|t tasks]; cbn [length seq forallb]; [done|].
  rewrite bool_decide_eq_false_2 by set_solver. done.
Qed.

(** ** Segments and loads *)

Lemma text_eqb_eq (a b : text) : text_eqb a b = true <-> a = b.
Proof. unfold text_eqb. apply bool_decide_eq_true. Qed.

Lemma text_eqb_neq (a b : text) : text_eqb a b = false <-> a <> b.
Proof. unfold text_eqb. apply bool_decide_eq_false. Qed.


Lemma slots_frozen (g q : text) (pairs : list (text * text)) :
  Forall (fun yp => fst yp <> q) pairs ->
  forall rest,
    slots_after pairs ((g, q) :: rest) = (g, q) :: slots_after pairs rest.
Proof.
  induction 1 as [|[y p] ps Hy _ IH]; intros rest; [done|].
  rewrite !slots_after_cons. cbn [fill_first fst snd] in *.
  assert (text_eqb q y = false) as -> by (apply text_eqb_neq; congruence).
  apply IH.
Qed.

Lemma slots_head (refs : list text) (pairs : list (text * text)) :
  pairs_in refs pairs ->
  forall g x rest,
    slots_after pairs ((g, x) :: rest)
    = match take_load x pairs with
      | Some (p, pairs') => (g, p) :: slots_after pairs' rest
      | None => (g, x) :: slots_after pairs rest
      end.
Proof.
  induction 1 as [|[y q] ps [Hy Hq] Hps IH]; intros g x rest; [done|].
  cbn [fst snd] in *. rewrite slots_after_cons.
  cbn [fill_first take_load fst snd].
  destruct (text_eqb x y) eqn:E.
  - apply text_eqb_eq in E. subst y.
    assert (text_eqb x x = true) as -> by by apply text_eqb_eq.
    apply slots_frozen. eapply Forall_impl; [exact Hps|].
    intros [y' q'] [Hy' _] Heq. cbn [fst] in *. by subst y'.
  - assert (text_eqb y x = false) as ->.
    { apply text_eqb_neq. apply text_eqb_neq in E. congruence. }
    rewrite IH. destruct (take_load x ps) as [[p ps']|]; done.
Qed.

Lemma take_load_some (x : text) (pairs : list (text * text)) :
  x ∈ map fst pairs ->
  exists p pairs',
    take_load x pairs = Some (p, pairs')
    /\ (x, p) ∈ pairs
    /\ map fst pairs ≡ₚ x :: map fst pairs'
    /\ (forall P : text * text -> Prop, Forall P pairs -> Forall P pairs').
Proof.
  induction pairs as [|[y q] ps IH]; cbn [map fst]; intros Hin.
  - by apply elem_of_nil in Hin.
  - cbn [take_load fst snd]. destruct (text_eqb y x) eqn:E.
    + apply text_eqb_eq in E. subst y. exists q, ps.
      split; [done|]. split; [by left|]. split; [done|].
      intros P HP. by inversion HP.
    + apply text_eqb_neq in E. apply elem_of_cons in Hin as [->|Hin]; [done|].
      destruct (IH Hin) as (p & ps' & -> & H1 & H2 & H3).
      exists p, ((y, q) :: ps'). split; [done|]. split; [by right|]. split.
      * cbn [map fst]. rewrite H2. apply Permutation_swap.
      * intros P HP. inversion HP; subst. constructor; [done|by apply H3].
Qed.


(** When every task has loaded, in whatever order, and a reference always
    gets the same payload, every segment holds the payload of its
    reference. *)
Lemma slots_all_loaded (refs : list text) (pay : text -> text) :
  forall segs pairs,
    pairs_in refs pairs ->
    Forall (fun yq => snd yq = pay (fst yq)) pairs ->
    map fst pairs ≡ₚ map snd segs ->
    slots_after pairs segs = map (fun seg => (fst seg, pay (snd seg))) segs.
Proof.
  induction segs as [|[g x] rest IH]; intros pairs Hin Hpay Hperm.
  - cbn [map] in Hperm. apply Permutation_nil_r in Hperm.
    by destruct pairs.
  - cbn [map fst snd] in *. rewrite (slots_head refs) by done.
    assert (Hx : x ∈ map fst pairs) by (rewrite Hperm; by left).
    destruct (take_load_some x pairs Hx) as (p & ps' & -> & H1 & H2 & H3).
    rewrite Forall_forall in Hpay. specialize (Hpay _ H1) as Hp.
    cbn [fst snd] in Hp. subst p. f_equal. apply IH.
    + by apply H3.
    + apply H3. by rewrite Forall_forall.
    + rewrite H2 in Hperm. by apply Permutation_cons_inv in Hperm.
Qed.


Lemma map_nth_seq (l : list text) :
  map (fun i => nth i l []) (seq 0 (length l)) = l.
Proof.
  induction l as [|x l IH]; [done|].
  cbn [length seq map nth]. f_equal.
  rewrite <- seq_shift, map_map. exact IH.
Qed.

Lemma loads_load_events (refs : list text) (pay : text -> text)
    (times : nat -> N) (order : list nat) :
  Forall (fun i => i < length refs) order ->
  loads refs (load_events refs pay times order)
  = map (fun i => (nth i refs [], pay (nth i refs []))) order.
Proof.
  induction 1 as [|i order Hi _ IH]; [done|].
  cbn [load_events map]. rewrite loads_cons.
  fold (load_events refs pay times order). rewrite IH.
  destruct (nth_lookup_or_length refs i []) as [Hn|Hn]; [|lia].
  by rewrite Hn.
Qed.

Lemma loads_ok_load_events (refs : list text) (pay : text -> text)
    (times : nat -> N) (order : list nat) :
  (forall x, payload_ok (pay x) = true) ->
  loads_ok (load_events refs pay times order) = true.
Proof.
  intros Hpay. unfold loads_ok, load_events. apply forallb_forall.
  intros [t ev] Hin. apply in_map_iff in Hin as (i & [= <- <-] & _).
  apply Hpay.
Qed.

Lemma all_early_load_events (refs : list text) (pay : text -> text)
    (times : nat -> N) (order : list nat) :
  (forall i, (times i < raceTimeout)%N) ->
  all_early (load_events refs pay times order).
Proof.
  intros Ht. unfold all_early, load_events. apply Forall_forall.
  intros [t ev] Hin. apply list_elem_of_In, in_map_iff in Hin
    as (i & [= <- <-] & _).
  apply Ht.
Qed.

Lemma pairs_in_load_events (refs : list text) (pay : text -> text)
    (order : list nat) :
  Forall (fun i => i < length refs) order ->
  (forall x, x ∈ refs -> pay x ∉ refs) ->
  pairs_in refs (map (fun i => (nth i refs [], pay (nth i refs []))) order)
  /\ Forall (fun yq => snd yq = pay (fst yq))
       (map (fun i => (nth i refs [], pay (nth i refs []))) order).
Proof.
  intros Hord Hpay. unfold pairs_in. rewrite !Forall_forall. split.
  - intros [y q] Hin. apply list_elem_of_In, in_map_iff in Hin
      as (i & [= <- <-] & Hi).
    rewrite Forall_forall in Hord. apply list_elem_of_In, Hord in Hi.
    assert (nth i refs [] ∈ refs)
      by (apply list_elem_of_In, nth_In; done).
    cbn [fst snd]. split; [done|by apply Hpay].
  - intros [y q] Hin. apply list_elem_of_In, in_map_iff in Hin
      as (i & [= <- <-] & _). done.
Qed.

(** ** The font embedding orchestrator *)

Section EmbedFonts.

Variable anchor_href : option text -> text -> text.
Variable URL_href : text -> text -> option text.
Variables (meta : CssMetadata) (document : nat) (window : Window).
Variable docs : gmap nat html_document.

Lemma embedFonts_unfold (raw : text) (tasks : list font_task)
    (docs' : gmap nat html_document) (evs : list (N * font_event)) :
  cssText meta = Fulfilled raw ->
  loadFonts anchor_href URL_href (css_url meta) document window
    (regexp_match_all fontLocRegex raw) 0 docs = Some (tasks, docs') ->
  exists text,
    fs_returned (font_run tasks evs (font_init raw tasks)) = Some text
    /\ embedFonts anchor_href URL_href meta document window docs evs
       = Fulfilled text.
Proof.
  intros Hraw Hload. unfold embedFonts. rewrite Hraw. cbn [promise_then].
  rewrite Hload.
  destruct (font_run_returns tasks evs (font_init raw tasks)) as [text Ht].
  exists text. by rewrite Ht.
Qed.

(** C1, as the code has it.  For a style sheet made of gaps and
    references [url(x)], where no gap and no [x] holds a further [url(], and
    for reader results without closing bracket, [url(] or [$]: the tasks
    are the references in their order; each load-end event replaces the
    first occurrence of its reference in the shared text, that is, fills
    the first segment that still holds it; and when every task has loaded
    before the timeout, with a payload that depends on the reference alone
    and is none of the references, the text returned has every reference,
    repeated ones included, replaced by its payload, whatever the order of
    the loads. *)
Theorem embedFonts_rewrites (segs : list (text * text)) (tail : text) :
  segs_ok segs tail = true ->
  cssText meta = Fulfilled (render segs tail) ->
  loadFonts anchor_href URL_href (css_url meta) document window
    (regexp_match_all fontLocRegex (render segs tail)) 0 docs <> None ->
  let refs := map snd segs in
  exists tasks docs',
    loadFonts anchor_href URL_href (css_url meta) document window
      (regexp_match_all fontLocRegex (render segs tail)) 0 docs
    = Some (tasks, docs')
    /\ map ft_loc tasks = map url_token refs
    /\ (forall evs,
          loads_ok evs = true ->
          fs_cssText (font_steps tasks evs (font_init (render segs tail) tasks))
          = render (slots_after (loads refs evs) segs) tail)
    /\ (forall pay times order,
          (forall x, payload_ok (pay x) = true) ->
          (forall x, x ∈ refs -> pay x ∉ refs) ->
          (forall i, (times i < raceTimeout)%N) ->
          order ≡ₚ seq 0 (length segs) ->
          embedFonts anchor_href URL_href meta document window docs
            (load_events refs pay times order)
          = Fulfilled
              (render (map (fun seg => (fst seg, pay (snd seg))) segs) tail)).
Proof.
  intros Hsegs Hraw Hload refs.
  destruct (loadFonts _ _ _ _ _ _ _ _) as [[tasks docs']|] eqn:E; [|done].
  exists tasks, docs'. split; [done|].
  assert (Hlocs : map ft_loc tasks = map url_token refs).
  { rewrite (loadFonts_locs _ _ _ _ _ _ _ _ _ _ E).
    rewrite fontLocs_render by done. subst refs. by rewrite map_map. }
  assert (Hrefs : Forall (fun x => ref_ok x = true) refs).
  { subst refs. clear -Hsegs. induction segs as [|[g y] rest IH]; [constructor|].
    apply segs_ok_cons in Hsegs as (_ & Hy & Hrest). constructor; auto. }
  assert (Hinit : fs_cssText (font_init (render segs tail) tasks)
                  = render segs tail) by apply font_init_spec.
  assert (Hsim : forall evs,
            loads_ok evs = true ->
            fs_cssText (font_steps tasks evs (font_init (render segs tail) tasks))
            = render (slots_after (loads refs evs) segs) tail).
  { intros evs Hev. by apply (font_steps_render tasks refs tail). }
  split; [done|]. split; [done|].
  intros pay times order Hpay Hfresh Htimes Horder.
  assert (Hlen : length tasks = length segs).
  { rewrite <- (length_map ft_loc tasks), Hlocs. subst refs.
    by rewrite !length_map. }
  assert (Hord : Forall (fun i => i < length refs) order).
  { apply Forall_forall. intros i Hi. rewrite Horder in Hi.
    apply elem_of_seq in Hi. subst refs. rewrite length_map. lia. }
  destruct (embedFonts_unfold _ _ _ (load_events refs pay times order) Hraw E)
    as (text & Hret & ->).
  f_equal.
  assert (Hfinal : fs_cssText (font_steps tasks (load_events refs pay times order)
                                 (font_init (render segs tail) tasks))
                   = render (map (fun seg => (fst seg, pay (snd seg))) segs) tail).
  { rewrite Hsim by by apply loads_ok_load_events.
    rewrite loads_load_events by done.
    destruct (pairs_in_load_events refs pay order Hord Hfresh) as [Hp1 Hp2].
    rewrite (slots_all_loaded refs pay); [done|done|done|].
    rewrite map_map. cbn [fst]. rewrite Horder.
    subst refs. rewrite <- (length_map snd segs). by rewrite map_nth_seq. }
  destruct tasks as [|task tasks'] eqn:Et.
  - destruct (font_init_spec (render segs tail) []) as (_ & _ & _ & Hsome).
    rewrite (font_run_sticky [] _ _ _ (Hsome eq_refl)) in Hret.
    injection Hret as <-. destruct segs; [done|discriminate Hlen].
  - rewrite <- Et in *.
    destruct (font_init_spec (render segs tail) tasks) as (_ & Hset & Hnone & _).
    rewrite font_run_all_early in Hret.
    + injection Hret as <-. exact Hfinal.
    + by apply all_early_load_events.
    + apply Hnone. by rewrite Et.
    + rewrite Hset, size_empty. unfold load_events. rewrite length_map.
      rewrite Horder, length_seq. lia.
Qed.

End EmbedFonts.

Lemma embedFonts_rewrites_witness :
  segs_ok example_segs example_tail = true
  /\ cssText example_meta = Fulfilled (render example_segs example_tail)
  /\ exists tasks docs',
       loadFonts example_anchor_href example_URL_href (css_url example_meta)
         0 example_window
         (regexp_match_all fontLocRegex (render example_segs example_tail))
         0 ∅
       = Some (tasks, docs')
       /\ map ft_loc tasks = map url_token (map snd example_segs)
       /\ (forall evs,
             loads_ok evs = true ->
             fs_cssText
               (font_steps tasks evs
                  (font_init (render example_segs example_tail) tasks))
             = render (slots_after (loads (map snd example_segs) evs)
                         example_segs) example_tail)
       /\ (forall pay times order,
             (forall x, payload_ok (pay x) = true) ->
             (forall x, x ∈ map snd example_segs ->
                        pay x ∉ map snd example_segs) ->
             (forall i, (times i < raceTimeout)%N) ->
             order ≡ₚ seq 0 (length example_segs) ->
             embedFonts example_anchor_href example_URL_href example_meta
               0 example_window ∅
               (load_events (map snd example_segs) pay times order)
             = Fulfilled
                 (render (map (fun seg => (fst seg, pay (snd seg)))
                            example_segs) example_tail)).
Proof.
  split; [vm_compute; reflexivity|]. split; [reflexivity|].
  apply (embedFonts_rewrites example_anchor_href example_URL_href
           example_meta 0 example_window ∅ example_segs example_tail).
  - vm_compute; reflexivity.
  - reflexivity.
  - vm_compute. discriminate.
Defined.

(** The same reference twice: each of the two tasks replaces the first
    occurrence that is left, so both are rewritten. *)
Lemma embedFonts_duplicates_all_rewritten :
  embedFonts example_anchor_href example_URL_href
    {| css_url := js "https://fonts.test/s.css";
       cssText := Fulfilled (js "a{src:url(a.woff)} b{src:url(a.woff)}") |}
    0 example_window ∅
    [ (10%N, ReaderLoadEnd 0 (Some (js "data:P")));
      (20%N, ReaderLoadEnd 1 (Some (js "data:P"))) ]
  = Fulfilled (js "a{src:url(data:P)} b{src:url(data:P)}").
Proof. vm_compute. reflexivity. Qed.

(** ** The race against the timer *)




Section Race.

Variable anchor_href : option text -> text -> text.
Variable URL_href : text -> text -> option text.
Variables (meta : CssMetadata) (document : nat) (window : Window).
Variable docs : gmap nat html_document.


End Race.



(** ** Data URLs *)

Lemma isDataUrl_prefix (url : text) :
  isDataUrl url = prefix_b (js "data:") url.
Proof.
  unfold isDataUrl, string_search.
  rewrite (search_anchored dataRegex (Group 1 (Lit "data:"))) by reflexivity.
  unfold match_here. cbn [re_ignoreCase re_source dataRegex Cat].
  rewrite rmatch_Seq, rmatch_Bol. cbn [m_pos Nat.eqb].
  cbn [rmatch]. fold (Lit "data:"). rewrite rmatch_Lit, lit_prefix_exact.
  cbn [m_rest]. by destruct (prefix_b (js "data:") url).
Qed.

(** X1: [isDataUrl] holds of exactly the texts that start with [data:],
    in lower case. *)
Theorem isDataUrl_spec (url : text) :
  isDataUrl url = startsWith url (js "data:").
Proof. apply isDataUrl_prefix. Qed.

Lemma after_first_comma_app (a b : text) :
  has_char "," a = false ->
  after_first_comma (a ++ ","%char :: b) = Some b.
Proof.
  induction a as [|c a IH]; intros Ha; cbn [app after_first_comma].
  - done.
  - cbn [has_char] in Ha. apply orb_false_elim in Ha as [Hc Ha].
    rewrite Ascii.eqb_sym, Hc. by apply IH.
Qed.

Lemma upto_comma_none (s : text) :
  has_char "," s = false -> upto_comma s = s.
Proof.
  induction s as [|c s IH]; intros Hs; [done|].
  cbn [has_char] in Hs. apply orb_false_elim in Hs as [Hc Hs].
  cbn [upto_comma]. rewrite Ascii.eqb_sym, Hc. by rewrite IH.
Qed.

Lemma parseDataUrlContent_makeDataUrl (content mimeType : text) :
  has_char "," mimeType = false ->
  has_char "," content = false ->
  isDataUrl (makeDataUrl content mimeType) = true
  /\ parseDataUrlContent (makeDataUrl content mimeType) = Some content.
Proof.
  intros Hm Hc. split.
  - by rewrite isDataUrl_prefix.
  - unfold parseDataUrlContent. rewrite split_comma_second.
    unfold makeDataUrl.
    replace (js "data:" ++ mimeType ++ js ";base64," ++ content)
      with ((js "data:" ++ mimeType ++ js ";base64") ++ ","%char :: content)
      by (by rewrite <- !app_assoc).
    rewrite after_first_comma_app.
    + cbn [fmap option_fmap option_map]. by rewrite upto_comma_none.
    + rewrite !has_char_app, Hm. reflexivity.
Qed.

(** X2: a data URL made by [makeDataUrl] from a MIME type and a content
    without comma is recognised by [isDataUrl], and [parseDataUrlContent]
    gives the content back. *)
Theorem makeDataUrl_round_trip (content mimeType : text) :
  has_char "," mimeType = false ->
  has_char "," content = false ->
  isDataUrl (makeDataUrl content mimeType) = true
  /\ parseDataUrlContent (makeDataUrl content mimeType) = Some content.
Proof. apply parseDataUrlContent_makeDataUrl. Qed.

Lemma makeDataUrl_round_trip_witness :
  has_char "," (js "image/png") = false
  /\ has_char "," (js "iVBORw0KGgo=") = false
  /\ isDataUrl (makeDataUrl (js "iVBORw0KGgo=") (js "image/png")) = true
  /\ parseDataUrlContent (makeDataUrl (js "iVBORw0KGgo=") (js "image/png"))
     = Some (js "iVBORw0KGgo=").
Proof.
  split; [reflexivity|]. split; [reflexivity|].
  apply (makeDataUrl_round_trip (js "iVBORw0KGgo=") (js "image/png"));
    reflexivity.
Defined.

(** ** Extensions and MIME types *)

(** A lazy star over one kind of character, in front of a continuation
    that fails unless the text has come to its end. *)
Lemma star_lazy_end (ic : bool) (a : regex) (ok : ascii -> bool)
    (k : mstate -> option mstate) :
  (forall x k', rmatch ic a x k' = step_char ok x k') ->
  (forall pos c t caps, k (MState pos (c :: t) caps) = None) ->
  forall fuel pos rest caps, length rest < fuel ->
    star_loop ic false a k fuel (MState pos rest caps)
    = if forallb ok rest then k (MState (pos + length rest) [] caps) else None.
Proof.
  intros Ha Hk. induction fuel as [|f IH]; intros pos rest caps Hlt;
    [simpl in Hlt; lia|].
  cbn [star_loop]. rewrite Ha. unfold step_char. cbn [m_rest m_pos m_caps].
  destruct rest as [|c t]; cbn [forallb length].
  - rewrite Nat.add_0_r. by destruct (k _).
  - rewrite Hk. cbn [or_else]. destruct (ok c); [|done]. cbn [andb].
    rewrite (proj2 (Nat.eqb_neq (S pos) pos)) by lia.
    rewrite IH by (simpl in Hlt; lia).
    by replace (S pos + length t) with (pos + S (length t)) by lia.
Qed.

Lemma ext_char_spec (c : ascii) :
  class_match false true [IChar "."; IChar "/"] c = ext_char c.
Proof.
  unfold class_match, ext_char, citem_match, citem_mem. cbn [existsb].
  rewrite orb_false_r. by destruct (Ascii.eqb "." c), (Ascii.eqb "/" c).
Qed.

Lemma match_here_extension (pos : nat) (rest : text) :
  match_here_end extensionRegex pos rest
  = match rest with
    | c :: t =>
        if Ascii.eqb "." c && forallb ext_char t
        then Some (MatchResult pos (S pos + length t)
                     [(1, (S pos, S pos + length t))])
        else None
    | [] => None
    end.
Proof.
  unfold match_here_end. cbn [re_ignoreCase re_source extensionRegex Cat].
  rewrite rmatch_Seq, rmatch_Chr. unfold step_char. cbn [m_rest m_pos m_caps].
  destruct rest as [|c t]; [done|].
  unfold citem_match, citem_mem. destruct (Ascii.eqb "." c); [|done].
  cbn [andb rmatch_Seq]. change (rmatch false (Group 1 ?a) ?x ?k)
    with (rmatch false a x
            (fun y => k (MState (m_pos y) (m_rest y)
                           ((1, (m_pos x, m_pos y)) :: m_caps y)))).
  rewrite rmatch_Star. cbn [m_rest m_pos m_caps].
  rewrite (star_lazy_end false _ ext_char).
  - by destruct (forallb ext_char t).
  - intros x k'. cbn [rmatch]. unfold step_char.
    destruct (m_rest x) as [|d r]; [done|]. by rewrite ext_char_spec.
  - done.
  - lia.
Qed.

Lemma search_extension (url : text) :
  forall pre rest,
    url = pre ++ rest ->
    match search_end extensionRegex (length pre) rest with
    | Some match_ => default [] (capture url match_ 1)
    | None => []
    end
    = default [] (ext_of rest).
Proof.
  intros pre rest. revert pre.
  induction rest as [|c t IH]; intros pre ->; [done|].
  cbn [search_end ext_of]. rewrite match_here_extension.
  destruct (Ascii.eqb "." c && forallb ext_char t).
  - unfold capture. cbn [mr_caps List.find fst Nat.eqb default].
    unfold slice.
    replace (pre ++ c :: t) with ((pre ++ [c]) ++ t) by (by rewrite <- app_assoc).
    replace (S (length pre)) with (length (pre ++ [c]))
      by (rewrite length_app; simpl; lia).
    rewrite drop_app_length.
    replace (length (pre ++ [c]) + length t - length (pre ++ [c]))
      with (length t) by lia.
    by rewrite firstn_all.
  - specialize (IH (pre ++ [c])). rewrite length_app, Nat.add_1_r in IH.
    apply IH. by rewrite <- app_assoc.
Qed.

Lemma forallb_ext_char (s : text) :
  forallb ext_char s = negb (has_char "." s) && negb (has_char "/" s).
Proof.
  induction s as [|c s IH]; [done|].
  cbn [forallb has_char]. rewrite IH. unfold ext_char.
  destruct (Ascii.eqb "." c), (Ascii.eqb "/" c), (has_char "." s),
    (has_char "/" s); reflexivity.
Qed.

Lemma ext_of_after_last (s : text) :
  ext_of s
  = if has_char "." s && negb (has_char "/" (after_last "." s))
    then Some (after_last "." s) else None.
Proof.
  induction s as [|c t IH]; [done|].
  cbn [ext_of has_char after_last]. rewrite forallb_ext_char, IH.
  destruct (Ascii.eqb "." c), (has_char "." t) eqn:Ht; cbn [andb orb negb];
    done.
Qed.

Lemma getExtension_after_last (url : text) :
  getExtension url
  = if has_char "." url && negb (has_char "/" (after_last "." url))
    then after_last "." url else [].
Proof.
  unfold getExtension.
  pose proof (search_extension url [] url eq_refl) as H. cbn [length] in H.
  rewrite H, ext_of_after_last.
  by destruct (has_char "." url && negb (has_char "/" (after_last "." url))).
Qed.

(** X3: the extension [getExtension] finds is the text after the last dot
    of the URL, and the empty text when the URL has no dot or has a slash
    after its last dot; a query string or a fragment after the extension
    is part of it. *)
Theorem getExtension_spec (url : text) :
  getExtension url
  = if has_char "." url && negb (has_char "/" (after_last "." url))
    then after_last "." url else [].
Proof. apply getExtension_after_last. Qed.

(** Lower-casing turns no character into a dot or a slash, or a word
    character into another kind, and the other way round. *)
Lemma toLowerCase_unit_ext (c : ascii) :
  ext_char (toLowerCase_unit c) = ext_char c.
Proof. destruct c as [[] [] [] [] [] [] [] []]; reflexivity. Qed.

Lemma toLowerCase_unit_word (c : ascii) :
  is_word (toLowerCase_unit c) = is_word c.
Proof. destruct c as [[] [] [] [] [] [] [] []]; reflexivity. Qed.

Lemma toLowerCase_ext (s : text) :
  forallb ext_char (toLowerCase s) = forallb ext_char s.
Proof.
  induction s as [|c s IH]; [done|].
  cbn [toLowerCase map forallb]. fold (toLowerCase s).
  by rewrite toLowerCase_unit_ext, IH.
Qed.

Lemma toLowerCase_word (s : text) :
  forallb is_word (toLowerCase s) = forallb is_word s.
Proof.
  induction s as [|c s IH]; [done|].
  cbn [toLowerCase map forallb]. fold (toLowerCase s).
  by rewrite toLowerCase_unit_word, IH.
Qed.

Lemma after_last_app (c : ascii) (p e : text) :
  has_char c e = false -> after_last c (p ++ c :: e) = e.
Proof.
  intros He. induction p as [|d p IH]; cbn [app after_last].
  - by rewrite He, Ascii.eqb_refl.
  - rewrite has_char_app. cbn [has_char]. rewrite Ascii.eqb_refl.
    by rewrite orb_true_r.
Qed.

Lemma getExtension_app (path ext : text) :
  forallb ext_char ext = true -> getExtension (path ++ "."%char :: ext) = ext.
Proof.
  intros Hext. rewrite forallb_ext_char in Hext.
  apply andb_prop in Hext as [Hd Hs].
  apply negb_true_iff in Hd. apply negb_true_iff in Hs.
  rewrite getExtension_after_last, after_last_app by done.
  rewrite has_char_app. cbn [has_char]. rewrite Ascii.eqb_refl, Hs.
  by rewrite orb_true_r.
Qed.

(** X4: an extension in the table of [mimes] gives its MIME type, in
    whatever case it is written and whatever stands in front of the last
    dot. *)
Theorem getMimeType_known (path ext key mime : text) :
  In (key, mime) mimes ->
  toLowerCase ext = key ->
  getMimeType (path ++ "."%char :: ext) = OwnString mime.
Proof.
  intros Hin Hlow.
  assert (Hext : forallb ext_char ext = true).
  { rewrite <- toLowerCase_ext, Hlow.
    repeat (destruct Hin as [[= <- <-]|Hin]; [reflexivity|]). destruct Hin. }
  unfold getMimeType. rewrite getExtension_app, Hlow by done.
  repeat (destruct Hin as [[= <- <-]|Hin]; [reflexivity|]). destruct Hin.
Qed.

Lemma getMimeType_known_witness :
  In (js "png", js "image/png") mimes
  /\ toLowerCase (js "PNG") = js "png"
  /\ getMimeType (js "https://host.test/img/LOGO" ++ "."%char :: js "PNG")
     = OwnString (js "image/png").
Proof.
  assert (H1 : In (js "png", js "image/png") mimes)
    by (do 4 right; left; reflexivity).
  assert (H2 : toLowerCase (js "PNG") = js "png") by reflexivity.
  split; [exact H1|]. split; [exact H2|].
  exact (getMimeType_known (js "https://host.test/img/LOGO") (js "PNG")
           (js "png") (js "image/png") H1 H2).
Defined.

Lemma get_member_nonword (key : text) :
  forallb is_word key = false -> get_member mimes key = NoMember.
Proof.
  intros Hkey. unfold get_member.
  destruct (List.find _ mimes) as [kv|] eqn:E.
  - apply find_some in E as [Hin Heq]. apply bool_decide_eq_true in Heq.
    subst key. exfalso.
    repeat (destruct Hin as [<-|Hin]; [discriminate Hkey|]). destruct Hin.
  - rewrite bool_decide_eq_false_2; [done|].
    intros Hin. apply list_elem_of_In in Hin.
    repeat (destruct Hin as [<-|Hin]; [discriminate Hkey|]). destruct Hin.
Qed.

(** X5: [getMimeType] gives the empty text for a URL without extension,
    and for one whose extension holds a character that is no letter, digit
    or underscore, as a query string or a fragment after the file name
    makes it. *)
Theorem getMimeType_no_type (url : text) :
  getExtension url = [] \/ forallb is_word (getExtension url) = false ->
  getMimeType url = OwnString [].
Proof.
  intros [Hnil|Hword]; unfold getMimeType.
  - by rewrite Hnil.
  - rewrite get_member_nonword; [done|]. by rewrite toLowerCase_word.
Qed.

Lemma getMimeType_no_type_witness :
  (getExtension (js "https://host.test/logo.png?v=1") = []
   \/ forallb is_word (getExtension (js "https://host.test/logo.png?v=1"))
      = false)
  /\ getMimeType (js "https://host.test/logo.png?v=1") = OwnString [].
Proof.
  assert (H : getExtension (js "https://host.test/logo.png?v=1") = []
              \/ forallb is_word
                   (getExtension (js "https://host.test/logo.png?v=1"))
                 = false) by (right; reflexivity).
  split; [exact H|].
  exact (getMimeType_no_type (js "https://host.test/logo.png?v=1") H).
Defined.

(** ** Class names *)

Lemma decimal_inj (a b : N) : decimal a = decimal b -> a = b.
Proof.
  unfold decimal, js. intros H.
  apply (f_equal string_of_list_ascii) in H.
  rewrite !string_of_list_ascii_of_string in H.
  apply (f_equal NilEmpty.uint_of_string) in H.
  rewrite !NilEmpty.usu in H. injection H as H.
  apply (f_equal N.of_uint) in H. by rewrite !Unsigned.of_to in H.
Qed.

Lemma slice_last_length (k : nat) (s : text) :
  k <= length s -> length (slice_last k s) = k.
Proof. intros Hk. unfold slice_last. rewrite length_drop. lia. Qed.

Lemma random_length (n : Z) : length (random n) = 4.
Proof.
  unfold random. apply slice_last_length. rewrite length_app. simpl. lia.
Qed.

(** Every later name carries a larger counter. *)
Lemma uuids_later (draws : list Z) :
  forall counter name,
    (counter + N.of_nat (length draws) <= 2 ^ 53)%N ->
    In name (uuids draws counter) ->
    exists r c,
      name = js "u" ++ r ++ decimal c /\ length r = 4 /\ (counter < c)%N.
Proof.
  induction draws as [|n draws IH]; intros counter name Hlen Hin; [done|].
  cbn [uuids uuid] in Hin. cbn [length] in Hlen.
  assert (Hinc : increment counter = (counter + 1)%N).
  { unfold increment. destruct (N.ltb_spec counter (2 ^ 53)); [done|lia]. }
  rewrite Hinc in Hin. destruct Hin as [<-|Hin].
  - exists (random n), (counter + 1)%N.
    split; [done|]. split; [apply random_length|lia].
  - apply IH in Hin as (r & c & -> & Hr & Hc); [|lia].
    exists r, c. split; [done|]. split; [done|lia].
Qed.

Lemma uuids_NoDup (draws : list Z) (counter : N) :
  (counter + N.of_nat (length draws) <= 2 ^ 53)%N ->
  NoDup (uuids draws counter).
Proof.
  revert counter. induction draws as [|n draws IH]; intros counter Hlen;
    [constructor|].
  cbn [uuids uuid]. cbn [length] in Hlen.
  assert (Hinc : increment counter = (counter + 1)%N).
  { unfold increment. destruct (N.ltb_spec counter (2 ^ 53)); [done|lia]. }
  rewrite Hinc. constructor.
  - intros Hin. apply list_elem_of_In, uuids_later in Hin
      as (r & c & Heq & Hr & Hc); [|lia].
    cbn [js list_ascii_of_string app] in Heq. injection Heq as Heq.
    apply app_inj_1 in Heq as [_ Heq]; [|by rewrite random_length].
    apply decimal_inj in Heq. lia.
  - apply IH. lia.
Qed.

(** X6: the class names of successive calls of [uuid] are pairwise
    distinct, whatever [Math.random] delivers, as long as the counter stays
    below 2^53. *)
Theorem uuids_distinct (draws : list Z) (counter : N) :
  (counter + N.of_nat (length draws) <= 2 ^ 53)%N ->
  NoDup (uuids draws counter).
Proof. apply uuids_NoDup. Qed.

Lemma uuids_distinct_witness :
  (0 + N.of_nat (length [0; 0; 1679615]%Z) <= 2 ^ 53)%N
  /\ NoDup (uuids [0; 0; 1679615]%Z 0).
Proof.
  assert (H : (0 + N.of_nat (length [0; 0; 1679615]%Z) <= 2 ^ 53)%N)
    by (vm_compute; discriminate).
  split; [exact H|]. exact (uuids_distinct [0; 0; 1679615]%Z 0%N H).
Defined.

Lemma digit36_spec (d : N) :
  (d < 36)%N -> is_digit36 (digit36 d) = true /\ digit36_value (digit36 d) = d.
Proof.
  intros Hd. rewrite <- (N2Nat.id d). assert (Hk : N.to_nat d < 36) by lia.
  clear Hd. revert Hk. generalize (N.to_nat d). intros k Hk.
  do 36 (destruct k as [|k]; [split; reflexivity|]). lia.
Qed.

Lemma value36_app (a b : text) :
  value36 (a ++ b)
  = fold_left (fun v c => (36 * v + digit36_value c)%N) b (value36 a).
Proof. unfold value36. by rewrite fold_left_app. Qed.

(** The digits [digits36] puts in front of [acc]: they stand for [n], and
    there are no more of them than [n] needs. *)
Lemma digits36_spec (fuel : nat) :
  forall n acc,
    (n < 2 ^ N.of_nat fuel)%N ->
    exists ds,
      digits36 fuel n acc = ds ++ acc
      /\ forallb is_digit36 ds = true
      /\ value36 ds = n
      /\ forall k, 0 < k -> (n < 36 ^ N.of_nat k)%N -> length ds <= k.
Proof.
  induction fuel as [|f IH]; intros n acc Hn.
  - exists []. assert (n = 0%N) as -> by (simpl in Hn; lia).
    repeat split; intros; simpl; lia.
  - cbn [digits36].
    assert (Hmod : (n mod 36 < 36)%N) by (apply N.mod_lt; lia).
    destruct (digit36_spec _ Hmod) as [Hd Hv].
    destruct (N.eqb_spec (n / 36) 0) as [Hz|Hnz].
    + exists [digit36 (n mod 36)]. split; [done|].
      split; [by cbn [forallb]; rewrite Hd|]. split.
      * unfold value36. cbn [fold_left]. rewrite Hv.
        pose proof (N.div_mod' n 36). lia.
      * intros k Hk _. simpl. lia.
    + destruct (IH (n / 36)%N (digit36 (n mod 36) :: acc)) as
        (ds & Heq & Hall & Hval & Hlen).
      { rewrite Nat2N.inj_succ, N.pow_succ_r' in Hn.
        apply N.Div0.div_lt_upper_bound. lia. }
      exists (ds ++ [digit36 (n mod 36)]). split.
      { rewrite Heq. by rewrite <- app_assoc. }
      split.
      { rewrite forallb_app, Hall. cbn [forallb]. by rewrite Hd. }
      split.
      { rewrite value36_app, Hval. cbn [fold_left]. rewrite Hv.
        pose proof (N.div_mod' n 36). lia. }
      intros k Hk Hnk. rewrite length_app. cbn [length].
      destruct k as [|[|k]]; [lia| |].
      * exfalso. apply Hnz. apply N.div_small. simpl in Hnk. lia.
      * specialize (Hlen (S k)). 
        assert (length ds <= S k); [|lia]. apply Hlen; [lia|].
        rewrite (Nat2N.inj_succ (S k)), N.pow_succ_r' in Hnk.
        apply N.Div0.div_lt_upper_bound. lia.
Qed.

(** X7: for a draw between 0 and 36^4 - 1, the random part of a class
    name is the draw written with four digits in base 36, zeros in front
    where it is short. *)
Theorem random_spec (n : Z) :
  (0 <= n < 36 ^ 4)%Z ->
  length (random n) = 4
  /\ forallb is_digit36 (random n) = true
  /\ value36 (random n) = Z.to_N n.
Proof.
  intros Hn. split; [apply random_length|].
  unfold random, toString36.
  destruct (Z.ltb_spec n 0) as [?|_]; [lia|]. cbn [app].
  assert (Habs : Z.abs_N n = Z.to_N n) by lia. rewrite Habs.
  destruct (digits36_spec (S (N.to_nat (N.log2 (Z.to_N n)))) (Z.to_N n) [])
    as (ds & -> & Hall & Hval & Hlen).
  { rewrite Nat2N.inj_succ, N2Nat.id.
    destruct (N.eq_dec (Z.to_N n) 0%N) as [->|Hnz]; [reflexivity|].
    apply N.log2_spec. lia. }
  rewrite app_nil_r. specialize (Hlen 4). 
  assert (Hl : length ds <= 4).
  { apply Hlen; [lia|]. change (36 ^ N.of_nat 4)%N with (Z.to_N (36 ^ 4)). lia. }
  clear Hlen. rewrite <- Hval. clear Hval Habs Hn.
  destruct ds as [|a [|b [|c [|d [|e ds]]]]]; try (simpl in Hl; lia);
    cbn [forallb] in Hall |- *; unfold slice_last; simpl drop;
    cbn [forallb]; rewrite ?Hall; split; reflexivity.
Qed.

Lemma random_spec_witness :
  (0 <= 1295 < 36 ^ 4)%Z
  /\ length (random 1295) = 4
  /\ forallb is_digit36 (random 1295) = true
  /\ value36 (random 1295) = Z.to_N 1295.
Proof.
  assert (H : (0 <= 1295 < 36 ^ 4)%Z) by lia.
  split; [exact H|]. exact (random_spec 1295 H).
Defined.

(** ** Data URLs and the resolver *)

Lemma prefix_b_split (p s : text) :
  prefix_b p s = true -> s = p ++ drop (length p) s.
Proof.
  revert s. induction p as [|a p IH]; intros [|b s] H; try done.
  cbn [prefix_b] in H. apply andb_prop in H as [Hab H].
  apply Ascii.eqb_eq in Hab as ->. cbn [app length drop]. f_equal. by apply IH.
Qed.

(** X8: [resolveUrl] gives a data URL back as it is, whatever the base
    URL, and creates no document for it. *)
Theorem resolveUrl_data_url
    (anchor_href : option text -> text -> text)
    (url : text) (baseUrl : option text) (document : nat) (window : Window)
    (docs : gmap nat html_document) :
  isDataUrl url = true ->
  resolveUrl anchor_href url baseUrl document window docs = (url, docs).
Proof.
  rewrite isDataUrl_prefix. intros H. apply prefix_b_split in H.
  unfold resolveUrl. rewrite test_absolute, test_protocol_relative, test_scheme.
  rewrite H. generalize (drop (length (js "data:")) url). intros r.
  by destruct (is_scheme_absolute (js "data:" ++ r)).
Qed.

Lemma resolveUrl_data_url_witness :
  isDataUrl (js "data:font/woff2;base64,d09GMg==") = true
  /\ resolveUrl example_anchor_href (js "data:font/woff2;base64,d09GMg==")
       (Some (js "https://fonts.test/s.css")) 0 example_window ∅
     = (js "data:font/woff2;base64,d09GMg==", ∅).
Proof.
  assert (H : isDataUrl (js "data:font/woff2;base64,d09GMg==") = true)
    by reflexivity.
  split; [exact H|].
  exact (resolveUrl_data_url example_anchor_href
           (js "data:font/woff2;base64,d09GMg==")
           (Some (js "https://fonts.test/s.css")) 0 example_window ∅ H).
Defined.

(** ** SVG data URLs *)






(** ** The resource cache: keys and contents *)

Lemma getCacheKey_key (url : text) (includeQueryParams : bool) :
  no_line_terminator url ->
  getCacheKey url includeQueryParams
  = let key := if includeQueryParams then url else upto_char "?" url in
    if has_font_token key then after_last "/" key else key.
Proof.
  intros Hurl. unfold getCacheKey. cbv zeta.
  assert (Hkey : no_line_terminator
                   (if includeQueryParams then url else upto_char "?" url)).
  { destruct includeQueryParams; [done|].
    by apply upto_char_no_line_terminator. }
  rewrite replace_query by done. rewrite test_font.
  destruct (has_font_token _); [|done]. by rewrite replace_dir.
Qed.

Lemma contains_ci_suffix (p a s : text) :
  contains_ci p s = true -> contains_ci p (a ++ s) = true.
Proof.
  intros Hs. induction a as [|c a IH]; [done|].
  cbn [app contains_ci]. fold (contains_ci p (a ++ s)).
  rewrite IH. apply orb_true_r.
Qed.

Lemma has_font_token_suffix (a s : text) :
  has_font_token s = true -> has_font_token (a ++ s) = true.
Proof.
  unfold has_font_token. intros H.
  repeat (apply orb_prop in H as [H|H]);
    rewrite (contains_ci_suffix _ a s H); by rewrite ?orb_true_r.
Qed.

(** The key of a font file in a directory is the name of the file. *)
Lemma getCacheKey_font_file (dir file : text) (includeQueryParams : bool) :
  no_line_terminator dir -> no_line_terminator file ->
  has_char "?" dir = false -> has_char "?" file = false ->
  has_char "/" file = false ->
  has_font_token file = true ->
  getCacheKey (dir ++ "/"%char :: file) includeQueryParams = file.
Proof.
  intros Hd Hf Hqd Hqf Hsf Htok.
  rewrite getCacheKey_key.
  - rewrite upto_char_no_char.
    + cbv zeta.
      replace (if includeQueryParams then dir ++ "/"%char :: file
               else dir ++ "/"%char :: file) with (dir ++ "/"%char :: file)
        by (by destruct includeQueryParams).
      rewrite (has_font_token_suffix dir ("/"%char :: file)).
      * by apply after_last_app.
      * by apply (has_font_token_suffix ["/"%char] file).
    + rewrite has_char_app. cbn [has_char]. by rewrite Hqd, Hqf.
  - unfold no_line_terminator in *. apply Forall_app. split; [done|].
    constructor; [reflexivity|done].
Qed.

(** X10: two font URLs without query string that end with the same file
    name have that name as their cache key, whatever stands in front of it:
    after a call for the first one, a call for the second one gets the
    promise of the first and issues no request. *)
Theorem getBlobFromURL_font_file_name (dir1 dir2 file : text)
    (options1 options2 : Options) (w : world) (evs : list cache_event) :
  no_line_terminator dir1 -> no_line_terminator dir2 ->
  no_line_terminator file ->
  has_char "?" dir1 = false -> has_char "?" dir2 = false ->
  has_char "?" file = false -> has_char "/" file = false ->
  has_font_token file = true ->
  let url1 := dir1 ++ "/"%char :: file in
  let url2 := dir2 ++ "/"%char :: file in
  let p := fst (getBlobFromURL url1 options1 w) in
  let w1 := fst (run evs (snd (getBlobFromURL url1 options1 w))) in
  cache_key url1 options1 = file
  /\ cache_key url2 options2 = file
  /\ getBlobFromURL url2 options2 w1 = (p, w1).
Proof.
  intros Hd1 Hd2 Hf Hq1 Hq2 Hqf Hsf Htok url1 url2 p w1.
  assert (H1 : cache_key url1 options1 = file)
    by (by apply getCacheKey_font_file).
  assert (H2 : cache_key url2 options2 = file)
    by (by apply getCacheKey_font_file).
  split; [done|]. split; [done|].
  apply getBlobFromURL_hit. rewrite H2, <- H1.
  apply run_cached. apply getBlobFromURL_caches.
Qed.

Lemma getBlobFromURL_font_file_name_witness :
  let options := {| includeQueryParams := None; cacheBust := None;
                    imagePlaceholder := None |} in
  let url1 := js "https://a.test/fonts" ++ "/"%char :: js "regular.woff2" in
  let url2 := js "https://b.test/other" ++ "/"%char :: js "regular.woff2" in
  let p := fst (getBlobFromURL url1 options empty_world) in
  let w1 := fst (run [] (snd (getBlobFromURL url1 options empty_world))) in
  cache_key url1 options = js "regular.woff2"
  /\ cache_key url2 options = js "regular.woff2"
  /\ getBlobFromURL url2 options w1 = (p, w1).
Proof.
  intros options.
  apply (getBlobFromURL_font_file_name (js "https://a.test/fonts")
           (js "https://b.test/other") (js "regular.woff2")
           options options empty_world []);
    try reflexivity;
    unfold no_line_terminator; by repeat constructor.
Defined.

(** The chain of a first call comes to its end. *)
Lemma getBlobFromURL_settled (url : text) (options : Options) (w : world)
    (o : fetch_outcome) (evs1 : list cache_event) :
  world_ok w ->
  cache w !! cache_key url options = None ->
  (forall o', Settle (fst (getBlobFromURL url options w)) o' ∉ evs1) ->
  let p := fst (getBlobFromURL url options w) in
  let w1 := snd (getBlobFromURL url options w) in
  promises (fst (run (evs1 ++ [Settle p o]) w1)) !! p
  = Some (Fulfilled (deferred_value options o)).
Proof.
  intros Hok Hmiss Hno p w1.
  pose proof (getBlobFromURL_miss url options w Hmiss) as Hcall.
  simpl in Hcall.
  assert (Hp : p = fresh (dom (promises w))) by (subst p; by rewrite Hcall).
  assert (Hw1 : w1 = snd (getBlobFromURL url options w)) by done.
  rewrite Hcall in Hw1. simpl in Hw1. rewrite <- Hp in Hw1.
  assert (Hpend : promises w1 !! p = Some Pending).
  { rewrite Hw1. simpl. by rewrite lookup_insert_eq. }
  assert (Hreq : request_of p w1
                 = Some {| req_url := request_url url options (now w);
                           req_promise := p; req_options := options |}).
  { rewrite Hw1. unfold request_of. simpl. rewrite find_app_none.
    - simpl. by rewrite Nat.eqb_refl.
    - apply find_none_fresh. eapply Forall_impl; [exact Hok|].
      intros r Hr Heq. simpl in Hr. rewrite Heq, Hp in Hr.
      by apply is_fresh in Hr. }
  destruct (run_keeps_unsettled evs1 w1 p _ _ Hpend Hreq Hno) as [Ha Hb].
  rewrite run_app. simpl. unfold settle. rewrite Ha, Hb. simpl.
  by rewrite lookup_insert_eq.
Qed.

(** X11: when the fetch of a first call succeeds and the reader delivers
    the data URL of a content without comma, the promise is fulfilled with
    that content and with the Content-Type header of the response, the
    empty text when there is none; it stays so whatever happens next. *)
Theorem getBlobFromURL_success (url : text) (options : Options) (w : world)
    (header : option text) (content mimeType : text)
    (evs1 evs2 : list cache_event) :
  world_ok w ->
  cache w !! cache_key url options = None ->
  (forall o', Settle (fst (getBlobFromURL url options w)) o' ∉ evs1) ->
  has_char "," mimeType = false ->
  has_char "," content = false ->
  let p := fst (getBlobFromURL url options w) in
  let w1 := snd (getBlobFromURL url options w) in
  let loaded := ReaderLoaded header (Some (makeDataUrl content mimeType)) in
  let metadata := {| blob := Some content; contentType := default [] header |} in
  let w2 := fst (run (evs1 ++ [Settle p loaded]) w1) in
  promises w2 !! p = Some (Fulfilled metadata)
  /\ promises (fst (run evs2 w2)) !! p = Some (Fulfilled metadata).
Proof.
  intros Hok Hmiss Hno Hm Hc p w1 loaded metadata w2.
  assert (H2 : promises w2 !! p = Some (Fulfilled metadata)).
  { subst w2 p w1. rewrite getBlobFromURL_settled by done.
    do 2 f_equal. subst loaded metadata. cbn [deferred_value].
    destruct (parseDataUrlContent_makeDataUrl content mimeType Hm Hc) as [_ ->].
    f_equal. by destruct header as [[|c h]|]. }
  split; [done|]. by apply run_keeps_settled.
Qed.

Lemma getBlobFromURL_success_witness :
  let url := js "https://host.test/logo.png" in
  let options := {| includeQueryParams := None; cacheBust := None;
                    imagePlaceholder := None |} in
  let p := fst (getBlobFromURL url options empty_world) in
  let w1 := snd (getBlobFromURL url options empty_world) in
  let loaded :=
    ReaderLoaded (Some (js "image/png"))
      (Some (makeDataUrl (js "iVBORw0KGgo=") (js "image/png"))) in
  let metadata := {| blob := Some (js "iVBORw0KGgo=");
                     contentType := default [] (Some (js "image/png")) |} in
  let w2 := fst (run ([] ++ [Settle p loaded]) w1) in
  promises w2 !! p = Some (Fulfilled metadata)
  /\ promises (fst (run [Call url options] w2)) !! p
     = Some (Fulfilled metadata).
Proof.
  intros url options.
  apply (getBlobFromURL_success url options empty_world
           (Some (js "image/png")) (js "iVBORw0KGgo=") (js "image/png")
           [] [Call url options]).
  - constructor.
  - reflexivity.
  - intros o' Hin. by apply elem_of_nil in Hin.
  - reflexivity.
  - reflexivity.
Defined.

(** ** Style sheets that are returned as they are *)

Section Unchanged.

Variable anchor_href : option text -> text -> text.
Variable URL_href : text -> text -> option text.
Variables (meta : CssMetadata) (document : nat) (window : Window).
Variable docs : gmap nat html_document.

(** X12: a style sheet in which no [url(] occurs has no reference to
    load: [embedFonts] is fulfilled with its text as it is, at once and
    whatever is delivered afterwards. *)
Theorem embedFonts_no_reference (raw : text)
    (evs : list (N * font_event)) :
  cssText meta = Fulfilled raw ->
  gap_ok raw = true ->
  embedFonts anchor_href URL_href meta document window docs evs
  = Fulfilled raw.
Proof.
  intros Hraw Hgap.
  assert (Hlocs : regexp_match_all fontLocRegex raw = []).
  { apply (fontLocs_render [] raw). unfold segs_ok. by cbn [forallb andb]. }
  unfold embedFonts. rewrite Hraw. cbn [promise_then]. rewrite Hlocs.
  cbn [loadFonts].
  destruct (font_init_spec raw []) as (_ & _ & _ & Hsome).
  by rewrite (font_run_sticky [] evs _ raw (Hsome eq_refl)).
Qed.




End Unchanged.

Lemma embedFonts_no_reference_witness :
  cssText {| css_url := js "https://fonts.test/s.css";
             cssText := Fulfilled (js "body{color:red}") |}
  = Fulfilled (js "body{color:red}")
  /\ gap_ok (js "body{color:red}") = true
  /\ embedFonts example_anchor_href example_URL_href
       {| css_url := js "https://fonts.test/s.css";
          cssText := Fulfilled (js "body{color:red}") |}
       0 example_window ∅ [(7%N, ReaderLoadEnd 0 (Some (js "data:x")))]
     = Fulfilled (js "body{color:red}").
Proof.
  split; [reflexivity|]. split; [reflexivity|].
  apply (embedFonts_no_reference example_anchor_href example_URL_href
           {| css_url := js "https://fonts.test/s.css";
              cssText := Fulfilled (js "body{color:red}") |}
           0 example_window ∅ (js "body{color:red}")); reflexivity.
Defined.


(** ** One fetch for each style sheet *)

Lemma fetchCSS_ok (url : text) (w : css_world) :
  css_world_ok w ->
  css_world_ok (snd (fetchCSS url w))
  /\ forall url',
       url' ∈ fetched_urls (snd (fetchCSS url w))
       <-> url' ∈ fetched_urls w \/ url' = url.
Proof.
  intros [Hnd Hdom]. unfold fetchCSS.
  destruct (cssFetchCache w !! url) as [p|] eqn:E; cbn [snd].
  - split; [done|]. intros url'. split; [by left|].
    intros [?| ->]; [done|]. apply Hdom. by rewrite E.
  - assert (Hnew : url ∉ fetched_urls w).
    { intros Hin. apply Hdom in Hin. rewrite E in Hin. by destruct Hin. }
    assert (Hurls : forall url',
              url' ∈ fetched_urls
                       {| cssFetchCache :=
                            <[url := fresh (dom (css_promises w))]>
                              (cssFetchCache w);
                          css_promises :=
                            <[fresh (dom (css_promises w)) := Pending]>
                              (css_promises w);
                          css_requests :=
                            css_requests w
                              ++ [(url, fresh (dom (css_promises w)))] |}
              <-> url' ∈ fetched_urls w \/ url' = url).
    { intros url'. unfold fetched_urls. cbn [css_requests].
      rewrite map_app. cbn [map fst]. rewrite elem_of_app, list_elem_of_singleton.
      done. }
    split; [|done]. split.
    + unfold fetched_urls. cbn [css_requests]. rewrite map_app. cbn [map fst].
      apply NoDup_app. split; [done|]. split; [|apply NoDup_singleton].
      intros x Hx Hx'. apply list_elem_of_singleton in Hx'. by subst x.
    + intros url'. rewrite Hurls. cbn [cssFetchCache].
      destruct (decide (url' = url)) as [->|Hne].
      * rewrite lookup_insert_eq. split; [eauto|by right].
      * rewrite lookup_insert_ne by done. rewrite <- Hdom. naive_solver.
Qed.

Lemma css_run_ok (evs : list css_event) :
  forall w,
    css_world_ok w ->
    css_world_ok (css_run evs w)
    /\ forall url,
         url ∈ fetched_urls (css_run evs w)
         <-> url ∈ fetched_urls w \/ CssCall url ∈ evs.
Proof.
  induction evs as [|[url|p o] evs IH]; intros w Hok; cbn [css_run].
  - split; [done|]. intros url. rewrite elem_of_nil. naive_solver.
  - destruct (fetchCSS_ok url w Hok) as [Hok' Hurls].
    destruct (IH _ Hok') as [H1 H2]. split; [done|].
    intros url'. rewrite H2, Hurls, elem_of_cons. naive_solver.
  - assert (Hok' : css_world_ok (css_settle p o w)).
    { unfold css_world_ok, fetched_urls.
      by rewrite css_settle_keeps_requests, css_settle_keeps_cache. }
    destruct (IH _ Hok') as [H1 H2]. split; [done|].
    intros url. rewrite H2, elem_of_cons. unfold fetched_urls.
    rewrite css_settle_keeps_requests. naive_solver.
Qed.

(** X14: whatever calls of [fetchCSS] are made after the module is
    loaded, none of them for a URL that names a member of
    [Object.prototype], and however their fetches end, fulfilled, rejected
    or never, each URL called for is fetched, and none of them twice. *)
Theorem fetchCSS_one_fetch (evs : list css_event) :
  own_keys_only evs = true ->
  NoDup (fetched_urls (css_run evs empty_css_world))
  /\ forall url,
       url ∈ fetched_urls (css_run evs empty_css_world)
       <-> CssCall url ∈ evs.
Proof.
  intros _.
  assert (Hok : css_world_ok empty_css_world).
  { split; [constructor|]. intros url. unfold fetched_urls. cbn.
    rewrite elem_of_nil, lookup_empty. split; [done|]. by intros [? ?]. }
  destruct (css_run_ok evs _ Hok) as [[Hnd _] Hurls]. split; [done|].
  intros url. rewrite Hurls. unfold fetched_urls. cbn. rewrite elem_of_nil.
  naive_solver.
Qed.

Lemma fetchCSS_one_fetch_witness :
  let evs := [CssCall (js "https://fonts.test/a.css");
              CssCall (js "https://fonts.test/b.css");
              CssSettle 0 (CssRejected (Error "TypeError" "Failed to fetch"));
              CssCall (js "https://fonts.test/a.css")] in
  own_keys_only evs = true
  /\ NoDup (fetched_urls (css_run evs empty_css_world))
  /\ forall url,
       url ∈ fetched_urls (css_run evs empty_css_world)
       <-> CssCall url ∈ evs.
Proof.
  intros evs. split; [reflexivity|].
  exact (fetchCSS_one_fetch evs eq_refl).
Defined.

(** ** Replacements, character by character *)

(** A global regexp that matches one character of a kind: replacing its
    matches by nothing is dropping the characters of that kind. *)
Lemma splice_unit (re : regexp) (ok : ascii -> bool) (s : text) :
  (forall x k,
     rmatch (re_ignoreCase re) (re_source re) x k = step_char ok x k) ->
  forall rest pre gap,
    s = pre ++ gap ++ rest ->
    splice re s [] (length pre)
      (scan_all re (length pre + length gap) rest 0)
    = gap ++ List.filter (fun c => negb (ok c)) rest.
Proof.
  intros Hre. induction rest as [|c t IH]; intros pre gap ->.
  - cbn [scan_all]. unfold match_here. rewrite Hre. unfold step_char.
    cbn [m_rest splice List.filter]. by rewrite app_nil_r, drop_app_length.
  - rewrite scan_all_here. unfold match_here. rewrite Hre. unfold step_char.
    cbn [m_rest m_pos m_caps List.filter]. destruct (ok c); cbn [negb].
    + cbn [mr_end splice mr_index m_pos m_caps].
      rewrite GetSubstitution_nil. cbn [app].
      replace (S (length pre + length gap) - (length pre + length gap) - 1)
        with 0 by lia.
      pose proof (IH (pre ++ gap ++ [c]) []) as IH'.
      replace (length (pre ++ gap ++ [c]) + length (@nil ascii))
        with (S (length pre + length gap)) in IH'
        by (rewrite !length_app; simpl; lia).
      replace (length (pre ++ gap ++ [c]))
        with (S (length pre + length gap)) in IH'
        by (rewrite !length_app; simpl; lia).
      rewrite IH' by (by rewrite <- !app_assoc).
      cbn [app]. f_equal. unfold slice. rewrite drop_app_length.
      replace (length pre + length gap - length pre) with (length gap) by lia.
      by rewrite take_app_length.
    + pose proof (IH pre (gap ++ [c])) as IH'.
      replace (length pre + length (gap ++ [c]))
        with (S (length pre + length gap)) in IH'
        by (rewrite !length_app; simpl; lia).
      rewrite IH' by (by rewrite <- !app_assoc). by rewrite <- app_assoc.
Qed.

Lemma regexp_replace_unit (re : regexp) (ok : ascii -> bool) (s : text) :
  re_global re = true ->
  (forall x k,
     rmatch (re_ignoreCase re) (re_source re) x k = step_char ok x k) ->
  regexp_replace re s [] = List.filter (fun c => negb (ok c)) s.
Proof.
  intros Hg Hre. unfold regexp_replace. rewrite Hg.
  exact (splice_unit re ok s Hre s [] [] eq_refl).
Qed.

(** What a replacement is made of: parts of the text, and the
    replacement. *)
Lemma splice_Forall (P : ascii -> Prop) (re : regexp) (s rep : text) :
  Forall P s -> Forall P rep -> has_char "$" rep = false ->
  forall ms from, Forall P (splice re s rep from ms).
Proof.
  intros Hs Hrep Hplain. induction ms as [|m ms IH]; intros from;
    cbn [splice].
  - by apply Forall_drop.
  - rewrite GetSubstitution_plain by done. rewrite !Forall_app.
    split; [|split; [done|apply IH]].
    unfold slice. by apply Forall_take, Forall_drop.
Qed.

Lemma regexp_replace_Forall (P : ascii -> Prop) (re : regexp) (s rep : text) :
  Forall P s -> Forall P rep -> has_char "$" rep = false ->
  Forall P (regexp_replace re s rep).
Proof.
  intros Hs Hrep Hplain. unfold regexp_replace.
  destruct (re_global re); [by apply splice_Forall|].
  destruct (search re 0 s); [by apply splice_Forall|done].
Qed.

(** [replaceAll] of one character by a text without [$]. *)
Lemma replaceAll_char (whole : text) (a : ascii) (rep : text) :
  has_char "$" rep = false ->
  forall rest pos,
    replaceAll_from whole [a] rep pos rest 0
    = flat_map (fun c => if Ascii.eqb a c then rep else [c]) rest.
Proof.
  intros Hplain. induction rest as [|c t IH]; intros pos; [done|].
  cbn [replaceAll_from prefix_b flat_map length].
  destruct (Ascii.eqb a c); cbn [andb].
  - rewrite GetSubstitution_plain by done. by rewrite IH.
  - by rewrite IH.
Qed.

(** ** Rules on one line *)

Lemma line_char_tab (c : ascii) :
  line_char c = true -> Ascii.eqb "009" c = false.
Proof.
  unfold line_char. rewrite negb_true_iff, !orb_false_iff.
  intros [_ H]. by rewrite Ascii.eqb_sym.
Qed.

(** The text in which [parseCSS] looks for its rules has no line break
    and no tab. *)
Lemma normalizeCSS_one_line (source : text) : one_line (normalizeCSS source).
Proof.
  unfold normalizeCSS, one_line. apply regexp_replace_Forall; [|by repeat constructor|done].
  unfold string_replaceAll. rewrite replaceAll_char by done.
  rewrite (regexp_replace_unit newlinesRegex
             (class_match false false [IChar "013"; IChar "010"]))
    by done.
  generalize (regexp_replace commentsRegex source []). intros s.
  induction s as [|c s IH]; [constructor|].
  cbn [List.filter].
  destruct (class_match false false [IChar "013"; IChar "010"] c) eqn:E;
    cbn [negb]; [done|].
  cbn [flat_map]. apply Forall_app. split; [|done].
  destruct (Ascii.eqb "009" c) eqn:Et; [by repeat constructor|].
  constructor; [|constructor].
  unfold class_match, citem_match, citem_mem in E. cbn [existsb xorb] in E.
  rewrite orb_false_r in E. apply orb_false_elim in E as [E1 E2].
  unfold line_char. rewrite (Ascii.eqb_sym c "010"), (Ascii.eqb_sym c "013"),
    (Ascii.eqb_sym c "009"), E1, E2, Et. reflexivity.
Qed.

Lemma span_text_one_line (s : text) (sp : nat * nat) :
  one_line s -> one_line (span_text s sp).
Proof.
  intros Hs. unfold span_text, slice, one_line. by apply Forall_take, Forall_drop.
Qed.

(** X15: every rule [parseCSS] returns is on one line: it has no line
    feed, no carriage return and no tab, whatever the source has. *)
Theorem parseCSS_one_line (source : text) :
  exists rules,
    parseCSS (Some source) = Some rules /\ Forall one_line rules.
Proof.
  unfold parseCSS.
  pose proof (normalizeCSS_one_line source) as Hnorm.
  set (css1 := normalizeCSS source) in *.
  destruct (keyframesLoop_spec css1 (2 + length css1) 0 [])
    as (spans1 & -> & _ & _); [lia|lia|].
  assert (Hcss2 : one_line (regexp_replace keyframesRegex css1 []))
    by (by apply regexp_replace_Forall).
  set (css2 := regexp_replace keyframesRegex css1 []) in *.
  destruct (unifiedLoop_spec css2 (2 + length css2) 0
              ([] ++ map (span_text css1) spans1))
    as (spans2 & -> & _ & _); [lia|lia|].
  eexists. split; [reflexivity|].
  rewrite !Forall_app. split; [split; [constructor|]|];
    apply Forall_forall; intros rule Hin;
    apply list_elem_of_In, in_map_iff in Hin as (sp & <- & _);
    by apply span_text_one_line.
Qed.

(** ** References and their URLs *)

Lemma rmatch_Class (ic neg : bool) (items : list citem) (x : mstate)
    (k : mstate -> option mstate) :
  rmatch ic (Class neg items) x k = step_char (class_match ic neg items) x k.
Proof. reflexivity. Qed.

Lemma rmatch_Eps (ic : bool) (x : mstate) (k : mstate -> option mstate) :
  rmatch ic Eps x k = k x.
Proof. reflexivity. Qed.

Lemma is_quote_spec (ic : bool) (c : ascii) :
  class_match false false [IChar "034"; IChar "'"] c = is_quote c.
Proof.
  unfold class_match, citem_match, citem_mem, is_quote. cbn [existsb xorb].
  by rewrite orb_false_r.
Qed.

Lemma url_char_spec (c : ascii) :
  class_match false true [IChar "034"; IChar "'"; IChar ")"] c = url_char c.
Proof.
  unfold class_match, citem_match, citem_mem, url_char, is_quote.
  cbn [existsb xorb]. rewrite orb_false_r.
  by destruct (Ascii.eqb "034" c), (Ascii.eqb "'" c), (Ascii.eqb ")" c).
Qed.

Lemma run_length_stop (ok : ascii -> bool) (x r : text) :
  forallb ok x = true ->
  match r with [] => True | c :: _ => ok c = false end ->
  run_length ok (x ++ r) = length x.
Proof.
  intros Hx Hr. induction x as [|c x IH]; cbn [app run_length length].
  - destruct r as [|c r]; [done|]. cbn [run_length]. by rewrite Hr.
  - cbn [forallb] in Hx. apply andb_prop in Hx as [Hc Hx].
    rewrite Hc. by rewrite IH.
Qed.

(** The end of the pattern: an optional quote and the closing bracket. *)
Lemma rmatch_url_close (x : mstate) :
  rmatch false
    (Seq (Opt true (Class false [IChar "034"; IChar "'"])) (Chr ")")) x Some
  = match m_rest x with
    | c :: t =>
        if is_quote c then
          match t with
          | d :: t' =>
              if Ascii.eqb ")" d
              then Some (MState (S (S (m_pos x))) t' (m_caps x)) else None
          | [] => None
          end
        else if Ascii.eqb ")" c
        then Some (MState (S (m_pos x)) t (m_caps x)) else None
    | [] => None
    end.
Proof.
  destruct x as [pos rest caps]. rewrite rmatch_Seq. cbn [Opt].
  rewrite rmatch_Alt. cbn [rmatch]. unfold step_char.
  cbn [m_rest m_pos m_caps].
  destruct rest as [|c t]; [done|]. rewrite is_quote_spec by exact false.
  unfold citem_match, citem_mem.
  destruct (is_quote c) eqn:Eq.
  - destruct t as [|d t'].
    + cbn [or_else]. destruct (Ascii.eqb ")" c) eqn:Ec; [|done].
      apply Ascii.eqb_eq in Ec. subst c. discriminate Eq.
    + destruct (Ascii.eqb ")" d); [done|]. cbn [or_else].
      destruct (Ascii.eqb ")" c) eqn:Ec; [|done].
      apply Ascii.eqb_eq in Ec. subst c. discriminate Eq.
  - done.
Qed.

Lemma match_here_regexUrl (q1 x q2 : text) :
  opt_quote q1 = true -> opt_quote q2 = true ->
  x <> [] -> forallb url_char x = true ->
  let s := js "url(" ++ q1 ++ x ++ q2 ++ js ")" in
  match_here regexUrl 0 s
  = Some (MatchResult 0 (length s)
            [(1, (4 + length q1, 4 + length q1 + length x))]).
Proof.
  intros Hq1 Hq2 Hne Hx s. subst s. unfold match_here.
  cbn [re_ignoreCase re_source regexUrl Cat].
  rewrite rmatch_Seq, rmatch_Lit. cbn [m_rest m_pos m_caps].
  change (lit_prefix false (js "url(") (js "url(" ++ q1 ++ x ++ q2 ++ js ")"))
    with true. cbn iota.
  change (drop (length (js "url(")) (js "url(" ++ q1 ++ x ++ q2 ++ js ")"))
    with (q1 ++ x ++ q2 ++ js ")").
  change (0 + length (js "url(")) with 4.
  assert (Hinner : forall pos caps,
            rmatch false
              (Seq (Group 1 (Plus true
                               (Class true [IChar "034"; IChar "'"; IChar ")"])))
                 (Seq (Opt true (Class false [IChar "034"; IChar "'"]))
                    (Chr ")")))
              (MState pos (x ++ q2 ++ js ")") caps) Some
            = Some (MState (pos + length x + length q2 + 1) []
                      ((1, (pos, pos + length x)) :: caps))).
  { intros pos caps. rewrite rmatch_Seq.
    change (rmatch false (Group 1 ?a) ?y ?k)
      with (rmatch false a y
              (fun z => k (MState (m_pos z) (m_rest z)
                             ((1, (m_pos y, m_pos z)) :: m_caps z)))).
    rewrite (rmatch_plus_run false _ url_char).
    - rewrite (run_length_stop url_char x (q2 ++ js ")") Hx).
      + destruct (Nat.eqb_spec (length x) 0) as [Hz|_];
          [by destruct x|].
        rewrite drop_app_length. cbn [m_pos m_rest m_caps].
        rewrite rmatch_url_close. cbn [m_rest m_pos m_caps].
        destruct q2 as [|q [|q' q2]]; cbn [opt_quote] in Hq2; [| |done].
        * cbn [app js list_ascii_of_string is_quote]. cbn.
          do 2 f_equal. lia.
        * cbn [app]. rewrite Hq2. cbn. do 2 f_equal. lia.
      + destruct q2 as [|q [|q' q2]]; cbn [opt_quote] in Hq2; [done| |done].
        cbn [app]. unfold url_char. by rewrite Hq2.
    - intros y k'. cbn [rmatch]. unfold step_char.
      destruct (m_rest y); [done|]. by rewrite url_char_spec.
    - intros pos0 c t caps0 Hc. cbn [m_pos m_rest m_caps].
      rewrite rmatch_url_close. cbn [m_rest].
      unfold url_char in Hc. apply andb_prop in Hc as [Hc1 Hc2].
      apply negb_true_iff in Hc1. apply negb_true_iff in Hc2.
      by rewrite Hc1, Hc2. }
  rewrite rmatch_Seq. cbn [Opt]. rewrite rmatch_Alt, rmatch_Class, rmatch_Eps.
  unfold step_char. cbn [m_rest m_pos m_caps].
  destruct q1 as [|q [|q' q1]]; cbn [opt_quote] in Hq1; [| |done].
  - cbn [app length]. rewrite Hinner. clear Hinner.
    destruct x as [|c x]; [done|]. cbn [app].
    rewrite is_quote_spec by exact false.
    cbn [forallb] in Hx. apply andb_prop in Hx as [Hc _].
    unfold url_char in Hc. apply andb_prop in Hc as [Hc1 _].
    apply negb_true_iff in Hc1. rewrite Hc1. cbn [or_else m_pos m_caps].
    cbn [length app js list_ascii_of_string]. rewrite !length_app.
    cbn [length]. replace (4 + 0) with 4 by lia. f_equal. f_equal. lia.
  - cbn [app length]. rewrite is_quote_spec by exact false. rewrite Hq1.
    rewrite Hinner. cbn [or_else m_pos m_caps].
    cbn [length app js list_ascii_of_string]. rewrite !length_app.
    cbn [length]. f_equal. f_equal. lia.
Qed.

Lemma GetSubstitution_group1 (m s : text) (pos : nat) (x : text) :
  GetSubstitution m s pos [Some x] (js "$1") = x.
Proof. cbv -[app]. apply app_nil_r. Qed.

Lemma regexp_replace_regexUrl (q1 x q2 : text) :
  opt_quote q1 = true -> opt_quote q2 = true ->
  x <> [] -> forallb url_char x = true ->
  regexp_replace regexUrl (quoted_ref q1 x q2) (js "$1") = x.
Proof.
  intros Hq1 Hq2 Hne Hx. unfold quoted_ref.
  pose proof (match_here_regexUrl q1 x q2 Hq1 Hq2 Hne Hx) as Hm.
  cbv zeta in Hm. unfold regexp_replace. cbn [re_global regexUrl].
  set (s := js "url(" ++ q1 ++ x ++ q2 ++ js ")") in *.
  assert (Hs : s = "u"%char :: (js "rl(" ++ q1 ++ x ++ q2 ++ js ")") ++ [])
    by (by rewrite app_nil_r).
  rewrite Hs at 2. rewrite scan_all_here, <- Hs, Hm. cbn [mr_end].
  replace (length s - 0 - 1)
    with (length (js "rl(" ++ q1 ++ x ++ q2 ++ js ")"))
    by (rewrite Hs at 1; cbn [length]; rewrite app_nil_r; lia).
  rewrite scan_all_skip.
  change (scan_all regexUrl _ [] 0) with (@nil rmatch_result).
  cbn [splice mr_index mr_end]. rewrite drop_all, app_nil_r.
  unfold captures.
  change (group_count (re_source regexUrl)) with 1. cbn [seq map].
  unfold capture. cbn [mr_caps List.find fst Nat.eqb].
  rewrite GetSubstitution_group1. unfold slice at 1. cbn [drop take app].
  unfold slice, s.
  replace (js "url(" ++ q1 ++ x ++ q2 ++ js ")")
    with ((js "url(" ++ q1) ++ x ++ q2 ++ js ")") by (by rewrite <- app_assoc).
  replace (4 + length q1) with (length (js "url(" ++ q1))
    by (by rewrite length_app).
  rewrite drop_app_length.
  replace (length (js "url(" ++ q1) + length x - length (js "url(" ++ q1))
    with (length x) by lia.
  by rewrite take_app_length.
Qed.

(** X16: the URL [embedFonts] takes from a reference is what stands
    between the brackets, without the single or double quote that may be
    in front of it and behind it. *)
Theorem font_url_unquoted (q1 x q2 : text) :
  opt_quote q1 = true -> opt_quote q2 = true ->
  x <> [] -> forallb url_char x = true ->
  regexp_replace regexUrl (quoted_ref q1 x q2) (js "$1") = x.
Proof. apply regexp_replace_regexUrl. Qed.

Lemma font_url_unquoted_witness :
  regexp_replace regexUrl
    (quoted_ref ["034"%char] (js "fonts/a b.woff2?v=1#x") ["'"%char]) (js "$1")
  = js "fonts/a b.woff2?v=1#x".
Proof.
  apply (font_url_unquoted ["034"%char] (js "fonts/a b.woff2?v=1#x")
           ["'"%char]); [reflexivity|reflexivity|discriminate|reflexivity].
Defined.

Lemma https_absolute (rest : text) :
  is_scheme_absolute (js "https://" ++ rest) = true.
Proof. reflexivity. Qed.

Section HttpsReferences.

Variable anchor_href : option text -> text -> text.
Variable URL_href : text -> text -> option text.

(** X17: for references to [https://] URLs, quoted or not, the tasks of
    [embedFonts] fetch these very URLs, in the order of the references:
    neither the URL of the style sheet nor the URL machinery of the host
    has a part in it, and no document is created. *)
Theorem loadFonts_https (meta_url : text) (document : nat) (window : Window)
    (refs : list (text * text * text)) :
  Forall (fun r =>
            opt_quote (fst (fst r)) = true /\ opt_quote (snd r) = true
            /\ forallb url_char (snd (fst r)) = true) refs ->
  forall index docs,
    loadFonts anchor_href URL_href meta_url document window
      (map (fun r => quoted_ref (fst (fst r))
                       (js "https://" ++ snd (fst r)) (snd r)) refs)
      index docs
    = Some (imap (fun i r =>
                    {| ft_loc := quoted_ref (fst (fst r))
                                   (js "https://" ++ snd (fst r)) (snd r);
                       ft_index := index + i;
                       ft_urlToFetch := js "https://" ++ snd (fst r) |}) refs,
            docs).
Proof.
  induction 1 as [|[[q1 x] q2] refs (Hq1 & Hq2 & Hx) _ IH]; intros index docs;
    [done|].
  cbn [map loadFonts fst snd] in *.
  rewrite regexp_replace_regexUrl; [|done|done|done|by cbn [forallb app js list_ascii_of_string]].
  unfold resolveUrl. rewrite test_absolute, https_absolute.
  change (startsWith (js "https://" ++ x) (js "https://")) with true.
  cbn [negb]. rewrite IH. cbn [imap]. rewrite Nat.add_0_r.
  do 3 f_equal. apply imap_ext. intros i r _. cbn. do 2 f_equal. lia.
Qed.

End HttpsReferences.

Lemma loadFonts_https_witness :
  loadFonts example_anchor_href example_URL_href
    (js "https://fonts.test/s.css") 0 example_window
    (map (fun r => quoted_ref (fst (fst r))
                     (js "https://" ++ snd (fst r)) (snd r))
       [([], js "cdn.test/a.woff2", []);
        (["'"%char], js "cdn.test/b.ttf", ["'"%char])])
    0 ∅
  = Some (imap (fun i r =>
                  {| ft_loc := quoted_ref (fst (fst r))
                                 (js "https://" ++ snd (fst r)) (snd r);
                     ft_index := 0 + i;
                     ft_urlToFetch := js "https://" ++ snd (fst r) |})
            [([], js "cdn.test/a.woff2", []);
             (["'"%char], js "cdn.test/b.ttf", ["'"%char])],
          ∅).
Proof.
  apply (loadFonts_https example_anchor_href example_URL_href).
  repeat constructor.
Defined.

(** ** Pseudo elements *)

Lemma rmatch_quotes (x : mstate) (k : mstate -> option mstate) :
  rmatch false (Alt (Chr "'") (Chr "034")) x k = step_char is_quote x k.
Proof.
  rewrite rmatch_Alt, !rmatch_Chr. unfold step_char, citem_match, citem_mem.
  destruct (m_rest x) as [|c t]; [done|]. unfold is_quote.
  destruct (Ascii.eqb "'" c) eqn:E1, (Ascii.eqb "034" c) eqn:E2;
    cbn [orb or_else]; try done.
  - by destruct (k _).
  - by destruct (k _).
Qed.

(** X18: [formatCSSText] puts the value of [content] between single
    quotes after the text of the style, with every single and double quote
    of the value left out and all its other characters kept in their
    order. *)
Theorem formatCSSText_quotes (style : CSSStyleDeclaration) :
  formatCSSText style
  = style_cssText style ++ js " content: '"
      ++ List.filter (fun c => negb (is_quote c))
           (getPropertyValue style (js "content"))
      ++ js "';".
Proof.
  unfold formatCSSText. cbv zeta.
  by rewrite (regexp_replace_unit quotesRegex is_quote _ eq_refl rmatch_quotes).
Qed.



(** ** The entry point *)

(** X20: with [fontEmbedCSS] given, be it the empty text, [embedWebFonts]
    does not look at the style sheets: it succeeds even for a node outside
    any document, and the style element with that text becomes the first
    child of the node, in front of the children it had.  Without it, a node
    outside any document makes it reject with the error of
    [parseWebFontRules], and a CSS text found makes it succeed in the same
    way. *)
Theorem embedWebFonts_style_first (CSSStyleSheet : Type)
    (getCSSRules : list CSSStyleSheet -> pstate (list CSSRule))
    (shouldEmbed : text -> bool)
    (embedResources : text -> option text -> Options -> pstate text)
    (clonedNode : Node CSSStyleSheet) (children : list child)
    (options : Options) :
  (forall css,
     embedWebFonts CSSStyleSheet getCSSRules shouldEmbed embedResources
       clonedNode children (Some css) options
     = Fulfilled (StyleElement css :: children))
  /\ (forall css,
        getWebFontCSS CSSStyleSheet getCSSRules shouldEmbed embedResources
          clonedNode options = Fulfilled css ->
        embedWebFonts CSSStyleSheet getCSSRules shouldEmbed embedResources
          clonedNode children None options
        = Fulfilled (StyleElement css :: children))
  /\ (ownerDocument CSSStyleSheet clonedNode = None ->
      embedWebFonts CSSStyleSheet getCSSRules shouldEmbed embedResources
        clonedNode children None options
      = Rejected not_in_document).
Proof.
  split; [|split].
  - intros css. unfold embedWebFonts. cbn [promise_then].
    by destruct children.
  - intros css Hcss. unfold embedWebFonts. rewrite Hcss. cbn [promise_then].
    by destruct children.
  - intros Hnone. unfold embedWebFonts, getWebFontCSS, parseWebFontRules.
    by rewrite Hnone.
Qed.

(** ** Query strings and the cache *)

Lemma upto_char_app (c : ascii) (a b : text) :
  has_char c a = false -> upto_char c (a ++ c :: b) = a.
Proof.
  intros Ha. induction a as [|d a IH]; cbn [app upto_char].
  - by rewrite Ascii.eqb_refl.
  - cbn [has_char] in Ha. apply orb_false_elim in Ha as [Hd Ha].
    rewrite Hd. by rewrite IH.
Qed.

(** X21: unless [includeQueryParams] is set, the query string has no
    part in the cache key: after a call for a URL, a call for the same URL
    with another query string gets the promise of the first call and
    issues no request. *)
Theorem getBlobFromURL_query_ignored (base query1 query2 : text)
    (options1 options2 : Options) (w : world) (evs : list cache_event) :
  truthy_bool (includeQueryParams options1) = false ->
  truthy_bool (includeQueryParams options2) = false ->
  has_char "?" base = false ->
  no_line_terminator (base ++ "?"%char :: query1) ->
  no_line_terminator (base ++ "?"%char :: query2) ->
  let url1 := base ++ "?"%char :: query1 in
  let url2 := base ++ "?"%char :: query2 in
  let p := fst (getBlobFromURL url1 options1 w) in
  let w1 := fst (run evs (snd (getBlobFromURL url1 options1 w))) in
  cache_key url1 options1 = cache_key url2 options2
  /\ getBlobFromURL url2 options2 w1 = (p, w1).
Proof.
  intros Ho1 Ho2 Hb Hl1 Hl2 url1 url2 p w1.
  assert (Hkey : cache_key url1 options1 = cache_key url2 options2).
  { unfold cache_key. rewrite Ho1, Ho2, !getCacheKey_key by done.
    cbv zeta. subst url1 url2. by rewrite !upto_char_app. }
  split; [done|].
  apply getBlobFromURL_hit. rewrite <- Hkey.
  apply run_cached. apply getBlobFromURL_caches.
Qed.

Lemma getBlobFromURL_query_ignored_witness :
  let options := {| includeQueryParams := None; cacheBust := Some true;
                    imagePlaceholder := None |} in
  let url1 := js "https://host.test/logo.png" ++ "?"%char :: js "v=1" in
  let url2 := js "https://host.test/logo.png" ++ "?"%char :: js "v=2" in
  let p := fst (getBlobFromURL url1 options empty_world) in
  let w1 := fst (run [Tick 5] (snd (getBlobFromURL url1 options empty_world))) in
  cache_key url1 options = cache_key url2 options
  /\ getBlobFromURL url2 options w1 = (p, w1).
Proof.
  intros options.
  apply (getBlobFromURL_query_ignored (js "https://host.test/logo.png")
           (js "v=1") (js "v=2") options options empty_world [Tick 5]);
    try reflexivity; unfold no_line_terminator; by repeat constructor.
Defined.

(** ** What a cache key is made of *)





